(** * Population orchestrator of the MySQL dummy-data populator

    A shallow embedding of [populator.py] (class [DatabasePopulator]) and
    the properties of its multi-phase insertion algorithm: table ordering,
    per-row foreign-key resolution, placeholder synthesis, the insertion
    loop with its auto-increment back-fill, and the bounded repair loop.

    Python objects are modelled as follows.
    - [int] is [Z]; [str] is [string]; [None], booleans, integers and
      strings that travel through rows are [Value].
    - A row ([dict] from column name to value) is an insertion-ordered
      association list, because [tuple(row_data.values())] depends on the
      order.  Rows built by the populator are mutable objects that end up
      shared with the row store, so they live in a heap and are handled
      through their address.
    - [self.inserted_data] ([defaultdict(list)]) is a [gmap] from table
      name to the list of row addresses; [self.failed_tables] is a [gset].
    - The database, the value synthesizer and [random] are collaborators:
      the first two are section variables acting on an abstract state, the
      third is a tape of naturals consumed one draw at a time.
    - Exceptions are explicit: every operation returns an [Outcome]. *)

From Stdlib Require Import ZArith Ascii String List Lia.
From stdpp Require Import base option list gmap strings pretty.
From Equations Require Import Equations.

#[local] Set Warnings "-clear-no-such-hyp".

Local Open Scope string_scope.
Local Open Scope list_scope.
Local Open Scope Z_scope.

(** ** Values and rows *)

Inductive Value : Type :=
  | VNone
  | VBool (b : bool)
  | VInt (z : Z)
  | VStr (s : string).

#[global] Instance Value_eq_dec : EqDecision Value.
Proof. solve_decision. Defined.

(** Python truthiness of a scalar. *)
Definition truthy (v : Value) : bool :=
  match v with
  | VNone => false
  | VBool b => b
  | VInt z => negb (z =? 0)
  | VStr s => negb (String.eqb s "")
  end.

(** A Python [dict] with string keys, in insertion order. *)
Abbreviation Row := (list (string * Value)).

Fixpoint dict_get (d : Row) (k : string) : option Value :=
  match d with
  | [] => None
  | (k', v) :: d' => if String.eqb k' k then Some v else dict_get d' k
  end.

(** [d[k] = v]: an existing key keeps its position, a new one goes last. *)
Fixpoint dict_set (d : Row) (k : string) (v : Value) : Row :=
  match d with
  | [] => [(k, v)]
  | (k', v') :: d' =>
      if String.eqb k' k then (k', v) :: d' else (k', v') :: dict_set d' k v
  end.

Definition dict_values (d : Row) : list Value := map snd d.

(** ** Schema metadata *)

(** A column descriptor ([col['column_name']], [col['data_type']], ...). *)
Record Column : Type := {
  column_name : string;
  data_type : string;
  is_nullable : string;
  column_key : string;
  extra : string
}.

(** A foreign-key descriptor; the key ['is_nullable'] may be absent. *)
Record ForeignKey : Type := {
  column : string;
  referenced_table : string;
  referenced_column : string;
  fk_is_nullable : option bool
}.

(** What the populator reads from [self.schema]. *)
Record SchemaAnalyzer : Type := {
  analyze_schema : bool;
  get_table_insertion_order : list string * gset string;
  table_columns : gmap string (list Column);
  foreign_keys : gmap string (list ForeignKey)
}.

(** ** Strings *)

(** [str.lower()] on ASCII text. *)
Definition lower_ascii (c : ascii) : ascii :=
  let n := nat_of_ascii c in
  if ((65 <=? n) && (n <=? 90))%nat then ascii_of_nat (n + 32) else c.

Fixpoint lower (s : string) : string :=
  match s with
  | EmptyString => EmptyString
  | String c s' => String (lower_ascii c) (lower s')
  end.

(** [sep.join(l)]. *)
Definition join (sep : string) (l : list string) : string := String.concat sep l.

(** ** Ordering special case (populate_database, lines 51-63) *)

Definition sentinels_present (ordered_tables : list string) : Prop :=
  "SyncSource" ∈ ordered_tables ∧ "SyncSource_LogAlert" ∈ ordered_tables.

(** Lines 56-63: both sentinels are taken out, then put first and last. *)
Definition move_sentinels (ordered_tables : list string) : list string :=
  let ordered_tables :=
    filter (λ t, t ∉ ["SyncSource"; "SyncSource_LogAlert"]) ordered_tables in
  let ordered_tables := ["SyncSource"] ++ ordered_tables in
  ordered_tables ++ ["SyncSource_LogAlert"].

(** ** Collaborator interfaces *)

(** One call of [db.execute_query(sql, params=None, commit=False)]. *)
Record Query : Type := {
  sql : string;
  params : option (list Value);
  commit : bool
}.

(** The call either raises [mysql.connector.Error] or returns [None] or a
    list of row mappings. *)
Inductive DbOutcome : Type :=
  | DbError (msg : string)
  | DbResult (result : option (list Row)).

(** Truthiness of a query result: [None] and [[]] are falsy. *)
Definition result_truthy (result : option (list Row)) : bool :=
  match result with
  | Some (_ :: _) => true
  | _ => false
  end.

(** ** Exceptions and outcomes *)

Inductive Exn : Type :=
  | MySQLError (msg : string)
  | KeyError (key : string)
  | IndexError.

Inductive Outcome (A : Type) : Type :=
  | Ret (a : A)
  | Raise (e : Exn).
Arguments Ret {A} a.
Arguments Raise {A} e.

(** ** Log records *)

Inductive Level : Type := ERROR | WARNING | INFO | DEBUG.

(** One constructor per [logging] call of [populator.py], carrying the
    values interpolated into its message. *)
Inductive LogMsg : Type :=
  | MsgSchemaFailed
  | MsgNoTables
  | MsgOrder (ordered_tables : list string)
  | MsgCircular (circular_tables : gset string)
  | MsgSentinelOrder
  | MsgSecondPass
  | MsgSomeFailed (failed : gset string)
  | MsgAllPopulated
  | MsgNotPopulated (failed : gset string)
  | MsgTableNotFound (table : string)
  | MsgPopulating (table : string)
  | MsgSentinelColumns
  | MsgEscapedQuery (insert_query : string)
  | MsgInsertError (table e : string)
  | MsgOnlyInserted (successful_inserts num_records : Z) (table : string)
  | MsgFoundSyncSource
  | MsgUsingSyncSourceId (v : Value)
  | MsgNullForeignKey (table column rtable rcolumn : string)
  | MsgCircularDetected (table column rtable rcolumn : string)
  | MsgUsingDatabaseValue (table column rtable rcolumn : string)
  | MsgPlaceholder (placeholder : Value) (table column rtable rcolumn : string)
  | MsgNotYetPopulated (rtable table column : string)
  | MsgRepairStart
  | MsgRetry (retry_count max_retries : Z)
  | MsgNoProgress
  | MsgPartialStart (table : string)
  | MsgPartialSuccess (table : string)
  | MsgAttemptFailed (attempt : Z) (table e : string)
  | MsgPartialFailed (table : string).

#[global] Instance Level_eq_dec : EqDecision Level.
Proof. solve_decision. Defined.

#[global] Instance LogMsg_eq_dec : EqDecision LogMsg.
Proof. solve_decision. Defined.

(** ** Example schemas and collaborators

    Small concrete inputs on which the populator is run further down. *)

Definition make_column (name dtype nullable key ex : string) : Column :=
  {| column_name := name; data_type := dtype; is_nullable := nullable;
     column_key := key; extra := ex |}.

(** A value synthesizer that always answers 5. *)
Definition constant_gen (col : Column) (table_name : option string) (g : unit)
    : Value * unit :=
  (VInt 5, g).

(** A database that answers [None] to every statement. *)
Definition silent_db (q : Query) (s : unit) : DbOutcome * unit :=
  (DbResult None, s).

(** A database that accepts every insert and answers every read with one
    row whose [id] is 42. *)
Definition parent_db (q : Query) (s : unit) : DbOutcome * unit :=
  if commit q then (DbResult (Some [[]]), s)
  else (DbResult (Some [[("id", VInt 42)]]), s).

(** A database that rejects the first three inserts with an error, accepts
    the later ones, and answers 0 to every identifier read.  Its state
    counts the inserts seen so far. *)
Definition flaky_db (q : Query) (s : nat) : DbOutcome * nat :=
  if commit q then
    (if (s <? 3)%nat then DbError "duplicate entry" else DbResult (Some [[]]), S s)
  else (DbResult (Some [[("id", VInt 0)]]), s).

(** A schema that lists a table, [Ghost], for which it has no metadata. *)
Definition ghost_schema (circular_tables : gset string) : SchemaAnalyzer :=
  {| analyze_schema := true;
     get_table_insertion_order := (["Ghost"], circular_tables);
     table_columns := ∅;
     foreign_keys := ∅ |}.

Definition item_columns : list Column :=
  [make_column "id" "int" "NO" "PRI" "auto_increment"; make_column "name" "varchar" "YES" "" ""].

(** One table, [Item], with an auto-increment key and no foreign key. *)
Definition item_schema (analyzed : bool) (circular_tables : gset string)
    : SchemaAnalyzer :=
  {| analyze_schema := analyzed;
     get_table_insertion_order := (["Item"], circular_tables);
     table_columns := {[ "Item" := item_columns ]};
     foreign_keys := ∅ |}.

Definition child_columns : list Column :=
  [make_column "parent_id" "int" "NO" "MUL" ""].

Definition child_parent_fk : ForeignKey :=
  {| column := "parent_id"; referenced_table := "Parent";
     referenced_column := "id"; fk_is_nullable := None |}.

(** One table, [Child], whose only column is a NOT NULL foreign key to
    [Parent.id]. *)
Definition child_schema : SchemaAnalyzer :=
  {| analyze_schema := true;
     get_table_insertion_order := (["Child"], {[ "Child" ]});
     table_columns := {[ "Child" := child_columns ]};
     foreign_keys := {[ "Child" := [child_parent_fk] ]} |}.

(** An integer primary-key column. *)
Definition id_column : Column := make_column "id" "INT" "NO" "PRI" "auto_increment".

(** A database that accepts every insert and raises an error on every
    read. *)
Definition unreadable_db (q : Query) (s : unit) : DbOutcome * unit :=
  if commit q then (DbResult (Some [[]]), s) else (DbError "read failed", s).

(** A schema of five plain tables whose order has both sentinel tables in
    the middle. *)
Definition sentinel_schema : SchemaAnalyzer :=
  let columns := [make_column "name" "varchar" "YES" "" ""] in
  {| analyze_schema := true;
     get_table_insertion_order :=
       (["a"; "SyncSource_LogAlert"; "b"; "SyncSource"; "c"], ∅);
     table_columns :=
       list_to_map [("a", columns); ("SyncSource_LogAlert", columns); ("b", columns);
                    ("SyncSource", columns); ("c", columns)];
     foreign_keys := ∅ |}.

(** A database that accepts every insert and answers every read with one
    row whose [ID] is 1. *)
Definition sync_source_db (q : Query) (s : unit) : DbOutcome * unit :=
  if commit q then (DbResult (Some [[]]), s)
  else (DbResult (Some [[("ID", VInt 1)]]), s).

Section Populator.

(** The database and the value synthesizer, each with a state of its own. *)
Context {DbState GenState : Type}.
Variable execute_query : Query → DbState → DbOutcome * DbState.
Variable generate_value : Column → option string → GenState → Value * GenState.

(** [self.schema], [self.num_records], [self.max_retries]. *)
Variable schema : SchemaAnalyzer.
Variable num_records max_retries : Z.

(** ** The populator's state *)

Record World : Type := {
  inserted_data : gmap string (list nat);
  failed_tables : gset string;
  _sync_source_ids : option (list Value);
  heap : list Row;
  db : DbState;
  gen : GenState;
  rng : list nat;
  log : list (Level * LogMsg)
}.

Definition upd_inserted_data (f : gmap string (list nat) → gmap string (list nat))
    (w : World) : World :=
  {| inserted_data := f (inserted_data w); failed_tables := failed_tables w;
     _sync_source_ids := _sync_source_ids w; heap := heap w; db := db w;
     gen := gen w; rng := rng w; log := log w |}.

Definition upd_failed_tables (f : gset string → gset string) (w : World) : World :=
  {| inserted_data := inserted_data w; failed_tables := f (failed_tables w);
     _sync_source_ids := _sync_source_ids w; heap := heap w; db := db w;
     gen := gen w; rng := rng w; log := log w |}.

Definition upd_sync_source_ids (ids : option (list Value)) (w : World) : World :=
  {| inserted_data := inserted_data w; failed_tables := failed_tables w;
     _sync_source_ids := ids; heap := heap w; db := db w;
     gen := gen w; rng := rng w; log := log w |}.

Definition upd_heap (f : list Row → list Row) (w : World) : World :=
  {| inserted_data := inserted_data w; failed_tables := failed_tables w;
     _sync_source_ids := _sync_source_ids w; heap := f (heap w); db := db w;
     gen := gen w; rng := rng w; log := log w |}.

Definition upd_db (s : DbState) (w : World) : World :=
  {| inserted_data := inserted_data w; failed_tables := failed_tables w;
     _sync_source_ids := _sync_source_ids w; heap := heap w; db := s;
     gen := gen w; rng := rng w; log := log w |}.

Definition upd_gen (s : GenState) (w : World) : World :=
  {| inserted_data := inserted_data w; failed_tables := failed_tables w;
     _sync_source_ids := _sync_source_ids w; heap := heap w; db := db w;
     gen := s; rng := rng w; log := log w |}.

Definition upd_rng (tape : list nat) (w : World) : World :=
  {| inserted_data := inserted_data w; failed_tables := failed_tables w;
     _sync_source_ids := _sync_source_ids w; heap := heap w; db := db w;
     gen := gen w; rng := tape; log := log w |}.

Definition upd_log (f : list (Level * LogMsg) → list (Level * LogMsg))
    (w : World) : World :=
  {| inserted_data := inserted_data w; failed_tables := failed_tables w;
     _sync_source_ids := _sync_source_ids w; heap := heap w; db := db w;
     gen := gen w; rng := rng w; log := f (log w) |}.

(** The state of a freshly constructed [DatabasePopulator] (__init__). *)
Definition init (s : DbState) (g : GenState) (tape : list nat) : World :=
  {| inserted_data := ∅; failed_tables := ∅; _sync_source_ids := None;
     heap := []; db := s; gen := g; rng := tape; log := [] |}.

(** ** State and exception monad *)

Definition M (A : Type) : Type := World → Outcome A * World.

Definition ret {A} (a : A) : M A := λ w, (Ret a, w).

Definition bind {A B} (m : M A) (k : A → M B) : M B :=
  λ w, match m w with
       | (Ret a, w') => k a w'
       | (Raise e, w') => (Raise e, w')
       end.

Definition raise {A} (e : Exn) : M A := λ w, (Raise e, w).

(** [try: body  except Error as e: handler e]: only the database error
    is caught, any other exception goes through. *)
Definition try_except_Error {A} (body : M A) (handler : string → M A) : M A :=
  λ w, match body w with
       | (Raise (MySQLError e), w') => handler e w'
       | r => r
       end.

#[local] Instance M_ret : MRet M := @ret.
#[local] Instance M_bind : MBind M := λ A B k m, bind m k.

Definition gets {A} (f : World → A) : M A := λ w, (Ret (f w), w).
Definition modify (f : World → World) : M unit := λ w, (Ret tt, f w).

Fixpoint for_each {A} (l : list A) (body : A → M unit) : M unit :=
  match l with
  | [] => mret tt
  | x :: l' => body x;; for_each l' body
  end.

Fixpoint map_m {A B} (f : A → M B) (l : list A) : M (list B) :=
  match l with
  | [] => mret []
  | x :: l' => y ← f x; ys ← map_m f l'; mret (y :: ys)
  end.

(** ** Primitive operations *)

Definition logging (lvl : Level) (msg : LogMsg) : M unit :=
  modify (upd_log (λ l, l ++ [(lvl, msg)])).

(** One draw from the random tape; an exhausted tape yields 0. *)
Definition draw : M nat :=
  λ w, match rng w with
       | [] => (Ret 0%nat, w)
       | n :: tape => (Ret n, upd_rng tape w)
       end.

Definition randbelow (n : nat) : M nat := k ← draw; mret (k mod n)%nat.

(** [random.randint(a, b)] for [a <= b]. *)
Definition randint (a b : Z) : M Z :=
  k ← draw; mret (a + Z.of_nat k mod (b - a + 1)).

(** [random.choice(seq)]. *)
Definition choice {A} (seq : list A) : M A :=
  match seq with
  | [] => raise IndexError
  | x :: _ => i ← randbelow (length seq); mret (default x (seq !! i))
  end.

Definition swap {A} (i j : nat) (x : list A) : list A :=
  match x !! i, x !! j with
  | Some a, Some b => <[j := a]> (<[i := b]> x)
  | _, _ => x
  end.

(** [random.shuffle(x)]: for i from len(x)-1 down to 1, swap x[i] with
    x[randbelow(i+1)]. *)
Fixpoint shuffle_from {A} (i : nat) (x : list A) : M (list A) :=
  match i with
  | O => mret x
  | S i' => j ← randbelow (S i); shuffle_from i' (swap i j x)
  end.

Definition shuffle {A} (x : list A) : M (list A) :=
  shuffle_from (length x - 1)%nat x.

Definition db_execute_query (sql : string) (params : option (list Value))
    (commit : bool) : M (option (list Row)) :=
  λ w, match execute_query {| sql := sql; params := params; commit := commit |} (db w) with
       | (DbError e, s) => (Raise (MySQLError e), upd_db s w)
       | (DbResult result, s) => (Ret result, upd_db s w)
       end.

Definition data_gen_generate_value (col : Column) (table_name : option string) : M Value :=
  λ w, let '(v, g) := generate_value col table_name (gen w) in (Ret v, upd_gen g w).

(** [row_data = {}]: a new empty dict at a fresh address. *)
Definition new_dict : M nat :=
  λ w, (Ret (length (heap w)), upd_heap (λ h, h ++ [[]]) w).

(** [row_data[k] = v] on the dict at address [l]. *)
Definition dict_setitem (l : nat) (k : string) (v : Value) : M unit :=
  modify (upd_heap (alter (λ d, dict_set d k v) l)).

(** [row[k]] on a row mapping; a missing key raises [KeyError]. *)
Definition row_getitem (d : Row) (k : string) : M Value :=
  match dict_get d k with
  | Some v => mret v
  | None => raise (KeyError k)
  end.

(** [row_data[k]] on the dict at address [l]. *)
Definition dict_getitem (l : nat) (k : string) : M Value :=
  d ← gets (λ w, default [] (heap w !! l)); row_getitem d k.

(** [self.inserted_data[table].append(row_data)] on a [defaultdict(list)]. *)
Definition store_append (table : string) (l : nat) : M unit :=
  modify (upd_inserted_data (λ m, <[table := (m !!! table) ++ [l]]> m)).

(** ** Placeholder synthesis (_generate_placeholder_value, lines 290-312) *)

Definition _generate_placeholder_value (column_info : Column) : M Value :=
  if decide (column_key column_info = "PRI") then
    let dtype := lower (data_type column_info) in
    if decide (dtype ∈ ["int"; "bigint"; "smallint"; "tinyint"; "mediumint"]) then
      n ← randint 1000000 9999999; mret (VInt n)
    else if decide (dtype ∈ ["varchar"; "char"]) then
      n ← randint 100000 999999; mret (VStr ("temp-" +:+ pretty n))
    else data_gen_generate_value column_info None
  else data_gen_generate_value column_info None.

(** ** Row generation (_generate_row_data, lines 172-288) *)

(** Lines 223-229: the first descriptor of [table] on [column_name]. *)
Definition find_foreign_key (table column_name : string) : option ForeignKey :=
  match foreign_keys schema !! table with
  | Some fks => List.find (λ fk, String.eqb (column fk) column_name) fks
  | None => None
  end.

(** Lines 237-242: the second scan, on column and referenced table. *)
Definition find_fk_info (table column_name rtable : string) : option ForeignKey :=
  match foreign_keys schema !! table with
  | Some fks =>
      List.find (λ fk, String.eqb (column fk) column_name
                       && String.eqb (referenced_table fk) rtable) fks
  | None => None
  end.

(** Lines 234-246: the descriptor's nullability overrides the column's. *)
Definition fk_nullable (col : Column) (fk_info : option ForeignKey) : bool :=
  let nullable := String.eqb (lower (is_nullable col)) "yes" in
  match fk_info with
  | Some fk => match fk_is_nullable fk with Some b => b | None => nullable end
  | None => nullable
  end.

(** Lines 270-274 and 280-283. *)
Definition fill_placeholder (table : string) (row_data : nat) (col : Column)
    (rtable rcolumn : string) : M unit :=
  placeholder ← _generate_placeholder_value col;
  dict_setitem row_data (column_name col) placeholder;;
  logging INFO (MsgPlaceholder placeholder table (column_name col) rtable rcolumn).

(** Lines 253-283: the branches taken when the referenced table has no
    stored row. *)
Definition resolve_without_rows (table : string) (handle_circular : bool)
    (row_data : nat) (col : Column) (rtable rcolumn : string) (nullable : bool) : M unit :=
  if nullable then
    logging INFO (MsgNullForeignKey table (column_name col) rtable rcolumn);;
    dict_setitem row_data (column_name col) VNone
  else if handle_circular then
    logging WARNING (MsgCircularDetected table (column_name col) rtable rcolumn);;
    result ← db_execute_query
               ("SELECT " +:+ rcolumn +:+ " FROM " +:+ rtable +:+ " LIMIT 1") None false;
    match result with
    | Some (row0 :: _) =>
        v ← row_getitem row0 rcolumn;
        if decide (v ≠ VNone) then
          dict_setitem row_data (column_name col) v;;
          logging INFO (MsgUsingDatabaseValue table (column_name col) rtable rcolumn)
        else fill_placeholder table row_data col rtable rcolumn
    | _ => fill_placeholder table row_data col rtable rcolumn
    end
  else
    logging ERROR (MsgNotYetPopulated rtable table (column_name col));;
    fill_placeholder table row_data col rtable rcolumn.

(** Lines 248-283: the resolution policy of one foreign-key column. *)
Definition resolve_foreign_key (table : string) (handle_circular : bool)
    (row_data : nat) (col : Column) (rtable rcolumn : string) (nullable : bool) : M unit :=
  stored ← gets (λ w, inserted_data w !! rtable);
  match stored with
  | Some (r :: rs) =>
      referenced_row ← choice (r :: rs);
      v ← dict_getitem referenced_row rcolumn;
      dict_setitem row_data (column_name col) v
  | _ => resolve_without_rows table handle_circular row_data col rtable rcolumn nullable
  end.

(** Lines 218-286: a column outside the sentinel short-circuit. *)
Definition process_plain_column (table : string) (handle_circular : bool)
    (row_data : nat) (col : Column) : M unit :=
  match find_foreign_key table (column_name col) with
  | Some fk =>
      let rtable := referenced_table fk in
      let rcolumn := referenced_column fk in
      let fk_info := find_fk_info table (column_name col) rtable in
      resolve_foreign_key table handle_circular row_data col rtable rcolumn
        (fk_nullable col fk_info)
  | None =>
      v ← data_gen_generate_value col (Some table);
      dict_setitem row_data (column_name col) v
  end.

(** Lines 208-286: the body of the loop over the columns.  The sentinel
    short-circuit needs [self._sync_source_ids] to exist and be non-empty. *)
Definition process_column (table : string) (handle_circular : bool)
    (row_data : nat) (col : Column) : M unit :=
  ids ← gets _sync_source_ids;
  match ids with
  | Some (id0 :: ids') =>
      if decide (table = "SyncSource_LogAlert" ∧ column_name col = "SyncSource_ID") then
        v ← choice (id0 :: ids');
        dict_setitem row_data (column_name col) v;;
        logging INFO (MsgUsingSyncSourceId v)
      else process_plain_column table handle_circular row_data col
  | _ => process_plain_column table handle_circular row_data col
  end.

(** Lines 186-205: refresh of the cached pool of SyncSource identifiers. *)
Definition refresh_sync_source_ids (table : string) : M unit :=
  if decide (table = "SyncSource_LogAlert") then
    result ← db_execute_query "SELECT ID FROM SyncSource LIMIT 1" None false;
    if result_truthy result then
      logging INFO MsgFoundSyncSource;;
      result ← db_execute_query "SELECT ID FROM SyncSource" None false;
      match result with
      | Some (row0 :: rows) =>
          ids ← map_m (λ row, row_getitem row "ID") (row0 :: rows);
          modify (upd_sync_source_ids (Some ids))
      | _ => mret tt
      end
    else mret tt
  else mret tt.

Definition _generate_row_data (table : string) (columns : list Column)
    (handle_circular : bool) : M nat :=
  row_data ← new_dict;
  refresh_sync_source_ids table;;
  for_each columns (process_column table handle_circular row_data);;
  mret row_data.

(** ** Insertion engine (_populate_table, lines 94-170) *)

(** Lines 116-134 (and, word for word, 370-388): the INSERT statement. *)
Definition prepare_insert_query (table : string) (column_names : list string) : M string :=
  if decide (table = "SyncSource") then
    logging INFO MsgSentinelColumns;;
    let escaped_column_names := map (λ c, "`" +:+ c +:+ "`") column_names in
    let placeholders := join ", " (replicate (length column_names) "%s") in
    let insert_query :=
      "INSERT INTO `" +:+ table +:+ "` (" +:+ join ", " escaped_column_names
      +:+ ") VALUES (" +:+ placeholders +:+ ")" in
    logging DEBUG (MsgEscapedQuery insert_query);;
    mret insert_query
  else
    let placeholders := join ", " (replicate (length column_names) "%s") in
    mret ("INSERT INTO " +:+ table +:+ " (" +:+ join ", " column_names
          +:+ ") VALUES (" +:+ placeholders +:+ ")").

Definition last_id_query : string := "SELECT LAST_INSERT_ID() as id".

(** Lines 147-153 (and 399-404): back-fill of one auto-increment column. *)
Definition backfill_column (row_data : nat) (col : Column) : M unit :=
  if decide (extra col = "auto_increment") then
    result ← db_execute_query last_id_query None false;
    match result with
    | Some (row0 :: _) =>
        last_id ← row_getitem row0 "id";
        if truthy last_id then dict_setitem row_data (column_name col) last_id
        else mret tt
    | _ => mret tt
    end
  else mret tt.

(** Lines 140-157 (and 393-407): the body of the [try] block.  Returns
    whether the row was appended to the store. *)
Definition insert_row (table : string) (columns : list Column)
    (handle_circular : bool) (insert_query : string) : M bool :=
  row_data ← _generate_row_data table columns handle_circular;
  d ← gets (λ w, default [] (heap w !! row_data));
  inserted ← db_execute_query insert_query (Some (dict_values d)) true;
  if result_truthy inserted then
    for_each columns (backfill_column row_data);;
    store_append table row_data;;
    mret true
  else mret false.

(** Lines 137-161: [for i in range(self.num_records)], [n] iterations left. *)
Fixpoint insert_rows (table : string) (columns : list Column)
    (handle_circular : bool) (insert_query : string)
    (n : nat) (successful_inserts : Z) : M Z :=
  match n with
  | O => mret successful_inserts
  | S n' =>
      ok ← try_except_Error
             (insert_row table columns handle_circular insert_query)
             (λ e, logging ERROR (MsgInsertError table e);; mret false);
      insert_rows table columns handle_circular insert_query n'
        (if ok : bool then successful_inserts + 1 else successful_inserts)
  end.

Definition _populate_table (table : string) (handle_circular : bool) : M bool :=
  match table_columns schema !! table with
  | None =>
      logging ERROR (MsgTableNotFound table);;
      modify (upd_failed_tables (λ s, s ∪ {[table]}));;
      mret false
  | Some columns =>
      logging INFO (MsgPopulating table);;
      insert_query ← prepare_insert_query table (map column_name columns);
      successful_inserts ←
        insert_rows table columns handle_circular insert_query (Z.to_nat num_records) 0;
      if successful_inserts <? num_records then
        logging WARNING (MsgOnlyInserted successful_inserts num_records table);;
        if successful_inserts =? 0 then
          modify (upd_failed_tables (λ s, s ∪ {[table]}));;
          mret false
        else mret true
      else mret true
  end.

(** ** Repair engine (lines 314-416) *)

(** Lines 390-416: [for attempt in range(10)], [n] attempts left. *)
Fixpoint partial_attempts (table : string) (columns : list Column)
    (insert_query : string) (n : nat) (attempt : Z) : M bool :=
  match n with
  | O => logging ERROR (MsgPartialFailed table);; mret false
  | S n' =>
      stored ← try_except_Error
                 (ok ← insert_row table columns true insert_query;
                  if ok : bool then logging INFO (MsgPartialSuccess table);; mret true
                  else mret false)
                 (λ e, logging DEBUG (MsgAttemptFailed (attempt + 1) table e);; mret false);
      if stored : bool then mret true
      else partial_attempts table columns insert_query n' (attempt + 1)
  end.

(** [self.schema.table_columns[table]] is a plain subscript here: a table
    without metadata raises [KeyError]. *)
Definition _try_partial_population (table : string) : M bool :=
  logging INFO (MsgPartialStart table);;
  match table_columns schema !! table with
  | None => raise (KeyError table)
  | Some columns =>
      insert_query ← prepare_insert_query table (map column_name columns);
      partial_attempts table columns insert_query 10 0
  end.

(** Lines 335-337: full population of the shuffled tables. *)
Fixpoint retry_tables (tables_to_try : list string)
    (success_in_iteration : gset string) : M (gset string) :=
  match tables_to_try with
  | [] => mret success_in_iteration
  | table :: rest =>
      ok ← _populate_table table true;
      retry_tables rest
        (if ok : bool then success_in_iteration ∪ {[table]} else success_in_iteration)
  end.

(** Lines 347-349: one-row population of the tables still remaining. *)
Fixpoint partial_pass (tables : list string) (remaining_tables : gset string)
    : M (gset string) :=
  match tables with
  | [] => mret remaining_tables
  | table :: rest =>
      ok ← _try_partial_population table;
      partial_pass rest
        (if ok : bool then remaining_tables ∖ {[table]} else remaining_tables)
  end.

(** Lines 325-349: one iteration of the [while] loop; returns the new
    [remaining_tables]. *)
Definition repair_iteration (retry_count : Z) (remaining_tables : gset string)
    : M (gset string) :=
  logging INFO (MsgRetry retry_count max_retries);;
  tables_to_try ← shuffle (elements remaining_tables);
  success_in_iteration ← retry_tables tables_to_try ∅;
  let remaining_tables := remaining_tables ∖ success_in_iteration in
  if decide (success_in_iteration = ∅ ∧ remaining_tables ≠ ∅) then
    logging INFO MsgNoProgress;;
    partial_pass (elements remaining_tables) remaining_tables
  else mret remaining_tables.

(** Line 324: [while remaining_tables and retry_count < self.max_retries]. *)
Equations? repair_loop (retry_count : Z) (remaining_tables : gset string)
    : M (gset string) by wf (Z.to_nat (max_retries - retry_count)) lt :=
  repair_loop retry_count remaining_tables
    with decide (remaining_tables ≠ ∅ ∧ retry_count < max_retries) := {
    | left _ =>
        remaining_tables ← repair_iteration (retry_count + 1) remaining_tables;
        repair_loop (retry_count + 1) remaining_tables
    | right _ => mret remaining_tables }.
Proof. lia. Qed.

Definition _handle_failed_tables : M unit :=
  logging INFO MsgRepairStart;;
  remaining_tables ← gets failed_tables;
  remaining_tables ← repair_loop 0 remaining_tables;
  modify (upd_failed_tables (λ _, remaining_tables)).

(** ** Orchestrator (populate_database, lines 29-92) *)

(** Lines 51-63. *)
Definition order_tables (ordered_tables : list string) : M (list string) :=
  if decide (sentinels_present ordered_tables) then
    logging INFO MsgSentinelOrder;;
    mret (move_sentinels ordered_tables)
  else mret ordered_tables.

(** Lines 65-68. *)
Definition first_pass (ordered_tables : list string) (circular_tables : gset string)
    : M unit :=
  let non_circular_tables := filter (λ t, t ∉ circular_tables) ordered_tables in
  for_each non_circular_tables (λ table, _populate_table table false;; mret tt).

(** Lines 75-76: the loop of the second pass. *)
Definition circular_pass (ordered_tables : list string) (circular_tables : gset string)
    : M unit :=
  for_each (filter (λ t, t ∈ circular_tables) ordered_tables)
    (λ table, _populate_table table true;; mret tt).

(** Lines 78-83. *)
Definition check_failed_tables : M unit :=
  failed ← gets failed_tables;
  if decide (failed ≠ ∅) then
    logging WARNING (MsgSomeFailed failed);;
    _handle_failed_tables
  else mret tt.

(** Lines 70-83. *)
Definition second_pass (ordered_tables : list string) (circular_tables : gset string)
    : M unit :=
  if decide (circular_tables ≠ ∅) then
    logging INFO MsgSecondPass;;
    circular_pass ordered_tables circular_tables;;
    check_failed_tables
  else mret tt.

(** Lines 85-92. *)
Definition final_check : M bool :=
  failed ← gets failed_tables;
  let success := bool_decide (size failed = 0%nat) in
  (if success then logging INFO MsgAllPopulated
   else logging WARNING (MsgNotPopulated failed));;
  mret success.

Definition populate_database : M bool :=
  if negb (analyze_schema schema) then
    logging ERROR MsgSchemaFailed;; mret false
  else
    let '(ordered_tables, circular_tables) := get_table_insertion_order schema in
    if decide (ordered_tables = []) then
      logging ERROR MsgNoTables;; mret false
    else
      logging INFO (MsgOrder ordered_tables);;
      logging INFO (MsgCircular circular_tables);;
      ordered_tables ← order_tables ordered_tables;
      first_pass ordered_tables circular_tables;;
      second_pass ordered_tables circular_tables;;
      final_check.

(** * Vocabulary of the properties

    Predicates and relations on states in which the theorems below are
    stated, and the pieces of the orchestrator's run that they name. *)

(** [preserves R m]: whatever the outcome, the final state of [m] is
    [R]-related to the initial one. *)
Definition preserves (R : relation World) {A} (m : M A) : Prop :=
  ∀ w, R w (m w).2.

(** Messages of the repair loop itself; every other message is [quiet]. *)
Definition quiet (msg : LogMsg) : bool :=
  match msg with
  | MsgRetry _ _ | MsgRepairStart => false
  | _ => true
  end.

(** The log only grows, by entries satisfying [P]. *)
Definition log_ext (P : LogMsg → Prop) (w w' : World) : Prop :=
  ∃ ex, log w' = log w ++ ex ∧ Forall (λ e, P e.2) ex.

(** A step that leaves rows, store and failed set alone and logs quiet
    messages only. *)
Definition frame (w w' : World) : Prop :=
  heap w' = heap w ∧ inserted_data w' = inserted_data w ∧
  failed_tables w' = failed_tables w ∧ log_ext (λ msg, quiet msg = true) w w'.

(** The two tables of the ordering special case. *)
Definition is_sentinel (t : string) : Prop :=
  t ∈ ["SyncSource"; "SyncSource_LogAlert"].

(** The type names tested at lines 304 and 307, after [lower()]. *)
Definition integer_family : list string :=
  ["int"; "bigint"; "smallint"; "tinyint"; "mediumint"].

Definition string_family : list string := ["varchar"; "char"].

(** Address [l] is an entry of some table's store. *)
Definition stored (w : World) (l : nat) : Prop :=
  ∃ t, l ∈ inserted_data w !!! t.

(** Every entry of the store is the address of an allocated row. *)
Definition wf_store (w : World) : Prop :=
  ∀ l, stored w l → (l < length (heap w))%nat.

(** From [w] to [w'] every table's store is extended at its end only, and
    the rows that were in the store have the same content. *)
Definition grows (w w' : World) : Prop :=
  (∀ t, inserted_data w !!! t `prefix_of` inserted_data w' !!! t) ∧
  (∀ l, stored w l → heap w' !! l = heap w !! l).

(** The store invariant as a relation between the two ends of a run. *)
Definition rows_ok (w w' : World) : Prop :=
  wf_store w → wf_store w' ∧ grows w w'.

(** [l] is the address of a row under construction: allocated, not yet
    in the store. *)
Definition pending (l : nat) (w : World) : Prop :=
  (l < length (heap w))%nat ∧ ¬ stored w l.

(** The same while the row at [l] is under construction. *)
Definition rows_ok_at (l : nat) (w w' : World) : Prop :=
  wf_store w ∧ pending l w → (wf_store w' ∧ pending l w') ∧ grows w w'.

(** The store, resp. the failed-table set, is the same at both ends. *)
Definition store_same (w w' : World) : Prop :=
  inserted_data w' = inserted_data w.

Definition failed_same (w w' : World) : Prop :=
  failed_tables w' = failed_tables w.

(** Lines 186-288 after [row_data = {}]. *)
Definition fill_row (table : string) (columns : list Column) (handle_circular : bool)
    (row_data : nat) : M nat :=
  refresh_sync_source_ids table;;
  for_each columns (process_column table handle_circular row_data);;
  mret row_data.

(** The insert statement that [insert_row] sends for the row at [l]. *)
Definition insert_statement (insert_query : string) (w : World) (l : nat) : Query :=
  {| sql := insert_query;
     params := Some (dict_values (default [] (heap w !! l)));
     commit := true |}.

(** The identifier read of lines 149-150. *)
Definition last_id_statement : Query :=
  {| sql := last_id_query; params := None; commit := false |}.

(** The identifier read came back falsy: [None], an empty list, or a
    first row whose ['id'] is falsy (0, for one). *)
Definition falsy_id_read (out : DbOutcome) : Prop :=
  match out with
  | DbError _ => False
  | DbResult None | DbResult (Some []) => True
  | DbResult (Some (row0 :: _)) => ∃ v, dict_get row0 "id" = Some v ∧ truthy v = false
  end.

(** Number of rows that a run from [w] to [w'] appended for [table]. *)
Definition added (table : string) (w w' : World) : nat :=
  (length (inserted_data w' !!! table) - length (inserted_data w !!! table))%nat.

(** An entry of the log written by the head of the [while] loop. *)
Definition is_retry (msg : LogMsg) : bool :=
  match msg with
  | MsgRetry _ _ => true
  | _ => false
  end.

(** Number of iterations of the [while] loop recorded in a piece of log. *)
Definition retries (entries : list (Level * LogMsg)) : nat :=
  length (filter (λ e, is_retry e.2 = true) entries).

(** The failed-table set stays inside [F]. *)
Definition failed_within (F : gset string) (w w' : World) : Prop :=
  failed_tables w ⊆ F → failed_tables w' ⊆ F.

(** Lines 48-76: the run from the first log line to the end of the loop
    of the second pass. *)
Definition populate_passes (ordered_tables : list string) (circular_tables : gset string)
    : M unit :=
  logging INFO (MsgOrder ordered_tables);;
  logging INFO (MsgCircular circular_tables);;
  ordered_tables ← order_tables ordered_tables;
  first_pass ordered_tables circular_tables;;
  if decide (circular_tables ≠ ∅) then
    logging INFO MsgSecondPass;;
    circular_pass ordered_tables circular_tables
  else mret tt.

(** Lines 78-92 after the passes. *)
Definition populate_epilogue (circular_tables : gset string) : M bool :=
  (if decide (circular_tables ≠ ∅) then check_failed_tables else mret tt);;
  final_check.

(** The log entry written on entry to [_handle_failed_tables]. *)
Definition repair_entry : Level * LogMsg := (INFO, MsgRepairStart).

(** Any message but the opening one of the repair engine. *)
Definition not_repair_start (msg : LogMsg) : Prop := msg ≠ MsgRepairStart.

(** Steps that change neither rows, store nor the cached identifier pool. *)
Definition same_core (w w' : World) : Prop :=
  heap w' = heap w ∧ inserted_data w' = inserted_data w ∧
  _sync_source_ids w' = _sync_source_ids w.

(** (a) copied from a row of the referenced table's store, as it was when
    row generation started. *)
Definition from_store (w0 : World) (rtable rcolumn : string) (v : Value) : Prop :=
  ∃ r, r ∈ inserted_data w0 !!! rtable ∧
       dict_get (default [] (heap w0 !! r)) rcolumn = Some v.

(** The test of line 249 fails: no list for [rtable], or an empty one. *)
Definition store_empty (w0 : World) (rtable : string) : Prop :=
  inserted_data w0 !!! rtable = [].

(** The probe of line 262. *)
Definition probe_statement (rtable rcolumn : string) : Query :=
  {| sql := "SELECT " +:+ rcolumn +:+ " FROM " +:+ rtable +:+ " LIMIT 1";
     params := None; commit := false |}.

(** (d) read from the database by the probe of the circular branch. *)
Definition from_database (rtable rcolumn : string) (v : Value) : Prop :=
  ∃ s row0 rows s',
    execute_query (probe_statement rtable rcolumn) s = (DbResult (Some (row0 :: rows)), s') ∧
    dict_get row0 rcolumn = Some v ∧ v ≠ VNone.

(** (c) made by [_generate_placeholder_value] for the column. *)
Definition is_placeholder (col : Column) (v : Value) : Prop :=
  ∃ w1 w1', _generate_placeholder_value col w1 = (Ret v, w1').

(** Drawn from the cached pool of SyncSource identifiers. *)
Definition from_pool (ids : option (list Value)) (v : Value) : Prop :=
  ∃ pool, ids = Some pool ∧ v ∈ pool.

(** The four ways in which the resolution policy fills the column [col]
    described by [fk]. *)
Definition fk_value_ok (w0 : World) (table : string) (hc : bool)
    (col : Column) (fk : ForeignKey) (v : Value) : Prop :=
  let rtable := referenced_table fk in
  let rcolumn := referenced_column fk in
  let nullable := fk_nullable col (find_fk_info table (column_name col) rtable) in
  (¬ store_empty w0 rtable ∧ from_store w0 rtable rcolumn v) ∨
  (store_empty w0 rtable ∧ nullable = true ∧ v = VNone) ∨
  (store_empty w0 rtable ∧ nullable = false ∧ hc = true ∧ from_database rtable rcolumn v) ∨
  (store_empty w0 rtable ∧ nullable = false ∧ is_placeholder col v).

(** The value [v] found under [name] in a generated row is accounted for. *)
Definition entry_ok (w0 : World) (ids : option (list Value)) (table : string)
    (hc : bool) (columns : list Column) (name : string) (v : Value) : Prop :=
  ∃ col, col ∈ columns ∧ column_name col = name ∧
    ((table = "SyncSource_LogAlert" ∧ name = "SyncSource_ID" ∧ from_pool ids v) ∨
     (∀ fk, find_foreign_key table name = Some fk → fk_value_ok w0 table hc col fk v)).

(** The invariant of the loop over the columns: [l] is the row under
    construction, [w0] the state in which row generation started. *)
Definition row_inv (w0 : World) (ids : option (list Value)) (table : string)
    (hc : bool) (columns : list Column) (l : nat) (w : World) : Prop :=
  inserted_data w = inserted_data w0 ∧
  (∀ r, stored w0 r → heap w !! r = heap w0 !! r) ∧
  _sync_source_ids w = ids ∧
  ¬ stored w0 l ∧
  ∀ name v, dict_get (default [] (heap w !! l)) name = Some v →
            entry_ok w0 ids table hc columns name v.

(** The failed-table set loses no table. *)
Definition failed_grows (w w' : World) : Prop :=
  failed_tables w ⊆ failed_tables w'.

(** The store is the same at both ends of a run that starts in a
    well-formed state. *)
Definition store_idle (w w' : World) : Prop :=
  wf_store w → wf_store w' ∧ inserted_data w' = inserted_data w.

(** The database accepts every committed statement with a truthy result. *)
Definition accepts_inserts : Prop :=
  ∀ q s, commit q = true →
         ∃ row0 rows s', execute_query q s = (DbResult (Some (row0 :: rows)), s').

(** Every identifier read returns, and a row it returns has an ['id']. *)
Definition id_reads_well_formed : Prop :=
  ∀ s, ∃ result s',
    execute_query last_id_statement s = (DbResult result, s') ∧
    match result with
    | Some (row0 :: _) => is_Some (dict_get row0 "id")
    | _ => True
    end.

(** No column of the list is a foreign key of [table]. *)
Definition no_foreign_key (table : string) (columns : list Column) : Prop :=
  ∀ col, col ∈ columns → find_foreign_key table (column_name col) = None.

(** The table that a log entry reports as being attempted by
    [_populate_table] (lines 106 and 110), if it is such an entry. *)
Definition attempt_of (e : Level * LogMsg) : option string :=
  match e.2 with
  | MsgPopulating table | MsgTableNotFound table => Some table
  | _ => None
  end.

(** The tables attempted according to a piece of log, in order. *)
Definition attempts (entries : list (Level * LogMsg)) : list string :=
  omap attempt_of entries.

(** A message that is not written on entry to [_populate_table]. *)
Definition no_attempt (msg : LogMsg) : Prop :=
  match msg with
  | MsgPopulating _ | MsgTableNotFound _ => False
  | _ => True
  end.

(** The probe of line 189-190. *)
Definition sync_source_probe : Query :=
  {| sql := "SELECT ID FROM SyncSource LIMIT 1"; params := None; commit := false |}.

(** The cached pool of SyncSource identifiers is left as it is. *)
Definition pool_same (w w' : World) : Prop :=
  _sync_source_ids w' = _sync_source_ids w.

(** An outcome that an [except Error] clause lets through as a value or
    catches: a result or a database error. *)
Definition caught {A} (o : Outcome A) : Prop :=
  match o with
  | Ret _ | Raise (MySQLError _) => True
  | Raise _ => False
  end.

(** A row returned by an identifier read has an ['id']. *)
Definition id_reads_keyed : Prop :=
  ∀ s result s',
    execute_query last_id_statement s = (DbResult result, s') →
    match result with
    | Some (row0 :: _) => is_Some (dict_get row0 "id")
    | _ => True
    end.

(** A table known to the schema, other than [SyncSource_LogAlert] and
    without foreign-key column. *)
Definition plain_table (table : string) : Prop :=
  ∃ columns, table_columns schema !! table = Some columns ∧
             table ≠ "SyncSource_LogAlert" ∧ no_foreign_key table columns.

(** Nothing but the log differs between the two states: store, rows,
    failed-table set, cached pool, database, synthesizer and random tape
    are the same. *)
Definition only_logs (w w' : World) : Prop :=
  inserted_data w' = inserted_data w ∧ failed_tables w' = failed_tables w ∧
  _sync_source_ids w' = _sync_source_ids w ∧ heap w' = heap w ∧
  db w' = db w ∧ gen w' = gen w ∧ rng w' = rng w.

(** [v] is a truthy identifier that the database returns to some
    identifier read. *)
Definition id_read (v : Value) : Prop :=
  ∃ s row0 rows s',
    execute_query last_id_statement s = (DbResult (Some (row0 :: rows)), s') ∧
    dict_get row0 "id" = Some v ∧ truthy v = true.

(** Every identifier read returns a row with a truthy ['id']. *)
Definition id_reads_truthy : Prop :=
  ∀ s, ∃ row0 rows s' v,
    execute_query last_id_statement s = (DbResult (Some (row0 :: rows)), s') ∧
    dict_get row0 "id" = Some v ∧ truthy v = true.

(** * Reasoning about runs *)

(** ** Relations preserved along runs *)

Section Preserves.
Context (R : relation World) `{!PreOrder R}.

Lemma preserves_ret {A} (a : A) : preserves R (mret a).
Proof. intros w. reflexivity. Qed.

Lemma preserves_raise {A} e : preserves R (@raise A e).
Proof. intros w. reflexivity. Qed.

Lemma preserves_gets {A} (f : World → A) : preserves R (gets f).
Proof. intros w. reflexivity. Qed.

Lemma preserves_bind {A B} (m : M A) (k : A → M B) :
  preserves R m → (∀ a, preserves R (k a)) → preserves R (m ≫= k).
Proof.
  intros Hm Hk w. specialize (Hm w).
  unfold mbind, M_bind, bind. destruct (m w) as [[a|e] w']; simpl in *.
  - etransitivity; [exact Hm | apply Hk].
  - exact Hm.
Qed.

Lemma preserves_try {A} (body : M A) handler :
  preserves R body → (∀ e, preserves R (handler e)) →
  preserves R (try_except_Error body handler).
Proof.
  intros Hb Hh w. specialize (Hb w).
  unfold try_except_Error. destruct (body w) as [[a|[]] w']; simpl in *; try exact Hb.
  etransitivity; [exact Hb | apply Hh].
Qed.

Lemma preserves_for_each {A} (l : list A) (body : A → M unit) :
  (∀ x, preserves R (body x)) → preserves R (for_each l body).
Proof.
  intros Hb. induction l as [|x l IH]; simpl.
  - apply preserves_ret.
  - apply preserves_bind; auto.
Qed.

Lemma preserves_map_m {A B} (f : A → M B) (l : list A) :
  (∀ x, preserves R (f x)) → preserves R (map_m f l).
Proof.
  intros Hf. induction l as [|x l IH]; simpl.
  - apply preserves_ret.
  - apply preserves_bind; [auto | intros y].
    apply preserves_bind; [auto | intros ys]. apply preserves_ret.
Qed.
End Preserves.

(** ** The frame: steps that leave rows, store and failed set alone *)

#[local] Instance log_ext_preorder P : PreOrder (log_ext P).
Proof.
  split.
  - intros w. exists []. by rewrite app_nil_r.
  - intros w1 w2 w3 (ex1 & E1 & F1) (ex2 & E2 & F2).
    exists (ex1 ++ ex2). split; [by rewrite E2, E1, app_assoc | by apply Forall_app].
Qed.

#[local] Instance frame_preorder : PreOrder frame.
Proof.
  split.
  - intros w. repeat split; reflexivity.
  - intros w1 w2 w3 (H1 & I1 & F1 & L1) (H2 & I2 & F2 & L2).
    repeat split; try congruence. by etransitivity.
Qed.

Lemma log_ext_weaken (P P' : LogMsg → Prop) w w' :
  (∀ msg, P msg → P' msg) → log_ext P w w' → log_ext P' w w'.
Proof.
  intros HP (ex & E & F). exists ex. split; [done |].
  eapply Forall_impl; [exact F | simpl; auto].
Qed.

Lemma frame_same_rows w w' :
  heap w' = heap w → inserted_data w' = inserted_data w →
  failed_tables w' = failed_tables w → log w' = log w → frame w w'.
Proof.
  intros Hh Hi Hf Hl. repeat split; try done. exists []. by rewrite app_nil_r.
Qed.

Lemma frame_logging lvl msg : quiet msg = true → preserves frame (logging lvl msg).
Proof.
  intros Hq w. repeat split; try done.
  exists [(lvl, msg)]. split; [done | by constructor].
Qed.

Lemma frame_draw : preserves frame draw.
Proof. intros w. unfold draw. destruct (rng w); by apply frame_same_rows. Qed.

Lemma frame_db_execute_query q ps c : preserves frame (db_execute_query q ps c).
Proof.
  intros w. unfold db_execute_query.
  destruct (execute_query _ _) as [[e|r] s]; by apply frame_same_rows.
Qed.

Lemma frame_data_gen col t : preserves frame (data_gen_generate_value col t).
Proof.
  intros w. unfold data_gen_generate_value.
  destruct (generate_value _ _ _) as [v g]. by apply frame_same_rows.
Qed.

Lemma frame_row_getitem d k : preserves frame (row_getitem d k).
Proof. intros w. unfold row_getitem. destruct (dict_get d k); by apply frame_same_rows. Qed.

Lemma frame_set_sync ids : preserves frame (modify (upd_sync_source_ids ids)).
Proof. intros w. by apply frame_same_rows. Qed.

Create HintDb pres discriminated.

#[local] Hint Resolve frame_logging frame_draw frame_db_execute_query frame_data_gen
  frame_row_getitem frame_set_sync : pres.

(** Symbolic execution of the control structure; the leaves are closed
    by the hints of [pres]. *)
Ltac pres_step :=
  first
    [ simple apply preserves_ret; apply _
    | simple apply preserves_raise; apply _
    | simple apply preserves_gets; apply _
    | solve [eauto 4 with pres]
    | simple apply preserves_bind; [apply _ | | intros ?]
    | simple apply preserves_try; [apply _ | | intros ?]
    | simple apply preserves_for_each; [apply _ | intros ?]
    | simple apply preserves_map_m; [apply _ | intros ?]
    | match goal with
      | |- preserves _ (if ?b then _ else _) => destruct b
      | |- preserves _ (match ?x with _ => _ end) => destruct x
      end ].

Ltac pres := repeat pres_step.

Lemma frame_randbelow n : preserves frame (randbelow n).
Proof. unfold randbelow. pres. Qed.

Lemma frame_randint a b : preserves frame (randint a b).
Proof. unfold randint. pres. Qed.

#[local] Hint Resolve frame_randbelow frame_randint : pres.

Lemma frame_choice {A} (seq : list A) : preserves frame (choice seq).
Proof. unfold choice. destruct seq; pres. Qed.

Lemma frame_shuffle {A} (x : list A) : preserves frame (shuffle x).
Proof.
  unfold shuffle. generalize (length x - 1)%nat as i. intros i. revert x.
  induction i as [|i IH]; intros x; simpl; pres; apply IH.
Qed.

Lemma frame_dict_getitem l k : preserves frame (dict_getitem l k).
Proof. unfold dict_getitem. pres. Qed.

#[local] Hint Resolve frame_choice frame_shuffle frame_dict_getitem : pres.

Lemma frame_generate_placeholder_value col :
  preserves frame (_generate_placeholder_value col).
Proof. unfold _generate_placeholder_value. pres. Qed.

Lemma frame_prepare_insert_query table names :
  preserves frame (prepare_insert_query table names).
Proof. unfold prepare_insert_query. pres. Qed.

Lemma frame_refresh_sync_source_ids table :
  preserves frame (refresh_sync_source_ids table).
Proof. unfold refresh_sync_source_ids. pres. Qed.

#[local] Hint Resolve frame_generate_placeholder_value frame_prepare_insert_query
  frame_refresh_sync_source_ids : pres.

(** ** Lifting a relation through the populator

    A pre-order that contains [frame] is preserved by every primitive
    that touches neither rows, store nor failed set.  What it does on the
    remaining primitives is asked for where it is needed. *)
Section Lift.
Context (R : relation World) `{!PreOrder R}.
Hypothesis frame_R : ∀ w w', frame w w' → R w w'.

Lemma lift_frame {A} (m : M A) : preserves frame m → preserves R m.
Proof. intros H w. apply frame_R, H. Qed.

#[local] Hint Resolve lift_frame : pres.

Section Row.
Variable row_data : nat.
Hypothesis R_setitem : ∀ k v, preserves R (dict_setitem row_data k v).

#[local] Hint Resolve R_setitem : pres.

Lemma fill_placeholder_preserves table col rtable rcolumn :
  preserves R (fill_placeholder table row_data col rtable rcolumn).
Proof. unfold fill_placeholder. pres. Qed.

#[local] Hint Resolve fill_placeholder_preserves : pres.

Lemma resolve_foreign_key_preserves table hc col rtable rcolumn nullable :
  preserves R (resolve_foreign_key table hc row_data col rtable rcolumn nullable).
Proof. unfold resolve_foreign_key, resolve_without_rows. pres. Qed.

#[local] Hint Resolve resolve_foreign_key_preserves : pres.

Lemma process_column_preserves table hc col :
  preserves R (process_column table hc row_data col).
Proof. unfold process_column, process_plain_column. pres. Qed.

Lemma backfill_column_preserves col :
  preserves R (backfill_column row_data col).
Proof. unfold backfill_column. pres. Qed.
End Row.

Section Rows.
Hypothesis R_new_dict : preserves R new_dict.
Hypothesis R_setitem : ∀ l k v, preserves R (dict_setitem l k v).
Hypothesis R_append : ∀ t l, preserves R (store_append t l).

#[local] Hint Resolve R_new_dict R_append process_column_preserves
  backfill_column_preserves : pres.

Lemma generate_row_data_preserves table columns hc :
  preserves R (_generate_row_data table columns hc).
Proof. unfold _generate_row_data. pres. Qed.

#[local] Hint Resolve generate_row_data_preserves : pres.

Lemma insert_row_preserves table columns hc q :
  preserves R (insert_row table columns hc q).
Proof. unfold insert_row. pres. Qed.
End Rows.

Hypothesis R_insert_row : ∀ t c h q, preserves R (insert_row t c h q).
#[local] Hint Resolve R_insert_row : pres.

Lemma insert_rows_preserves table columns hc q n s :
  preserves R (insert_rows table columns hc q n s).
Proof. revert s. induction n as [|n IH]; intros s; simpl; pres; apply IH. Qed.

Lemma partial_attempts_preserves table columns q n a :
  preserves R (partial_attempts table columns q n a).
Proof. revert a. induction n as [|n IH]; intros a; simpl; pres; apply IH. Qed.

Hypothesis R_failed : ∀ f, preserves R (modify (upd_failed_tables f)).
#[local] Hint Resolve R_failed insert_rows_preserves partial_attempts_preserves : pres.

Lemma populate_table_preserves table hc : preserves R (_populate_table table hc).
Proof. unfold _populate_table. pres. Qed.

Lemma try_partial_population_preserves table :
  preserves R (_try_partial_population table).
Proof. unfold _try_partial_population. pres. Qed.

#[local] Hint Resolve populate_table_preserves try_partial_population_preserves : pres.

Lemma retry_tables_preserves tables acc : preserves R (retry_tables tables acc).
Proof. revert acc. induction tables as [|t ts IH]; intros acc; simpl; pres; apply IH. Qed.

Lemma partial_pass_preserves tables rem : preserves R (partial_pass tables rem).
Proof. revert rem. induction tables as [|t ts IH]; intros rem; simpl; pres; apply IH. Qed.

Lemma first_pass_preserves ordered circular : preserves R (first_pass ordered circular).
Proof. unfold first_pass. pres. Qed.

Lemma circular_pass_preserves ordered circular :
  preserves R (circular_pass ordered circular).
Proof. unfold circular_pass. pres. Qed.

Lemma order_tables_preserves ordered : preserves R (order_tables ordered).
Proof. unfold order_tables. pres. Qed.

Lemma final_check_preserves : preserves R final_check.
Proof. unfold final_check. pres. Qed.

#[local] Hint Resolve retry_tables_preserves partial_pass_preserves
  first_pass_preserves circular_pass_preserves order_tables_preserves
  final_check_preserves : pres.

(** The repair engine also logs its own two messages. *)
Hypothesis R_logging : ∀ lvl msg, preserves R (logging lvl msg).
#[local] Hint Resolve R_logging : pres.

Lemma repair_iteration_preserves rc rem : preserves R (repair_iteration rc rem).
Proof. unfold repair_iteration. pres. Qed.

#[local] Hint Resolve repair_iteration_preserves : pres.

Lemma repair_loop_preserves rc rem : preserves R (repair_loop rc rem).
Proof.
  funelim (repair_loop rc rem); pres.
  match goal with
  | IH : ∀ _ : gset string, World → preserves _ _ |- _ => intros w; exact (IH _ w w)
  end.
Qed.

#[local] Hint Resolve repair_loop_preserves : pres.

Lemma handle_failed_tables_preserves : preserves R _handle_failed_tables.
Proof. unfold _handle_failed_tables. pres. Qed.

#[local] Hint Resolve handle_failed_tables_preserves : pres.

Lemma second_pass_preserves ordered circular :
  preserves R (second_pass ordered circular).
Proof. unfold second_pass, check_failed_tables. pres. Qed.

#[local] Hint Resolve second_pass_preserves : pres.

Lemma populate_database_preserves : preserves R populate_database.
Proof.
  unfold populate_database. destruct (get_table_insertion_order schema). pres.
Qed.
End Lift.

(** * Table ordering *)

Example move_sentinels_ex :
  move_sentinels ["a"; "SyncSource_LogAlert"; "b"; "SyncSource"; "c"]
  = ["SyncSource"; "a"; "b"; "c"; "SyncSource_LogAlert"].
Proof. vm_compute. reflexivity. Qed.

Lemma move_sentinels_others (l : list string) :
  filter (λ t, ¬ is_sentinel t) (move_sentinels l) = filter (λ t, ¬ is_sentinel t) l.
Proof.
  unfold move_sentinels. simpl.
  rewrite filter_cons_False by (intros H; apply H; unfold is_sentinel; set_solver).
  rewrite filter_app, (filter_cons_False _ "SyncSource_LogAlert")
    by (intros H; apply H; unfold is_sentinel; set_solver).
  rewrite filter_nil, app_nil_r, list_filter_filter.
  apply list_filter_iff. intros t. unfold is_sentinel. tauto.
Qed.

(** The ordering step alone: with both sentinel tables the result starts
    with [SyncSource], ends with [SyncSource_LogAlert], and the other
    tables keep their relative order; when a sentinel is missing, the
    order is returned as it is (and nothing is logged). *)
Lemma order_tables_sentinels (ordered_tables : list string) (w : World) :
  ∃ l' w',
    order_tables ordered_tables w = (Ret l', w') ∧
    (sentinels_present ordered_tables →
       head l' = Some "SyncSource" ∧
       last l' = Some "SyncSource_LogAlert" ∧
       filter (λ t, ¬ is_sentinel t) l' = filter (λ t, ¬ is_sentinel t) ordered_tables ∧
       l' = "SyncSource" :: filter (λ t, ¬ is_sentinel t) ordered_tables
              ++ ["SyncSource_LogAlert"]) ∧
    (¬ sentinels_present ordered_tables → l' = ordered_tables ∧ w' = w).
Proof.
  unfold order_tables. destruct (decide (sentinels_present ordered_tables)) as [Hs|Hs].
  - eexists _, _. split; [reflexivity |]. split; [intros _ | tauto].
    split; [done |]. split; [| split].
    + unfold move_sentinels. by rewrite last_snoc.
    + apply move_sentinels_others.
    + reflexivity.
  - eexists _, _. split; [reflexivity |]. split; [tauto | done].
Qed.

(** * Placeholder synthesis *)

Example lower_int : lower "BigInt" = "bigint".
Proof. reflexivity. Qed.

Lemma randint_range a b w :
  a ≤ b → ∃ n w', randint a b w = (Ret n, w') ∧ a ≤ n ≤ b.
Proof.
  intros Hab. unfold randint, draw, mbind, M_bind, bind.
  destruct (rng w) as [|k tape]; eexists _, _; (split; [reflexivity |]).
  - simpl. rewrite Z.mod_0_l by lia. lia.
  - pose proof (Z.mod_pos_bound (Z.of_nat k) (b - a + 1) ltac:(lia)). lia.
Qed.

Lemma families_disjoint s : s ∈ string_family → s ∉ integer_family.
Proof.
  unfold string_family, integer_family. intros Hs Hi.
  repeat (apply elem_of_cons in Hs as [->|Hs]);
    try (by apply elem_of_nil in Hs);
    repeat (apply elem_of_cons in Hi as [Hi|Hi]; [discriminate |]);
    by apply elem_of_nil in Hi.
Qed.

Lemma placeholder_integer col w :
  column_key col = "PRI" → lower (data_type col) ∈ integer_family →
  ∃ n w', _generate_placeholder_value col w = (Ret (VInt n), w') ∧
          1000000 ≤ n ≤ 9999999.
Proof.
  intros Hk Ht. unfold _generate_placeholder_value.
  rewrite decide_True by done. rewrite decide_True by done.
  destruct (randint_range 1000000 9999999 w ltac:(lia)) as (n & w' & E & Hn).
  exists n, w'. split; [| done].
  unfold mbind, M_bind, bind. by rewrite E.
Qed.

Lemma randint_draw a b w :
  ∃ k w1, draw w = (Ret k, w1) ∧
          (∀ k0 tape, rng w = k0 :: tape → k = k0 ∧ w1 = upd_rng tape w) ∧
          randint a b w = (Ret (a + Z.of_nat k mod (b - a + 1)), w1).
Proof.
  unfold randint, draw, mbind, M_bind, bind.
  destruct (rng w) as [|k tape]; eexists _, _; (split; [reflexivity |]);
    (split; [| reflexivity]); [done |].
  by intros k0 tape0 [= <- <-].
Qed.

(** C8. [_generate_placeholder_value] makes one draw [k] from the random
    source (the head of the tape, which it consumes).  On a primary-key
    column of an integer type it returns the integer
    [1000000 + k mod 9000000], which lies between 1000000 and 9999999; on
    a primary-key column of a string type it returns ["temp-"] followed by
    the decimal digits of [100000 + k mod 900000], a number between 100000
    and 999999; in both cases the state changes by the draw only.  On a
    column that is not a primary key, or whose type is in neither family,
    it returns what the value synthesizer returns for that column (with
    no table name). *)
Theorem generate_placeholder_value_spec (col : Column) (w : World) :
  ∃ k w1,
    draw w = (Ret k, w1) ∧
    (∀ k0 tape, rng w = k0 :: tape → k = k0 ∧ w1 = upd_rng tape w) ∧
    (column_key col = "PRI" → lower (data_type col) ∈ integer_family →
       _generate_placeholder_value col w
       = (Ret (VInt (1000000 + Z.of_nat k mod 9000000)), w1) ∧
       1000000 ≤ 1000000 + Z.of_nat k mod 9000000 ≤ 9999999) ∧
    (column_key col = "PRI" → lower (data_type col) ∈ string_family →
       _generate_placeholder_value col w
       = (Ret (VStr ("temp-" +:+ pretty (100000 + Z.of_nat k mod 900000))), w1) ∧
       100000 ≤ 100000 + Z.of_nat k mod 900000 ≤ 999999) ∧
    (column_key col ≠ "PRI" ∨
     ((lower (data_type col) ∉ integer_family) ∧
      (lower (data_type col) ∉ string_family)) →
       _generate_placeholder_value col w = data_gen_generate_value col None w).
Proof.
  destruct (randint_draw 1000000 9999999 w) as (k & w1 & Ed & Htape & Ei).
  destruct (randint_draw 100000 999999 w) as (k' & w1' & Ed' & _ & Es).
  rewrite Ed in Ed'. injection Ed' as <- <-.
  exists k, w1. split; [done |]. split; [done |]. split; [| split].
  - intros Hk Ht. split.
    + unfold _generate_placeholder_value.
      rewrite decide_True by done. rewrite decide_True by done.
      unfold mbind, M_bind, bind. by rewrite Ei.
    + pose proof (Z.mod_pos_bound (Z.of_nat k) 9000000 ltac:(lia)). lia.
  - intros Hk Ht. split.
    + unfold _generate_placeholder_value.
      rewrite decide_True by done.
      rewrite decide_False by by apply families_disjoint.
      rewrite decide_True by done.
      unfold mbind, M_bind, bind. by rewrite Es.
    + pose proof (Z.mod_pos_bound (Z.of_nat k) 900000 ltac:(lia)). lia.
  - intros [Hk | [Hi Hs]]; unfold _generate_placeholder_value.
    + by rewrite decide_False.
    + destruct (decide (column_key col = "PRI")); [| done].
      rewrite decide_False by done. by rewrite decide_False.
Qed.

(** * The per-table row store *)

Lemma stored_grows w w' l : grows w w' → stored w l → stored w' l.
Proof.
  intros [Hp _] [t Ht]. exists t. eapply elem_of_prefix; [exact Ht | apply Hp].
Qed.

Lemma grows_refl w : grows w w.
Proof. split; [intros t; reflexivity | done]. Qed.

Lemma grows_trans w1 w2 w3 : grows w1 w2 → grows w2 w3 → grows w1 w3.
Proof.
  intros H12 H23. split.
  - intros t. etransitivity; [apply H12 | apply H23].
  - intros l Hl. pose proof (stored_grows _ _ _ H12 Hl) as Hl2.
    destruct H12 as [_ Hh12], H23 as [_ Hh23].
    rewrite Hh23 by done. by apply Hh12.
Qed.

#[local] Instance rows_ok_preorder : PreOrder rows_ok.
Proof.
  split.
  - intros w Hw. split; [done | apply grows_refl].
  - intros w1 w2 w3 H12 H23 Hw.
    destruct (H12 Hw) as [Hw2 G12]. destruct (H23 Hw2) as [Hw3 G23].
    split; [done | by eapply grows_trans].
Qed.

#[local] Instance rows_ok_at_preorder l : PreOrder (rows_ok_at l).
Proof.
  split.
  - intros w Hw. split; [done | apply grows_refl].
  - intros w1 w2 w3 H12 H23 Hw.
    destruct (H12 Hw) as [Hw2 G12]. destruct (H23 Hw2) as [Hw3 G23].
    split; [done | by eapply grows_trans].
Qed.

#[local] Instance store_same_preorder : PreOrder store_same.
Proof. unfold store_same. split; [done | intros w1 w2 w3; congruence]. Qed.

#[local] Instance failed_same_preorder : PreOrder failed_same.
Proof. unfold failed_same. split; [done | intros w1 w2 w3; congruence]. Qed.

(** A step that changes neither rows nor store. *)
Lemma same_rows_facts w w' :
  heap w' = heap w → inserted_data w' = inserted_data w →
  (∀ l, stored w' l ↔ stored w l) ∧ (wf_store w → wf_store w') ∧
  (∀ l, pending l w → pending l w') ∧ grows w w'.
Proof.
  intros Hh Hi.
  assert (Hs : ∀ l, stored w' l ↔ stored w l) by (intros l; unfold stored; by rewrite Hi).
  split; [done |]. split; [| split].
  - intros Hw l Hl. rewrite Hh. by apply Hw, Hs.
  - intros l [Hlt Hns]. split; [by rewrite Hh | by rewrite Hs].
  - split; [intros t; by rewrite Hi | intros l _; by rewrite Hh].
Qed.

Lemma frame_rows_ok w w' : frame w w' → rows_ok w w'.
Proof.
  intros (Hh & Hi & _) Hw. destruct (same_rows_facts w w' Hh Hi) as (_ & Hwf & _ & G).
  auto.
Qed.

Lemma frame_rows_ok_at l w w' : frame w w' → rows_ok_at l w w'.
Proof.
  intros (Hh & Hi & _) [Hw Hp].
  destruct (same_rows_facts w w' Hh Hi) as (_ & Hwf & Hpe & G). auto.
Qed.

Lemma frame_store_same w w' : frame w w' → store_same w w'.
Proof. by intros (_ & Hi & _). Qed.

Lemma frame_failed_same w w' : frame w w' → failed_same w w'.
Proof. by intros (_ & _ & Hf & _). Qed.

(** [row_data[k] = v] on a row under construction. *)
Lemma dict_setitem_rows_ok_at l k v : preserves (rows_ok_at l) (dict_setitem l k v).
Proof.
  intros w [Hw [Hlt Hns]]. simpl.
  assert (Hs : ∀ l', stored (upd_heap (alter (λ d, dict_set d k v) l) w) l' ↔ stored w l')
    by done.
  split; [split; [| split] | split].
  - intros l' Hl'. simpl. rewrite length_alter. by apply Hw, Hs.
  - simpl. by rewrite length_alter.
  - by rewrite Hs.
  - intros t. reflexivity.
  - intros l' Hl'. simpl. apply list_lookup_alter_ne. by intros ->.
Qed.

(** [row_data = {}]: the new address is pending. *)
Lemma new_dict_rows w :
  wf_store w →
  let w1 := (new_dict w).2 in
  new_dict w = (Ret (length (heap w)), w1) ∧
  wf_store w1 ∧ pending (length (heap w)) w1 ∧ grows w w1 ∧
  inserted_data w1 = inserted_data w ∧ length (heap w1) = S (length (heap w)).
Proof.
  intros Hw. simpl. split; [done |].
  assert (Hs : ∀ l', stored (upd_heap (λ h, h ++ [[]]) w) l' ↔ stored w l') by done.
  split; [| split; [split | split; [split | split]]].
  - intros l Hl. simpl. rewrite length_app. simpl. apply Hs, Hw in Hl. lia.
  - simpl. rewrite length_app. simpl. lia.
  - rewrite Hs. intros Hl. apply Hw in Hl. lia.
  - intros t. reflexivity.
  - intros l Hl. simpl. apply lookup_app_l. by apply Hw.
  - done.
  - simpl. rewrite length_app. simpl. lia.
Qed.

(** [self.inserted_data[table].append(row_data)]: a pending row enters
    the store. *)
Lemma store_append_rows table l w :
  wf_store w → pending l w →
  let w' := (store_append table l w).2 in
  wf_store w' ∧ grows w w' ∧ heap w' = heap w ∧
  inserted_data w' = <[table := (inserted_data w !!! table) ++ [l]]> (inserted_data w).
Proof.
  intros Hw [Hlt Hns]. simpl. split; [| split; [split |]]; [| | | done].
  - intros l' [t Ht]. simpl in *. destruct (decide (table = t)) as [->|Hne].
    + rewrite lookup_total_insert_eq in Ht. apply elem_of_app in Ht as [Ht|Ht].
      * apply Hw. by exists t.
      * apply list_elem_of_singleton in Ht as ->. done.
    + rewrite lookup_total_insert_ne in Ht by done. apply Hw. by exists t.
  - intros t. simpl. destruct (decide (table = t)) as [->|Hne].
    + rewrite lookup_total_insert_eq. by apply prefix_app_r.
    + by rewrite lookup_total_insert_ne.
  - done.
Qed.

#[local] Hint Extern 1 (PreOrder _) => apply _ : pres.
#[local] Hint Resolve lift_frame frame_rows_ok frame_rows_ok_at frame_store_same
  frame_failed_same dict_setitem_rows_ok_at : pres.

Lemma preserved_run (R : relation World) {A} (m : M A) w o w' :
  preserves R m → m w = (o, w') → R w w'.
Proof. intros H E. specialize (H w). by rewrite E in H. Qed.

Lemma bind_run {A B} (m : M A) (k : A → M B) w o w' :
  (m ≫= k) w = (o, w') →
  (∃ e, m w = (Raise e, w') ∧ o = Raise e) ∨
  (∃ a w1, m w = (Ret a, w1) ∧ k a w1 = (o, w')).
Proof.
  unfold mbind, M_bind, bind. destruct (m w) as [[a|e] w1]; intros E.
  - right. by exists a, w1.
  - left. exists e. by inversion E.
Qed.

(** Updates of rows and store leave the failed set alone, updates of rows
    leave the store alone. *)
Lemma new_dict_store_same : preserves store_same new_dict.
Proof. by intros w. Qed.

Lemma dict_setitem_store_same l k v : preserves store_same (dict_setitem l k v).
Proof. by intros w. Qed.

Lemma new_dict_failed_same : preserves failed_same new_dict.
Proof. by intros w. Qed.

Lemma dict_setitem_failed_same l k v : preserves failed_same (dict_setitem l k v).
Proof. by intros w. Qed.

Lemma store_append_failed_same t l : preserves failed_same (store_append t l).
Proof. by intros w. Qed.

#[local] Hint Resolve new_dict_store_same dict_setitem_store_same new_dict_failed_same
  dict_setitem_failed_same store_append_failed_same : pres.

Lemma generate_row_data_fill table columns hc w :
  _generate_row_data table columns hc w
  = fill_row table columns hc (length (heap w)) (new_dict w).2.
Proof. reflexivity. Qed.

Lemma fill_row_value table columns hc l w l' w' :
  fill_row table columns hc l w = (Ret l', w') → l' = l.
Proof.
  unfold fill_row. intros E.
  apply bind_run in E as [(e & _ & [=]) | (_ & w1 & _ & E)].
  apply bind_run in E as [(e & _ & [=]) | (_ & w2 & _ & E)].
  by inversion E.
Qed.

Lemma fill_row_rows_ok_at table columns hc l :
  preserves (rows_ok_at l) (fill_row table columns hc l).
Proof.
  unfold fill_row. pres. apply process_column_preserves; eauto with pres.
Qed.

Lemma backfill_rows_ok_at columns l :
  preserves (rows_ok_at l) (for_each columns (backfill_column l)).
Proof. pres. apply backfill_column_preserves; eauto with pres. Qed.

Lemma generate_row_data_store_same table columns hc :
  preserves store_same (_generate_row_data table columns hc).
Proof. apply generate_row_data_preserves; eauto with pres. Qed.

Lemma backfill_store_same columns l :
  preserves store_same (for_each columns (backfill_column l)).
Proof. pres. apply backfill_column_preserves; eauto with pres. Qed.

Lemma generate_row_data_rows table columns hc w o w' :
  wf_store w → _generate_row_data table columns hc w = (o, w') →
  wf_store w' ∧ grows w w' ∧ inserted_data w' = inserted_data w ∧
  ∀ l, o = Ret l → l = length (heap w) ∧ pending l w'.
Proof.
  intros Hw E.
  pose proof (preserved_run _ _ _ _ _ (generate_row_data_store_same _ _ _) E) as Hi.
  rewrite generate_row_data_fill in E.
  destruct (new_dict_rows w Hw) as (_ & Hw1 & Hp1 & G1 & _).
  pose proof (preserved_run _ _ _ _ _ (fill_row_rows_ok_at _ _ _ _) E) as Hr.
  destruct (Hr (conj Hw1 Hp1)) as [[Hw' Hp'] G'].
  split; [done |]. split; [by eapply grows_trans |]. split; [done |].
  intros l ->. apply fill_row_value in E as ->. done.
Qed.

(** What one run of the [try] body does to the store: either the store is
    as before and the result is not [True], or the insert of the generated
    row came back truthy and exactly that row was appended to the table. *)
Lemma insert_row_run table columns hc q w o w' :
  wf_store w → insert_row table columns hc q w = (o, w') →
  wf_store w' ∧ grows w w' ∧
  ((o ≠ Ret true ∧ inserted_data w' = inserted_data w) ∨
   (o = Ret true ∧ ∃ l w1 result s w3,
      _generate_row_data table columns hc w = (Ret l, w1) ∧
      execute_query (insert_statement q w1 l) (db w1) = (DbResult result, s) ∧
      result_truthy result = true ∧
      pending l w1 ∧
      for_each columns (backfill_column l) (upd_db s w1) = (Ret tt, w3) ∧
      w' = (store_append table l w3).2 ∧
      inserted_data w' = <[table := (inserted_data w !!! table) ++ [l]]> (inserted_data w))).
Proof.
  intros Hw E. unfold insert_row in E.
  apply bind_run in E as [(e & Eg & ->) | (l & w1 & Eg & E)].
  { destruct (generate_row_data_rows _ _ _ _ _ _ Hw Eg) as (Hw' & G & Hi & _).
    split; [done |]. split; [done |]. by left. }
  destruct (generate_row_data_rows _ _ _ _ _ _ Hw Eg) as (Hw1 & G1 & Hi1 & Hl).
  destruct (Hl l eq_refl) as [_ Hp1]. clear Hl.
  apply bind_run in E as [(e & [=] & _) | (d & w1' & [= <- <-] & E)].
  apply bind_run in E as [(e & Ed & ->) | (result & w2 & Ed & E)];
    unfold db_execute_query in Ed; fold (insert_statement q w1 l) in Ed;
    destruct (execute_query (insert_statement q w1 l) (db w1)) as [[msg|r] s] eqn:Eq;
    try discriminate; injection Ed as <- <-.
  { destruct (same_rows_facts w1 (upd_db s w1) eq_refl eq_refl) as (_ & Hwf & _ & G).
    split; [auto |]. split; [by eapply grows_trans |]. by left. }
  destruct (same_rows_facts w1 (upd_db s w1) eq_refl eq_refl) as (_ & Hwf & Hpe & G2).
  destruct (result_truthy r) eqn:Et.
  2:{ injection E as <- <-. split; [auto |]. split; [by eapply grows_trans |]. by left. }
  apply bind_run in E as [(e & Eb & ->) | ([] & w3 & Eb & E)].
  { pose proof (preserved_run _ _ _ _ _ (backfill_rows_ok_at _ _) Eb) as Hr.
    pose proof (preserved_run _ _ _ _ _ (backfill_store_same _ _) Eb) as Hs.
    destruct (Hr (conj (Hwf Hw1) (Hpe _ Hp1))) as [[Hw' _] G3].
    split; [done |]. split; [eauto using grows_trans |].
    left. split; [done |]. unfold store_same in Hs. simpl in Hs. congruence. }
  pose proof (preserved_run _ _ _ _ _ (backfill_rows_ok_at _ _) Eb) as Hr.
  pose proof (preserved_run _ _ _ _ _ (backfill_store_same _ _) Eb) as Hs.
  destruct (Hr (conj (Hwf Hw1) (Hpe _ Hp1))) as [[Hw3 Hp3] G3].
  apply bind_run in E as [(e & [=] & _) | ([] & w4 & [= <-] & E)].
  injection E as <- <-.
  destruct (store_append_rows table l w3 Hw3 Hp3) as (Hw4 & G4 & _ & Hi4).
  unfold store_same in Hs. simpl in Hs.
  split; [done |]. split; [eauto using grows_trans |].
  right. split; [done |]. exists l, w1, r, s, w3.
  repeat split; try done; try apply Hp1. simpl. by rewrite Hs, Hi1.
Qed.

Lemma insert_row_rows_ok table columns hc q :
  preserves rows_ok (insert_row table columns hc q).
Proof.
  intros w Hw. destruct (insert_row table columns hc q w) as [o w'] eqn:E.
  destruct (insert_row_run _ _ _ _ _ _ _ Hw E) as (Hw' & G & _). done.
Qed.

Lemma failed_update_rows_ok f : preserves rows_ok (modify (upd_failed_tables f)).
Proof.
  intros w Hw. destruct (same_rows_facts w (upd_failed_tables f w) eq_refl eq_refl)
    as (_ & Hwf & _ & G). auto.
Qed.

Lemma logging_rows_ok lvl msg : preserves rows_ok (logging lvl msg).
Proof.
  intros w Hw. destruct (same_rows_facts w (logging lvl msg w).2 eq_refl eq_refl)
    as (_ & Hwf & _ & G). auto.
Qed.

#[local] Hint Resolve insert_row_rows_ok failed_update_rows_ok logging_rows_ok : pres.

Lemma populate_table_rows_ok table hc : preserves rows_ok (_populate_table table hc).
Proof. apply populate_table_preserves; eauto with pres. Qed.

Lemma try_partial_population_rows_ok table :
  preserves rows_ok (_try_partial_population table).
Proof. apply try_partial_population_preserves; eauto with pres. Qed.

Lemma handle_failed_tables_rows_ok : preserves rows_ok _handle_failed_tables.
Proof. apply handle_failed_tables_preserves; eauto with pres. Qed.

Lemma populate_database_rows_ok : preserves rows_ok populate_database.
Proof. apply populate_database_preserves; eauto with pres. Qed.


(** * Auto-increment back-fill *)

Lemma backfill_column_skipped l col w :
  falsy_id_read (execute_query last_id_statement (db w)).1 →
  ∃ w', backfill_column l col w = (Ret tt, w') ∧ heap w' = heap w ∧
        inserted_data w' = inserted_data w.
Proof.
  intros Hf. unfold backfill_column.
  destruct (decide (extra col = "auto_increment")); [| by eexists].
  unfold mbind, M_bind, bind, db_execute_query. fold last_id_statement.
  destruct (execute_query last_id_statement (db w)) as [[msg|[[|row0 rows]|]] s];
    simpl in Hf; try done; try by eexists.
  destruct Hf as (v & Hv & Ht). unfold row_getitem. rewrite Hv. simpl. rewrite Ht.
  by eexists.
Qed.

Lemma backfill_all_skipped columns l w :
  (∀ s, falsy_id_read (execute_query last_id_statement s).1) →
  ∃ w', for_each columns (backfill_column l) w = (Ret tt, w') ∧ heap w' = heap w.
Proof.
  intros Hf. revert w. induction columns as [|col columns IH]; intros w; simpl.
  - by eexists.
  - destruct (backfill_column_skipped l col w (Hf _)) as (w1 & E1 & Hh1 & _).
    destruct (IH w1) as (w2 & E2 & Hh2).
    exists w2. unfold mbind, M_bind, bind. rewrite E1, E2. split; [done | congruence].
Qed.

(** C10. When the read of [LAST_INSERT_ID()] after an insert comes back
    falsy (no result, or an id such as 0), the back-fill of the
    auto-increment column does not write to the row; and when every such
    read comes back falsy, the row that an insert appends to the store has,
    in every column, the value that row generation gave it. *)
Theorem backfill_skipped_on_falsy_id :
  (∀ l col w,
     extra col = "auto_increment" →
     falsy_id_read (execute_query last_id_statement (db w)).1 →
     ∃ w', backfill_column l col w = (Ret tt, w') ∧ heap w' = heap w) ∧
  ((∀ s, falsy_id_read (execute_query last_id_statement s).1) →
   ∀ table columns hc q w w',
     wf_store w → insert_row table columns hc q w = (Ret true, w') →
     ∃ l w1,
       _generate_row_data table columns hc w = (Ret l, w1) ∧
       inserted_data w' !!! table = inserted_data w !!! table ++ [l] ∧
       heap w' !! l = heap w1 !! l).
Proof.
  split.
  - intros l col w _ Hf.
    destruct (backfill_column_skipped l col w Hf) as (w' & E & Hh & _). eauto.
  - intros Hf table columns hc q w w' Hw E.
    destruct (insert_row_run _ _ _ _ _ _ _ Hw E)
      as (_ & _ & [[Hne _] | (_ & l & w1 & r & s & w3 & Eg & Eq & Et & Hp & Eb & -> & Hi)]);
      [done |].
    exists l, w1. split; [done |]. split.
    + by rewrite Hi, lookup_total_insert_eq.
    + destruct (backfill_all_skipped columns l (upd_db s w1) Hf) as (w3' & Eb' & Hh).
      rewrite Eb in Eb'. injection Eb' as <-. simpl. by rewrite Hh.
Qed.

(** * Table population *)

Lemma insert_row_failed_same table columns hc q :
  preserves failed_same (insert_row table columns hc q).
Proof. apply insert_row_preserves; eauto with pres. Qed.

#[local] Hint Resolve insert_row_failed_same : pres.

Lemma insert_rows_failed_same table columns hc q n s :
  preserves failed_same (insert_rows table columns hc q n s).
Proof. apply insert_rows_preserves; eauto with pres. Qed.

(** Lines 139-161: one iteration, with its [except Error] clause. *)
Lemma try_insert_run table columns hc q w o w' :
  wf_store w →
  try_except_Error (insert_row table columns hc q)
    (λ e, logging ERROR (MsgInsertError table e);; mret false) w = (o, w') →
  wf_store w' ∧
  ((o = Ret true ∧
    inserted_data w' !!! table = inserted_data w !!! table ++ [length (heap w)]) ∨
   (o ≠ Ret true ∧ inserted_data w' = inserted_data w)).
Proof.
  intros Hw E. unfold try_except_Error in E.
  destruct (insert_row table columns hc q w) as [o1 w1] eqn:E1.
  destruct (insert_row_run _ _ _ _ _ _ _ Hw E1)
    as (Hw1 & _ & [[Hne Hi] | (-> & l & w2 & r & s & w3 & Eg & _ & _ & _ & _ & _ & Hi)]).
  - destruct o1 as [b|[msg| |]]; injection E as <- <-; (split; [done | by right]).
  - injection E as <- <-. split; [done |]. left. split; [done |].
    destruct (generate_row_data_rows _ _ _ _ _ _ Hw Eg) as (_ & _ & _ & Hl).
    destruct (Hl l eq_refl) as [-> _]. by rewrite Hi, lookup_total_insert_eq.
Qed.

Lemma insert_rows_count table columns hc q n s w o w' :
  wf_store w → insert_rows table columns hc q n s w = (o, w') →
  wf_store w' ∧
  (length (inserted_data w !!! table) ≤ length (inserted_data w' !!! table))%nat ∧
  ∀ s', o = Ret s' → s' = s + Z.of_nat (added table w w') ∧ (added table w w' ≤ n)%nat.
Proof.
  unfold added. revert s w. induction n as [|n IH]; intros s w Hw E; simpl in E.
  - injection E as <- <-. split; [done |]. split; [done |].
    intros s' [= <-]. split; lia.
  - apply bind_run in E as [(e & Et & ->) | (ok & w1 & Et & E)].
    + destruct (try_insert_run _ _ _ _ _ _ _ Hw Et) as (Hw' & [[[=] _] | [_ Hi]]).
      rewrite Hi. split; [done |]. split; [done | intros s' [=]].
    + destruct (try_insert_run _ _ _ _ _ _ _ Hw Et) as (Hw1 & Hcase).
      destruct (IH _ _ Hw1 E) as (Hw' & Hle & Hs'). split; [done |].
      destruct Hcase as [[[= ->] Hi] | [Hne Hi]].
      * rewrite Hi, length_app in Hle, Hs'. simpl in *. split; [lia |].
        intros s' ->. destruct (Hs' _ eq_refl) as [-> Hn]. split; lia.
      * rewrite Hi in Hle, Hs'. split; [done |].
        intros s' ->. destruct (Hs' _ eq_refl) as [-> Hn].
        destruct ok; [done |]. split; lia.
Qed.

(** The state in which [_populate_table] starts its loop. *)
Lemma populate_table_prologue table columns w :
  ∃ q w0, (logging INFO (MsgPopulating table);;
           prepare_insert_query table (map column_name columns)) w = (Ret q, w0) ∧
          heap w0 = heap w ∧ inserted_data w0 = inserted_data w ∧
          failed_tables w0 = failed_tables w.
Proof.
  unfold prepare_insert_query, mbind, M_bind, bind. simpl.
  destruct (decide (table = "SyncSource")); by eexists _, _.
Qed.

Lemma populate_table_run table hc columns w b w' :
  table_columns schema !! table = Some columns → wf_store w →
  _populate_table table hc w = (Ret b, w') →
  ∃ successful_inserts,
    successful_inserts = Z.of_nat (added table w w') ∧
    (added table w w' ≤ Z.to_nat num_records)%nat ∧
    (successful_inserts < num_records ∧ successful_inserts = 0 →
       b = false ∧ failed_tables w' = failed_tables w ∪ {[table]}) ∧
    (¬ (successful_inserts < num_records ∧ successful_inserts = 0) →
       b = true ∧ failed_tables w' = failed_tables w).
Proof.
  intros Hc Hw E. unfold _populate_table in E. rewrite Hc in E.
  destruct (populate_table_prologue table columns w) as (q & w0 & E0 & Hh0 & Hi0 & Hf0).
  destruct (same_rows_facts w w0 Hh0 Hi0) as (_ & Hwf & _).
  apply bind_run in E as [(e & _ & [=]) | ([] & w1 & E1 & E)].
  apply bind_run in E as [(e & _ & [=]) | (q' & w2 & E2 & E)].
  assert (q' = q ∧ w2 = w0) as [-> ->].
  { unfold mbind, M_bind, bind in E0. rewrite E1 in E0. rewrite E2 in E0.
    by injection E0 as -> ->. }
  apply bind_run in E as [(e & _ & [=]) | (n & w3 & E3 & E)].
  destruct (insert_rows_count _ _ _ _ _ _ _ _ _ (Hwf Hw) E3) as (Hw3 & Hle & Hn).
  destruct (Hn n eq_refl) as [Hn' Hk]. clear Hn.
  pose proof (preserved_run _ _ _ _ _ (insert_rows_failed_same _ _ _ _ _ _) E3) as Hf3.
  unfold failed_same in Hf3. unfold added in *. rewrite Hi0 in *.
  assert (Hi' : inserted_data w' = inserted_data w3 ∧
                ((n <? num_records) && (n =? 0) = true →
                   b = false ∧ failed_tables w' = failed_tables w3 ∪ {[table]}) ∧
                ((n <? num_records) && (n =? 0) = false →
                   b = true ∧ failed_tables w' = failed_tables w3)).
  { destruct (n <? num_records); simpl.
    - apply bind_run in E as [(e & _ & [=]) | ([] & w4 & [= <-] & E)].
      destruct (n =? 0).
      + apply bind_run in E as [(e & _ & [=]) | ([] & w5 & [= <-] & E)].
        injection E as <- <-. done.
      + injection E as <- <-. done.
    - injection E as <- <-. done. }
  destruct Hi' as (Hi' & Hfail & Hok). rewrite Hi'.
  exists n. split; [lia |]. split; [done |]. rewrite <- Hf0, <- Hf3. split.
  - intros [Hlt Hz]. apply Hfail. apply andb_true_intro. split; lia.
  - intros Hn. apply Hok. apply andb_false_iff.
    destruct (Z.ltb_spec n num_records); [| by left].
    destruct (Z.eqb_spec n 0); [| by right]. exfalso. apply Hn. done.
Qed.

(** [_populate_table] guards against a table that the schema does not
    know: it records the failure and returns. *)
Lemma populate_table_absent table hc w :
  table_columns schema !! table = None →
  ∃ w', _populate_table table hc w = (Ret false, w') ∧
        failed_tables w' = failed_tables w ∪ {[table]} ∧
        inserted_data w' = inserted_data w.
Proof. intros Hc. unfold _populate_table. rewrite Hc. by eexists. Qed.


(** * The repair loop *)

Lemma swap_perm {A} (i j : nat) (x : list A) : swap i j x ≡ₚ x.
Proof.
  unfold swap. destruct (x !! i) as [a|] eqn:Ei; [| done].
  destruct (x !! j) as [b|] eqn:Ej; [| done].
  by apply Permutation_insert_swap.
Qed.

Lemma randbelow_run n w : ∃ k w', randbelow n w = (Ret k, w').
Proof.
  unfold randbelow, draw, mbind, M_bind, bind. destruct (rng w); by eexists _, _.
Qed.

(** [random.shuffle] returns a permutation of its argument. *)
Lemma shuffle_perm {A} (x : list A) w :
  ∃ x' w', shuffle x w = (Ret x', w') ∧ x' ≡ₚ x.
Proof.
  unfold shuffle. generalize (length x - 1)%nat as i. intros i. revert x w.
  induction i as [|i IH]; intros x w; simpl.
  - by exists x, w.
  - destruct (randbelow_run (S (S i)) w) as (j & w1 & Ej).
    destruct (IH (swap (S i) j x) w1) as (x' & w' & E & Hp).
    exists x', w'. unfold mbind, M_bind, bind. rewrite Ej. split; [done |].
    by rewrite Hp, swap_perm.
Qed.

Lemma shuffle_run {A} (x : list A) w o w' :
  shuffle x w = (o, w') → ∃ x', o = Ret x' ∧ x' ≡ₚ x.
Proof.
  intros E. destruct (shuffle_perm x w) as (x' & w'' & E' & Hp).
  rewrite E in E'. injection E' as -> _. by exists x'.
Qed.

Section LogExt.
Variable P : LogMsg → Prop.
Hypothesis quiet_P : ∀ msg, quiet msg = true → P msg.

Lemma frame_log_ext w w' : frame w w' → log_ext P w w'.
Proof. intros (_ & _ & _ & H). eapply log_ext_weaken; [| exact H]. exact quiet_P. Qed.

Lemma same_log_ext w w' : log w' = log w → log_ext P w w'.
Proof. intros H. exists []. by rewrite app_nil_r. Qed.

Lemma new_dict_log_ext : preserves (log_ext P) new_dict.
Proof. intros w. by apply same_log_ext. Qed.

Lemma dict_setitem_log_ext l k v : preserves (log_ext P) (dict_setitem l k v).
Proof. intros w. by apply same_log_ext. Qed.

Lemma store_append_log_ext t l : preserves (log_ext P) (store_append t l).
Proof. intros w. by apply same_log_ext. Qed.

Lemma failed_update_log_ext f : preserves (log_ext P) (modify (upd_failed_tables f)).
Proof. intros w. by apply same_log_ext. Qed.

Lemma logging_log_ext lvl msg : P msg → preserves (log_ext P) (logging lvl msg).
Proof. intros HP w. exists [(lvl, msg)]. split; [done | by constructor]. Qed.

Lemma insert_row_log_ext table columns hc q :
  preserves (log_ext P) (insert_row table columns hc q).
Proof.
  apply insert_row_preserves;
    eauto using frame_log_ext, new_dict_log_ext, dict_setitem_log_ext,
      store_append_log_ext with pres.
Qed.

Lemma populate_table_log_ext table hc :
  preserves (log_ext P) (_populate_table table hc).
Proof.
  apply populate_table_preserves;
    eauto using frame_log_ext, insert_row_log_ext, failed_update_log_ext with pres.
Qed.

Lemma retry_tables_log_ext tables acc :
  preserves (log_ext P) (retry_tables tables acc).
Proof.
  apply retry_tables_preserves;
    eauto using frame_log_ext, insert_row_log_ext, failed_update_log_ext with pres.
Qed.

Lemma partial_pass_log_ext tables rem :
  preserves (log_ext P) (partial_pass tables rem).
Proof.
  apply partial_pass_preserves;
    eauto using frame_log_ext, insert_row_log_ext, failed_update_log_ext with pres.
Qed.

Lemma first_pass_log_ext ordered circular :
  preserves (log_ext P) (first_pass ordered circular).
Proof.
  apply first_pass_preserves;
    eauto using frame_log_ext, insert_row_log_ext, failed_update_log_ext with pres.
Qed.

Lemma circular_pass_log_ext ordered circular :
  preserves (log_ext P) (circular_pass ordered circular).
Proof.
  apply circular_pass_preserves;
    eauto using frame_log_ext, insert_row_log_ext, failed_update_log_ext with pres.
Qed.
End LogExt.

Lemma not_retry_quiet msg : quiet msg = true → is_retry msg = false.
Proof. by destruct msg. Qed.

Lemma retries_app l1 l2 : retries (l1 ++ l2) = (retries l1 + retries l2)%nat.
Proof. unfold retries. by rewrite filter_app, length_app. Qed.

Lemma retries_none entries :
  Forall (λ e, is_retry e.2 = false) entries → retries entries = 0%nat.
Proof.
  unfold retries. induction 1 as [|e l He _ IH]; [done |].
  rewrite filter_cons_False by congruence. done.
Qed.

(** One iteration writes exactly one [MsgRetry] entry, as its first step. *)
Lemma repair_iteration_log rc rem w :
  ∃ ex, log (repair_iteration rc rem w).2
        = log w ++ (INFO, MsgRetry rc max_retries) :: ex ∧
        retries ex = 0%nat.
Proof.
  set (rest := tables_to_try ← shuffle (elements rem);
               success_in_iteration ← retry_tables tables_to_try ∅;
               let remaining_tables := rem ∖ success_in_iteration in
               if decide (success_in_iteration = ∅ ∧ remaining_tables ≠ ∅) then
                 logging INFO MsgNoProgress;;
                 partial_pass (elements remaining_tables) remaining_tables
               else mret remaining_tables).
  assert (Hrest : preserves (log_ext (λ msg, is_retry msg = false)) rest).
  { unfold rest. pres;
      eauto using lift_frame, frame_log_ext, not_retry_quiet, retry_tables_log_ext,
        partial_pass_log_ext, logging_log_ext with pres. }
  destruct (Hrest (logging INFO (MsgRetry rc max_retries) w).2) as (ex & E & F).
  exists ex. split; [| by apply retries_none].
  change (repair_iteration rc rem w) with (rest (logging INFO (MsgRetry rc max_retries) w).2).
  rewrite E. simpl. by rewrite <- app_assoc.
Qed.

Lemma repair_loop_retries rc rem :
  ∀ w, ∃ ex, log (repair_loop rc rem w).2 = log w ++ ex ∧
             (retries ex ≤ Z.to_nat (max_retries - rc))%nat.
Proof.
  funelim (repair_loop rc rem); intros w.
  - destruct (repair_iteration_log (retry_count + 1) remaining_tables w) as (ex1 & E1 & R1).
    unfold mbind, M_bind, bind.
    destruct (repair_iteration (retry_count + 1) remaining_tables w) as [[rem'|e] w1];
      simpl in E1.
    + match goal with
      | IH : ∀ _ : gset string, World → ∀ _ : World, _ |- _ =>
          destruct (IH rem' w w1) as (ex2 & E2 & R2)
      end.
      exists ((INFO, MsgRetry (retry_count + 1) max_retries) :: ex1 ++ ex2).
      split; [rewrite E2, E1, <- app_assoc; done |].
      change (retries (((INFO, MsgRetry (retry_count + 1) max_retries) :: ex1) ++ ex2)
              ≤ Z.to_nat (max_retries - retry_count))%nat.
      rewrite retries_app.
      change (retries ((INFO, MsgRetry (retry_count + 1) max_retries) :: ex1))
        with (retries ([(INFO, MsgRetry (retry_count + 1) max_retries)] ++ ex1)).
      rewrite retries_app, R1. unfold retries at 1. simpl. lia.
    + exists ((INFO, MsgRetry (retry_count + 1) max_retries) :: ex1). split; [done |].
      change (retries ((INFO, MsgRetry (retry_count + 1) max_retries) :: ex1))
        with (retries ([(INFO, MsgRetry (retry_count + 1) max_retries)] ++ ex1)).
      rewrite retries_app, R1. unfold retries at 1. simpl. lia.
  - exists []. simpl. rewrite app_nil_r. split; [done | unfold retries; simpl; lia].
Qed.

#[local] Instance failed_within_preorder F : PreOrder (failed_within F).
Proof. unfold failed_within. split; [by intros w | intros w1 w2 w3; auto]. Qed.

Lemma preserves_weaken (R R' : relation World) {A} (m : M A) :
  (∀ w w', R w w' → R' w w') → preserves R m → preserves R' m.
Proof. intros H Hm w. apply H, Hm. Qed.

Lemma failed_same_within F w w' : failed_same w w' → failed_within F w w'.
Proof. unfold failed_same, failed_within. by intros ->. Qed.

Lemma frame_failed_within F w w' : frame w w' → failed_within F w w'.
Proof. intros H. by apply failed_same_within, frame_failed_same. Qed.

Lemma add_failed_within F table :
  table ∈ F → preserves (failed_within F) (modify (upd_failed_tables (λ s, s ∪ {[table]}))).
Proof. intros Ht w Hw. simpl. set_solver. Qed.

Lemma insert_rows_failed_within F table columns hc q n s :
  preserves (failed_within F) (insert_rows table columns hc q n s).
Proof.
  eapply preserves_weaken; [apply failed_same_within | apply insert_rows_failed_same].
Qed.

#[local] Hint Resolve frame_failed_within add_failed_within insert_rows_failed_within : pres.

Lemma populate_table_failed_within F table hc :
  table ∈ F → preserves (failed_within F) (_populate_table table hc).
Proof. intros Ht. unfold _populate_table. pres. Qed.

Lemma retry_tables_failed_within F tables acc :
  (∀ t, t ∈ tables → t ∈ F) → preserves (failed_within F) (retry_tables tables acc).
Proof.
  revert acc. induction tables as [|t ts IH]; intros acc Hts; simpl; pres.
  - apply populate_table_failed_within, Hts. by left.
  - apply IH. intros t' Ht'. apply Hts. by right.
Qed.

Lemma try_partial_population_failed_same table :
  preserves failed_same (_try_partial_population table).
Proof. apply try_partial_population_preserves; eauto with pres. Qed.

Lemma partial_pass_failed_same tables rem :
  preserves failed_same (partial_pass tables rem).
Proof. apply partial_pass_preserves; eauto with pres. Qed.

(** [remaining_tables.remove(table)] only ever shrinks the set. *)
Lemma partial_pass_subset tables rem w r w' :
  partial_pass tables rem w = (Ret r, w') → r ⊆ rem.
Proof.
  revert rem w. induction tables as [|t ts IH]; intros rem w E; simpl in E.
  - by injection E as <- _.
  - apply bind_run in E as [(e & _ & [=]) | (ok & w1 & _ & E)].
    apply IH in E. destruct ok; set_solver.
Qed.

Lemma repair_iteration_failed F rc rem w o w' :
  rem ⊆ F → repair_iteration rc rem w = (o, w') →
  failed_within F w w' ∧ ∀ r, o = Ret r → r ⊆ rem.
Proof.
  intros HF E. unfold repair_iteration in E.
  apply bind_run in E as [(e & [=] & _) | ([] & w1 & [= <-] & E)].
  apply bind_run in E as [(e & Es & _) | (tables & w2 & Es & E)];
    pose proof (shuffle_run _ _ _ _ Es) as (x' & Hx & Hp); [done |].
  injection Hx as <-.
  pose proof (preserved_run _ _ _ _ _ (frame_shuffle _) Es) as Hf2.
  apply frame_failed_same in Hf2. unfold failed_same in Hf2. simpl in Hf2.
  assert (Ht : ∀ t, t ∈ tables → t ∈ F).
  { intros t Ht. rewrite Hp in Ht. apply elem_of_elements in Ht. by apply HF. }
  apply bind_run in E as [(e & Er & ->) | (success & w3 & Er & E)];
    pose proof (preserved_run _ _ _ _ _ (retry_tables_failed_within F _ _ Ht) Er) as Hf3.
  { split; [| done]. intros Hw. apply Hf3. by rewrite Hf2. }
  destruct (decide (success = ∅ ∧ rem ∖ success ≠ ∅)).
  - apply bind_run in E as [(e & [=] & _) | ([] & w4 & [= <-] & E)].
    pose proof (preserved_run _ _ _ _ _ (partial_pass_failed_same _ _) E) as Hf5.
    unfold failed_same in Hf5. simpl in Hf5. split.
    + intros Hw. rewrite Hf5. apply Hf3. by rewrite Hf2.
    + intros r ->. apply partial_pass_subset in E. set_solver.
  - injection E as <- <-. split.
    + intros Hw. apply Hf3. by rewrite Hf2.
    + intros r [= <-]. set_solver.
Qed.

Lemma repair_loop_failed F rc rem :
  ∀ w o w', rem ⊆ F → repair_loop rc rem w = (o, w') →
            failed_within F w w' ∧ ∀ r, o = Ret r → r ⊆ rem.
Proof.
  funelim (repair_loop rc rem); intros w o w' HF E.
  - apply bind_run in E as [(e & Ei & ->) | (rem' & w1 & Ei & E)];
      destruct (repair_iteration_failed F _ _ _ _ _ HF Ei) as [Hf1 Hr1].
    { done. }
    specialize (Hr1 _ eq_refl).
    match goal with
    | IH : ∀ _ : gset string, World → ∀ _ : gset string, _ |- _ =>
        destruct (IH rem' w F w1 o w' ltac:(by etransitivity) E) as [Hf2 Hr2]
    end.
    split; [by etransitivity |]. intros r Hr. apply Hr2 in Hr. by etransitivity.
  - injection E as <- <-. split; [reflexivity | by intros r [= <-]].
Qed.

(** C5. [_handle_failed_tables] always ends; its [while] loop runs at most
    [max_retries] times, whether or not an iteration makes progress (each
    iteration writes one "Retry" entry to the log, and the run adds at
    most [max_retries] of them); and the failed-table set it leaves is a
    subset of the one it started from. *)
Theorem handle_failed_tables_bounded (w : World) :
  ∃ o w' ex,
    _handle_failed_tables w = (o, w') ∧
    log w' = log w ++ ex ∧
    (retries ex ≤ Z.to_nat max_retries)%nat ∧
    failed_tables w' ⊆ failed_tables w.
Proof.
  destruct (_handle_failed_tables w) as [o w'] eqn:E.
  unfold _handle_failed_tables in E.
  apply bind_run in E as [(e & [=] & _) | ([] & w1 & [= <-] & E)].
  apply bind_run in E as [(e & [=] & _) | (rem & w1' & [= <- <-] & E)].
  apply bind_run in E as [(e & El & ->) | (rem & w2 & El & E)];
    (destruct (repair_loop_failed (failed_tables w) _ _ _ _ _ (reflexivity _) El)
      as [Hf Hrem]);
    match type of El with
    | repair_loop ?rc ?r ?w0 = _ =>
        destruct (repair_loop_retries rc r w0) as (ex & Hl & Hr)
    end;
    rewrite El in Hl; simpl in Hl.
  - exists (Raise e), w', ((INFO, MsgRepairStart) :: ex). split; [done |].
    split; [by rewrite Hl, <- app_assoc |]. split; [| by apply Hf].
    change ((INFO, MsgRepairStart) :: ex) with ([(INFO, MsgRepairStart)] ++ ex).
    rewrite retries_app. unfold retries at 1. simpl.
    replace (max_retries - 0) with max_retries in Hr by lia. done.
  - injection E as <- <-. eexists _, _, ((INFO, MsgRepairStart) :: ex).
    split; [done |]. split; [simpl; by rewrite Hl, <- app_assoc |].
    split; [| simpl; by apply Hrem].
    change ((INFO, MsgRepairStart) :: ex) with ([(INFO, MsgRepairStart)] ++ ex).
    rewrite retries_app. unfold retries at 1. simpl.
    replace (max_retries - 0) with max_retries in Hr by lia. done.
Qed.

(** * When the repair engine runs *)

Lemma populate_database_split w ordered circular :
  analyze_schema schema = true →
  get_table_insertion_order schema = (ordered, circular) → ordered ≠ [] →
  populate_database w
  = (populate_passes ordered circular ≫= λ _, populate_epilogue circular) w.
Proof.
  intros Ha Ho Hne. unfold populate_database, populate_passes, populate_epilogue.
  rewrite Ha, Ho. simpl. rewrite decide_False by done.
  unfold second_pass, mbind, M_bind, bind. simpl.
  destruct (order_tables ordered _) as [[ordered'|e] w1]; [| done].
  destruct (first_pass ordered' circular w1) as [[[]|e] w2]; [| done].
  destruct (decide (circular ≠ ∅)); [| done]. simpl.
  by destruct (circular_pass ordered' circular _) as [[[]|e] w3].
Qed.

Lemma quiet_not_repair_start msg : quiet msg = true → not_repair_start msg.
Proof. by destruct msg. Qed.

Lemma no_repair_entry ex :
  Forall (λ e : Level * LogMsg, not_repair_start e.2) ex → repair_entry ∉ ex.
Proof.
  intros HF Hin. rewrite Forall_forall in HF. by apply (HF _ Hin).
Qed.

#[local] Hint Resolve quiet_not_repair_start : pres.

Lemma populate_passes_quiet ordered circular :
  preserves (log_ext not_repair_start) (populate_passes ordered circular).
Proof.
  unfold populate_passes. pres;
    eauto using frame_log_ext, logging_log_ext, first_pass_log_ext,
      circular_pass_log_ext, order_tables_preserves with pres;
    apply logging_log_ext; done.
Qed.

Lemma final_check_quiet : preserves (log_ext not_repair_start) final_check.
Proof. unfold final_check. pres; apply logging_log_ext; done. Qed.

Lemma log_ext_any w w' : frame w w' → log_ext (λ _, True) w w'.
Proof. by apply frame_log_ext. Qed.

Lemma handle_failed_tables_log w :
  ∃ ex, log (_handle_failed_tables w).2 = log w ++ repair_entry :: ex.
Proof.
  set (rest := remaining_tables ← gets failed_tables;
               remaining_tables ← repair_loop 0 remaining_tables;
               modify (upd_failed_tables (λ _, remaining_tables))).
  assert (Hrest : preserves (log_ext (λ _, True)) rest).
  { unfold rest. pres.
    - apply repair_loop_preserves;
        eauto using log_ext_any, insert_row_log_ext, failed_update_log_ext,
          logging_log_ext with pres.
    - by apply failed_update_log_ext. }
  destruct (Hrest (logging INFO MsgRepairStart w).2) as (ex & E & _).
  exists ex. change (_handle_failed_tables w) with (rest (logging INFO MsgRepairStart w).2).
  rewrite E. simpl. by rewrite <- app_assoc.
Qed.

(** Lines 78-83: the repair engine is entered exactly when the
    failed-table set is non-empty. *)
Lemma check_failed_tables_log w :
  ∃ ex, log (check_failed_tables w).2 = log w ++ ex ∧
        (failed_tables w ≠ ∅ ↔ repair_entry ∈ ex).
Proof.
  unfold check_failed_tables, mbind, M_bind, bind. simpl.
  destruct (decide (failed_tables w ≠ ∅)) as [Hne|He].
  - destruct (handle_failed_tables_log
                (logging WARNING (MsgSomeFailed (failed_tables w)) w).2) as (ex & E).
    exists ((WARNING, MsgSomeFailed (failed_tables w)) :: repair_entry :: ex).
    simpl in *. split; [by rewrite E, <- app_assoc |].
    split; [intros _ | done]. apply elem_of_cons. right. by left.
  - exists []. simpl. rewrite app_nil_r. split; [done |].
    split; [done | by intros ?%elem_of_nil].
Qed.

Lemma populate_epilogue_log circular w :
  ∃ ex, log (populate_epilogue circular w).2 = log w ++ ex ∧
        (circular = ∅ → repair_entry ∉ ex) ∧
        (circular ≠ ∅ → (failed_tables w ≠ ∅ ↔ repair_entry ∈ ex)).
Proof.
  unfold populate_epilogue, mbind, M_bind, bind.
  destruct (decide (circular ≠ ∅)) as [Hc|Hc].
  - destruct (check_failed_tables_log w) as (ex1 & E1 & H1).
    destruct (check_failed_tables w) as [[[]|e] w1]; simpl in E1.
    + destruct (final_check_quiet w1) as (ex2 & E2 & F2).
      exists (ex1 ++ ex2). split; [by rewrite E2, E1, app_assoc |].
      split; [done | intros _]. rewrite H1, elem_of_app.
      split; [by left | intros [H|H]; [done | by apply no_repair_entry in H]].
    + exists ex1. done.
  - simpl. destruct (final_check_quiet w) as (ex2 & E2 & F2).
    exists ex2. split; [done |]. split; [intros _; by apply no_repair_entry | done].
Qed.

(** C1 (amended).  After a successful setup, when [circular_tables] is
    non-empty the run of [populate_database] enters the repair engine
    exactly when the failed-table set is non-empty at the end of the second
    pass; when [circular_tables] is empty the repair engine is never
    entered, whatever the failed-table set holds.  (Entering the repair
    engine is what writes its opening entry to the log.) *)
Theorem repair_engine_invocation (w : World) ordered circular :
  analyze_schema schema = true →
  get_table_insertion_order schema = (ordered, circular) → ordered ≠ [] →
  ∃ ex, log (populate_database w).2 = log w ++ ex ∧
        (circular = ∅ → repair_entry ∉ ex) ∧
        (circular ≠ ∅ → ∀ w2,
           populate_passes ordered circular w = (Ret tt, w2) →
           (failed_tables w2 ≠ ∅ ↔ repair_entry ∈ ex)).
Proof.
  intros Ha Ho Hne. rewrite (populate_database_split w ordered circular) by done.
  destruct (populate_passes_quiet ordered circular w) as (ex1 & E1 & F1).
  unfold mbind, M_bind, bind.
  destruct (populate_passes ordered circular w) as [[[]|e] w2]; simpl in E1.
  - destruct (populate_epilogue_log circular w2) as (ex2 & E2 & Hno & Hyes).
    exists (ex1 ++ ex2). split; [by rewrite E2, E1, app_assoc |]. split.
    + intros Hc Hin. apply elem_of_app in Hin as [Hin|Hin].
      * by apply no_repair_entry in Hin.
      * by apply Hno in Hin.
    + intros Hc w2' [= <-]. rewrite (Hyes Hc), elem_of_app.
      split; [by right | intros [H|H]; [by apply no_repair_entry in H | done]].
  - exists ex1. split; [done |]. split; [intros _; by apply no_repair_entry | done].
Qed.

(** * The orchestrator's result *)

Lemma final_check_run w :
  final_check w
  = (Ret (bool_decide (size (failed_tables w) = 0%nat)),
     (final_check w).2) ∧
  failed_tables (final_check w).2 = failed_tables w.
Proof.
  unfold final_check, mbind, M_bind, bind, gets. simpl.
  destruct (bool_decide (size (failed_tables w) = 0%nat)); done.
Qed.

Lemma populate_database_setup_failure w :
  analyze_schema schema = false ∨ (get_table_insertion_order schema).1 = [] →
  ∃ msg, populate_database w = (Ret false, (logging ERROR msg w).2).
Proof.
  unfold populate_database. intros [Ha|Ho].
  - rewrite Ha. simpl. by eexists.
  - destruct (analyze_schema schema); simpl; [| by eexists].
    destruct (get_table_insertion_order schema) as [ordered circular]. simpl in Ho.
    rewrite decide_True by done. by eexists.
Qed.

(** After a successful setup the run ends with [final_check]. *)
Lemma populate_database_final w b w' :
  analyze_schema schema = true → (get_table_insertion_order schema).1 ≠ [] →
  populate_database w = (Ret b, w') →
  ∃ w5, final_check w5 = (Ret b, w').
Proof.
  unfold populate_database. intros -> Ho E. simpl in E.
  destruct (get_table_insertion_order schema) as [ordered circular]. simpl in Ho.
  rewrite decide_False in E by done.
  apply bind_run in E as [(e & _ & [=]) | (_ & w1 & _ & E)].
  apply bind_run in E as [(e & _ & [=]) | (_ & w2 & _ & E)].
  apply bind_run in E as [(e & _ & [=]) | (ordered' & w3 & _ & E)].
  apply bind_run in E as [(e & _ & [=]) | (_ & w4 & _ & E)].
  apply bind_run in E as [(e & _ & [=]) | (_ & w5 & _ & E)].
  by exists w5.
Qed.

Lemma populate_passes_rows_ok ordered circular :
  preserves rows_ok (populate_passes ordered circular).
Proof.
  unfold populate_passes. pres.
  - apply order_tables_preserves; eauto with pres.
  - apply first_pass_preserves; eauto with pres.
  - apply circular_pass_preserves; eauto with pres.
Qed.

Lemma populate_epilogue_rows_ok circular :
  preserves rows_ok (populate_epilogue circular).
Proof.
  unfold populate_epilogue, check_failed_tables. pres.
  - apply handle_failed_tables_rows_ok.
  - apply final_check_preserves; eauto with pres.
Qed.


(** * Foreign-key resolution *)

#[local] Instance same_core_preorder : PreOrder same_core.
Proof.
  unfold same_core. split; [done |].
  intros w1 w2 w3 (? & ? & ?) (? & ? & ?). repeat split; congruence.
Qed.

Lemma logging_same_core lvl msg : preserves same_core (logging lvl msg).
Proof. by intros w. Qed.

Lemma draw_same_core : preserves same_core draw.
Proof. intros w. unfold draw. by destruct (rng w). Qed.

Lemma db_execute_query_same_core q ps c : preserves same_core (db_execute_query q ps c).
Proof.
  intros w. unfold db_execute_query. by destruct (execute_query _ _) as [[e|r] s].
Qed.

Lemma data_gen_same_core col t : preserves same_core (data_gen_generate_value col t).
Proof.
  intros w. unfold data_gen_generate_value. by destruct (generate_value _ _ _).
Qed.

Lemma row_getitem_same_core d k : preserves same_core (row_getitem d k).
Proof. intros w. unfold row_getitem. by destruct (dict_get d k). Qed.

#[local] Hint Resolve logging_same_core draw_same_core db_execute_query_same_core
  data_gen_same_core row_getitem_same_core : pres.

Lemma choice_same_core {A} (seq : list A) : preserves same_core (choice seq).
Proof. unfold choice, randbelow. destruct seq; pres. Qed.

Lemma generate_placeholder_value_same_core col :
  preserves same_core (_generate_placeholder_value col).
Proof. unfold _generate_placeholder_value, randint. pres. Qed.

Lemma dict_getitem_same_core l k : preserves same_core (dict_getitem l k).
Proof. unfold dict_getitem. pres. Qed.

Lemma choice_run {A} (seq : list A) w v w' :
  choice seq w = (Ret v, w') → v ∈ seq.
Proof.
  unfold choice. destruct seq as [|x seq]; [done |]. intros E.
  apply bind_run in E as [(e & _ & [=]) | (i & w1 & _ & [= <- _])].
  destruct ((x :: seq) !! i) as [y|] eqn:Ei; simpl.
  - eapply list_elem_of_lookup_2, Ei.
  - by left.
Qed.

Lemma row_getitem_run d k w v w' :
  row_getitem d k w = (Ret v, w') → dict_get d k = Some v ∧ w' = w.
Proof.
  unfold row_getitem. destruct (dict_get d k); [| done]. by intros [= -> ->].
Qed.

Lemma dict_getitem_run l k w v w' :
  dict_getitem l k w = (Ret v, w') →
  dict_get (default [] (heap w !! l)) k = Some v ∧ w' = w.
Proof.
  unfold dict_getitem. intros E.
  apply bind_run in E as [(e & [=] & _) | (d & w1 & [= <- <-] & E)].
  by apply row_getitem_run in E.
Qed.

Lemma dict_get_set d k v k' :
  dict_get (dict_set d k v) k' = if String.eqb k k' then Some v else dict_get d k'.
Proof.
  induction d as [|[k0 v0] d IH]; simpl.
  - done.
  - destruct (String.eqb_spec k0 k) as [->|Hne]; simpl.
    + by destruct (String.eqb k k').
    + destruct (String.eqb_spec k0 k') as [->|Hne'].
      * destruct (String.eqb_spec k k') as [->|]; done.
      * exact IH.
Qed.

(** ** The invariant of the loop over the columns *)

Lemma row_inv_same_core w0 ids table hc columns l w w' :
  same_core w w' → row_inv w0 ids table hc columns l w →
  row_inv w0 ids table hc columns l w'.
Proof.
  intros (Hh & Hi & Hs) (I1 & I2 & I3 & I4 & I5). unfold row_inv.
  rewrite Hh, Hi, Hs. split_and!; auto.
Qed.

Lemma row_inv_setitem w0 ids table hc columns l w name v :
  row_inv w0 ids table hc columns l w →
  entry_ok w0 ids table hc columns name v →
  row_inv w0 ids table hc columns l (dict_setitem l name v w).2.
Proof.
  intros (I1 & I2 & I3 & I4 & I5) Hv. unfold row_inv. simpl.
  split; [done |]. split; [| split; [done | split; [done |]]].
  - intros r Hr. rewrite list_lookup_alter_ne; [by apply I2 | by intros ->].
  - intros name' v'. rewrite list_lookup_alter_eq.
    destruct (heap w !! l) as [d|] eqn:Ed; simpl; [| intros [=]].
    rewrite dict_get_set. destruct (String.eqb_spec name name') as [<-|Hne].
    + by intros [= <-].
    + intros Hd. by apply I5.
Qed.

Lemma db_execute_query_run q ps c w r w' :
  db_execute_query q ps c w = (Ret r, w') →
  ∃ s, execute_query {| sql := q; params := ps; commit := c |} (db w) = (DbResult r, s).
Proof.
  unfold db_execute_query. destruct (execute_query _ _) as [[e|r'] s]; [done |].
  intros [= -> _]. by exists s.
Qed.

Section RowInvariant.
Variables (w0 : World) (ids : option (list Value)) (table : string) (hc : bool).
Variables (columns : list Column) (l : nat).

#[local] Abbreviation inv := (row_inv w0 ids table hc columns l).

Lemma fill_placeholder_inv col fk w w' :
  col ∈ columns → find_foreign_key table (column_name col) = Some fk →
  store_empty w0 (referenced_table fk) →
  fk_nullable col (find_fk_info table (column_name col) (referenced_table fk)) = false →
  inv w →
  fill_placeholder table l col (referenced_table fk) (referenced_column fk) w = (Ret tt, w') →
  inv w'.
Proof.
  intros Hcol Hfk He Hn Hinv E. unfold fill_placeholder in E.
  apply bind_run in E as [(e & _ & [=]) | (v & w1 & Ep & E)].
  pose proof (preserved_run _ _ _ _ _ (generate_placeholder_value_same_core _) Ep) as H1.
  apply bind_run in E as [(e & [=] & _) | ([] & w2 & [= <-] & [= <-])].
  eapply row_inv_same_core; [apply logging_same_core |].
  apply row_inv_setitem; [by eapply row_inv_same_core |].
  exists col. split; [done |]. split; [done |]. right.
  intros fk' Hfk'. rewrite Hfk in Hfk'. injection Hfk' as <-.
  right. right. right. split; [done |]. split; [done |]. by exists w, w1.
Qed.

Lemma resolve_without_rows_inv col fk w w' :
  col ∈ columns → find_foreign_key table (column_name col) = Some fk →
  store_empty w0 (referenced_table fk) →
  inv w →
  resolve_without_rows table hc l col (referenced_table fk) (referenced_column fk)
    (fk_nullable col (find_fk_info table (column_name col) (referenced_table fk))) w
  = (Ret tt, w') →
  inv w'.
Proof.
  intros Hcol Hfk He Hinv E. unfold resolve_without_rows in E.
  assert (Hvalue : ∀ v, fk_value_ok w0 table hc col fk v →
                        entry_ok w0 ids table hc columns (column_name col) v).
  { intros v Hv. exists col. split; [done |]. split; [done |]. right.
    intros fk' Hfk'. rewrite Hfk in Hfk'. by injection Hfk' as <-. }
  destruct (fk_nullable col _) eqn:Hn.
  { (* nullable: NULL *)
    apply bind_run in E as [(e & [=] & _) | ([] & w1 & [= <-] & [= <-])].
    apply row_inv_setitem; [by eapply row_inv_same_core; [apply logging_same_core |] |].
    apply Hvalue. right. left. done. }
  destruct (decide (hc = true)) as [Hhc|Hhc].
  2:{ (* ordering violation: placeholder *)
    apply not_true_is_false in Hhc. rewrite Hhc in E.
    apply bind_run in E as [(e & [=] & _) | ([] & w1 & [= <-] & E)].
    eapply (fill_placeholder_inv col fk); [done .. | | exact E].
    eapply row_inv_same_core; [apply logging_same_core | done]. }
  rewrite Hhc in E.
  apply bind_run in E as [(e & [=] & _) | ([] & w1 & [= <-] & E)].
  apply bind_run in E as [(e & _ & [=]) | (result & w2 & Eq & E)].
  pose proof (preserved_run _ _ _ _ _ (db_execute_query_same_core _ _ _) Eq) as H2.
  apply db_execute_query_run in Eq as (s & Eq).
  assert (Hinv2 : inv w2).
  { eapply row_inv_same_core; [exact H2 |].
    eapply row_inv_same_core; [apply logging_same_core | done]. }
  destruct result as [[|row0 rows]|];
    try (eapply (fill_placeholder_inv col fk); [done .. | exact Hinv2 | exact E]).
  apply bind_run in E as [(e & _ & [=]) | (v & w3 & Eg & E)].
  apply row_getitem_run in Eg as [Hv ->].
  destruct (decide (v ≠ VNone)) as [Hv'|Hv'];
    [| eapply (fill_placeholder_inv col fk); [done .. | exact Hinv2 | exact E]].
  apply bind_run in E as [(e & [=] & _) | ([] & w4 & [= <-] & [= <-])].
  eapply row_inv_same_core; [apply logging_same_core |].
  apply row_inv_setitem; [done |].
  apply Hvalue. right. right. left.
  split; [done |]. split; [done |]. split; [done |].
  by eexists _, row0, rows, s.
Qed.

Lemma resolve_foreign_key_inv col fk w w' :
  col ∈ columns → find_foreign_key table (column_name col) = Some fk →
  inv w →
  resolve_foreign_key table hc l col (referenced_table fk) (referenced_column fk)
    (fk_nullable col (find_fk_info table (column_name col) (referenced_table fk))) w
  = (Ret tt, w') →
  inv w'.
Proof.
  intros Hcol Hfk Hinv E. unfold resolve_foreign_key in E.
  apply bind_run in E as [(e & [=] & _) | (stored_rows & w1 & [= <- <-] & E)].
  assert (Hstore : inserted_data w = inserted_data w0) by apply Hinv.
  destruct (inserted_data w !! referenced_table fk) as [[|r rs]|] eqn:Es.
  - eapply resolve_without_rows_inv; [done .. | | done | exact E].
    unfold store_empty. by rewrite <- Hstore, lookup_total_alt, Es.
  - (* the referenced store has rows *)
    apply bind_run in E as [(e & _ & [=]) | (r' & w1 & Ec & E)].
    pose proof (preserved_run _ _ _ _ _ (choice_same_core _) Ec) as H1.
    apply choice_run in Ec.
    apply bind_run in E as [(e & _ & [=]) | (v & w2 & Eg & E)].
    apply dict_getitem_run in Eg as [Hv ->].
    injection E as <-.
    assert (Hr : r' ∈ inserted_data w0 !!! referenced_table fk).
    { rewrite <- Hstore, lookup_total_alt, Es. done. }
    apply row_inv_setitem; [by eapply row_inv_same_core |].
    exists col. split; [done |]. split; [done |]. right.
    intros fk' Hfk'. rewrite Hfk in Hfk'. injection Hfk' as <-.
    left. split.
    + unfold store_empty. intros He. rewrite He in Hr. by apply elem_of_nil in Hr.
    + exists r'. split; [done |].
      destruct H1 as (Hh & _). destruct Hinv as (_ & I2 & _).
      rewrite <- I2, <- Hh; [done | by eexists].
  - eapply resolve_without_rows_inv; [done .. | | done | exact E].
    unfold store_empty. by rewrite <- Hstore, lookup_total_alt, Es.
Qed.

Lemma process_plain_column_inv col w w' :
  col ∈ columns → inv w →
  process_plain_column table hc l col w = (Ret tt, w') → inv w'.
Proof.
  intros Hcol Hinv E. unfold process_plain_column in E.
  destruct (find_foreign_key table (column_name col)) as [fk|] eqn:Hfk.
  - by eapply resolve_foreign_key_inv.
  - apply bind_run in E as [(e & _ & [=]) | (v & w1 & Eg & [= <-])].
    pose proof (preserved_run _ _ _ _ _ (data_gen_same_core _ _) Eg) as H1.
    apply row_inv_setitem; [by eapply row_inv_same_core |].
    exists col. split; [done |]. split; [done |]. right. intros fk. by rewrite Hfk.
Qed.

Lemma process_column_inv col w w' :
  col ∈ columns → inv w →
  process_column table hc l col w = (Ret tt, w') → inv w'.
Proof.
  intros Hcol Hinv E. unfold process_column in E.
  apply bind_run in E as [(e & [=] & _) | (ids' & w1 & [= <- <-] & E)].
  assert (Hids : _sync_source_ids w = ids) by apply Hinv.
  destruct (_sync_source_ids w) as [[|id0 ids']|] eqn:Ei;
    try by eapply process_plain_column_inv.
  destruct (decide (table = "SyncSource_LogAlert" ∧ column_name col = "SyncSource_ID"))
    as [[Ht Hc]|_]; [| by eapply process_plain_column_inv].
  apply bind_run in E as [(e & _ & [=]) | (v & w1 & Ec & E)].
  pose proof (preserved_run _ _ _ _ _ (choice_same_core _) Ec) as H1.
  apply choice_run in Ec.
  apply bind_run in E as [(e & [=] & _) | ([] & w2 & [= <-] & [= <-])].
  eapply row_inv_same_core; [apply logging_same_core |].
  apply row_inv_setitem; [by eapply row_inv_same_core |].
  exists col. split; [done |]. split; [done |]. left.
  split; [done |]. split; [done |]. exists (id0 :: ids'). by rewrite <- Hids.
Qed.

Lemma columns_loop_inv cols w w' :
  (∀ col, col ∈ cols → col ∈ columns) → inv w →
  for_each cols (process_column table hc l) w = (Ret tt, w') → inv w'.
Proof.
  revert w. induction cols as [|col cols IH]; intros w Hsub Hinv E; simpl in E.
  - by injection E as <-.
  - apply bind_run in E as [(e & _ & [=]) | ([] & w1 & Ep & E)].
    eapply IH; [| | exact E].
    + intros c Hc. apply Hsub. by right.
    + eapply process_column_inv; [| exact Hinv | exact Ep]. apply Hsub. by left.
Qed.
End RowInvariant.

Lemma generate_row_data_entries table columns hc w l w' :
  wf_store w → _generate_row_data table columns hc w = (Ret l, w') →
  ∀ name v, dict_get (default [] (heap w' !! l)) name = Some v →
            entry_ok w (_sync_source_ids w') table hc columns name v.
Proof.
  intros Hw E. rewrite generate_row_data_fill in E.
  pose proof (fill_row_value _ _ _ _ _ _ _ E) as ->.
  destruct (new_dict_rows w Hw) as (_ & _ & [_ Hns] & _ & _).
  unfold fill_row in E.
  apply bind_run in E as [(e & _ & [=]) | ([] & w2 & Er & E)].
  pose proof (preserved_run _ _ _ _ _ (frame_refresh_sync_source_ids _) Er) as (Hh & Hi & _).
  apply bind_run in E as [(e & _ & [=]) | ([] & w3 & Ec & [= <-])].
  assert (Hinv : row_inv w (_sync_source_ids w2) table hc columns (length (heap w)) w2).
  { unfold row_inv. rewrite Hh, Hi. simpl. split_and!; try done.
    - intros r Hr. apply lookup_app_l. by apply Hw.
    - intros name v. rewrite lookup_app_r by done.
      rewrite Nat.sub_diag. simpl. done. }
  pose proof (columns_loop_inv _ _ _ _ _ _ _ _ _ (λ _ H, H) Hinv Ec) as (_ & _ & <- & _ & H5).
  exact H5.
Qed.


(** * Tables without metadata *)

(** [_try_partial_population] lacks the guard with which [_populate_table]
    starts: the subscript raises. *)
Lemma try_partial_population_absent table w :
  table_columns schema !! table = None →
  _try_partial_population table w
  = (Raise (KeyError table), (logging INFO (MsgPartialStart table) w).2).
Proof. intros Hc. unfold _try_partial_population. by rewrite Hc. Qed.

Lemma wf_store_init s g tape : wf_store (init s g tape).
Proof.
  intros l [t Ht]. simpl in Ht. rewrite lookup_total_empty in Ht.
  by apply elem_of_nil in Ht.
Qed.

Lemma nonempty_elem (X : gset string) x : x ∈ X → X ≠ ∅.
Proof. intros Hx ->. by apply not_elem_of_empty in Hx. Qed.

(** * Further properties of the orchestrator

    ** The reordering loses no table *)

Lemma move_sentinels_elem (l : list string) x :
  sentinels_present l → x ∈ move_sentinels l ↔ x ∈ l.
Proof.
  intros [Hs Ha]. unfold move_sentinels. simpl.
  rewrite elem_of_cons, elem_of_app, list_elem_of_filter, list_elem_of_singleton.
  split.
  - intros [-> | [[_ Hx] | ->]]; done.
  - intros Hx. destruct (decide (x = "SyncSource")) as [->|H1]; [by left |].
    destruct (decide (x = "SyncSource_LogAlert")) as [->|H2]; [by right; right |].
    right. left. split; [| done].
    intros Hin. apply elem_of_cons in Hin as [->|Hin]; [done |].
    apply list_elem_of_singleton in Hin. done.
Qed.

Lemma move_sentinels_NoDup (l : list string) : NoDup l → NoDup (move_sentinels l).
Proof.
  intros Hl. unfold move_sentinels. simpl. apply NoDup_cons. split.
  - rewrite elem_of_app, list_elem_of_filter, list_elem_of_singleton.
    intros [[Hn _] | [=]]. apply Hn. by left.
  - apply NoDup_app. split; [by apply NoDup_filter |]. split.
    + intros x [Hn _]%list_elem_of_filter ->%list_elem_of_singleton.
      apply Hn. right. by left.
    + apply NoDup_singleton.
Qed.

(** X1. The ordering step of [populate_database] never loses or invents a
    table: the order it returns has the same tables as [ordered_tables],
    and when [ordered_tables] has no duplicate it is a permutation of it,
    again without duplicate. *)
Theorem order_tables_permutation (ordered_tables : list string) (w : World) :
  ∃ l' w',
    order_tables ordered_tables w = (Ret l', w') ∧
    (∀ t, t ∈ l' ↔ t ∈ ordered_tables) ∧
    (NoDup ordered_tables → NoDup l' ∧ l' ≡ₚ ordered_tables).
Proof.
  unfold order_tables. destruct (decide (sentinels_present ordered_tables)) as [Hs|Hs].
  - eexists _, _. split; [reflexivity |]. split.
    + intros t. by apply move_sentinels_elem.
    + intros Hl. pose proof (move_sentinels_NoDup _ Hl) as Hm. split; [done |].
      apply NoDup_Permutation; [done | done |]. intros t. by apply move_sentinels_elem.
  - eexists _, _. split; [reflexivity |]. split; [done | by intros Hl].
Qed.

(** ** Partial population stores at most one row *)

Lemma partial_attempts_run table columns q n a w o w' :
  wf_store w → partial_attempts table columns q n a w = (o, w') →
  wf_store w' ∧
  ((o = Ret true ∧
    ∃ l, inserted_data w' = <[table := inserted_data w !!! table ++ [l]]> (inserted_data w)) ∨
   (o ≠ Ret true ∧ inserted_data w' = inserted_data w)).
Proof.
  revert a w. induction n as [|n IH]; intros a w Hw E; simpl in E.
  - injection E as <- <-. split; [done | by right].
  - unfold mbind, M_bind, bind, try_except_Error in E.
    destruct (insert_row table columns true q w) as [o1 w1] eqn:E1.
    destruct (insert_row_run _ _ _ _ _ _ _ Hw E1)
      as (Hw1 & _ & [[Hne Hi] | (-> & l & w2 & r & s & w3 & _ & _ & _ & _ & _ & _ & Hi)]).
    + destruct o1 as [[|]|[msg| |]]; simpl in E; try done;
        try (injection E as <- <-; split; [done | by right]).
      * destruct (IH _ _ Hw1 E) as (Hw' & Hcase). split; [done |]. by rewrite Hi in Hcase.
      * destruct (IH _ (logging DEBUG (MsgAttemptFailed (a + 1) table msg) w1).2 Hw1 E)
          as (Hw' & Hcase).
        split; [done |]. simpl in Hcase. by rewrite Hi in Hcase.
    + simpl in E. injection E as <- <-. split; [done |]. left. split; [done |]. by exists l.
Qed.

Lemma try_partial_population_run table w o w' :
  wf_store w → _try_partial_population table w = (o, w') →
  wf_store w' ∧ failed_tables w' = failed_tables w ∧
  (o = Ret true →
     added table w w' = 1%nat ∧
     ∀ t, t ≠ table → inserted_data w' !!! t = inserted_data w !!! t) ∧
  (o ≠ Ret true → inserted_data w' = inserted_data w).
Proof.
  intros Hw E.
  pose proof (preserved_run _ _ _ _ _ (try_partial_population_failed_same _) E) as Hf.
  split; [| split; [exact Hf |]].
  - pose proof (try_partial_population_rows_ok table w Hw) as H. rewrite E in H. apply H.
  - unfold _try_partial_population in E.
    apply bind_run in E as [(e & [=] & _) | ([] & w1 & [= <-] & E)].
    destruct (table_columns schema !! table) as [columns|].
    2:{ injection E as <- <-. split; [done | by intros _]. }
    apply bind_run in E as [(e & Ep & ->) | (q & w2 & Ep & E)];
      pose proof (preserved_run _ _ _ _ _ (frame_prepare_insert_query _ _) Ep)
        as (Hh & Hi & _); simpl in Hh, Hi.
    { split; [done | by intros _]. }
    assert (Hw2 : wf_store w2).
    { destruct (same_rows_facts w w2 Hh Hi) as (_ & Hwf & _). auto. }
    destruct (partial_attempts_run _ _ _ _ _ _ _ _ Hw2 E)
      as (_ & [[-> (l & Hl)] | [Hne Hs]]).
    + split; [intros _ | done]. rewrite Hi in Hl. unfold added. split.
      * rewrite Hl, lookup_total_insert_eq, length_app. simpl. lia.
      * intros t Ht. by rewrite Hl, lookup_total_insert_ne.
    + split; [done | intros _]. by rewrite Hs.
Qed.

(** X2. [_try_partial_population] stores at most one row: when it returns
    true it has appended exactly one row to the table's list and touched
    no other list; with any other outcome the store is as it was.  In
    every case the failed-table set is left alone. *)
Theorem try_partial_population_result (table : string) (w : World) o w' :
  wf_store w → _try_partial_population table w = (o, w') →
  wf_store w' ∧ failed_tables w' = failed_tables w ∧
  (o = Ret true →
     added table w w' = 1%nat ∧
     ∀ t, t ≠ table → inserted_data w' !!! t = inserted_data w !!! t) ∧
  (o ≠ Ret true → inserted_data w' = inserted_data w).
Proof. apply try_partial_population_run. Qed.

(** ** Which tables can be marked as failed *)

#[local] Instance failed_grows_preorder : PreOrder failed_grows.
Proof.
  unfold failed_grows. split; [by intros w | intros w1 w2 w3 H1 H2; by etransitivity].
Qed.

Lemma failed_same_grows w w' : failed_same w w' → failed_grows w w'.
Proof. unfold failed_same, failed_grows. by intros ->. Qed.

Lemma frame_failed_grows w w' : frame w w' → failed_grows w w'.
Proof. intros H. by apply failed_same_grows, frame_failed_same. Qed.

Lemma add_failed_grows table :
  preserves failed_grows (modify (upd_failed_tables (λ s, s ∪ {[table]}))).
Proof. intros w. unfold failed_grows. simpl. apply union_subseteq_l. Qed.

Lemma insert_rows_failed_grows table columns hc q n s :
  preserves failed_grows (insert_rows table columns hc q n s).
Proof.
  eapply preserves_weaken; [apply failed_same_grows | apply insert_rows_failed_same].
Qed.

#[local] Hint Resolve frame_failed_grows add_failed_grows insert_rows_failed_grows : pres.

Lemma populate_table_failed_grows table hc :
  preserves failed_grows (_populate_table table hc).
Proof. unfold _populate_table. pres. Qed.

(** X3. Whatever its outcome, [_populate_table] changes the failed-table
    set at most by adding the table it was called on: it removes no table
    and marks no other table. *)
Theorem populate_table_failed_bounds (table : string) (hc : bool) (w : World) :
  let w' := (_populate_table table hc w).2 in
  failed_tables w ⊆ failed_tables w' ∧
  failed_tables w' ⊆ failed_tables w ∪ {[table]}.
Proof.
  split.
  - apply populate_table_failed_grows.
  - apply (populate_table_failed_within (failed_tables w ∪ {[table]}) table hc).
    + apply elem_of_union_r. by apply elem_of_singleton.
    + apply union_subseteq_l.
Qed.

Lemma populate_tables_failed_within F (tables : list string) hc :
  (∀ t, t ∈ tables → t ∈ F) →
  preserves (failed_within F)
    (for_each tables (λ table, _populate_table table hc;; mret tt)).
Proof.
  intros Ht. induction tables as [|t ts IH]; simpl; [pres |].
  apply preserves_bind; [apply _ | | intros _].
  - apply preserves_bind; [apply _ | | intros _; pres].
    apply populate_table_failed_within, Ht. by left.
  - apply IH. intros t' Ht'. apply Ht. by right.
Qed.

Lemma handle_failed_tables_failed_within F :
  preserves (failed_within F) _handle_failed_tables.
Proof.
  intros w Hw. destruct (_handle_failed_tables w) as [o w'] eqn:E. simpl.
  unfold _handle_failed_tables in E.
  apply bind_run in E as [(e & [=] & _) | ([] & w1 & [= <-] & E)].
  apply bind_run in E as [(e & [=] & _) | (rem & w1' & [= <- <-] & E)].
  apply bind_run in E as [(e & El & ->) | (rem & w2 & El & E)];
    destruct (repair_loop_failed F _ _ _ _ _ Hw El) as [Hf Hrem].
  - by apply Hf.
  - injection E as <- <-. simpl. etransitivity; [by apply Hrem | done].
Qed.

Lemma order_tables_elem ordered w l' w' t :
  order_tables ordered w = (Ret l', w') → t ∈ l' → t ∈ ordered.
Proof.
  unfold order_tables. destruct (decide (sentinels_present ordered)) as [Hs|Hs].
  - intros [= <- _]. by apply move_sentinels_elem.
  - by intros [= <- _].
Qed.

Lemma passes_failed_within F (l' : list string) circular :
  (∀ t, t ∈ l' → t ∈ F) →
  preserves (failed_within F)
    (first_pass l' circular ≫= λ _, second_pass l' circular ≫= λ _, final_check).
Proof.
  intros Hl'. unfold first_pass, second_pass, circular_pass.
  apply preserves_bind; [apply _ | | intros _].
  { apply populate_tables_failed_within. intros t [_ Ht]%list_elem_of_filter. auto. }
  apply preserves_bind; [apply _ | | intros _; unfold final_check; pres].
  destruct (decide (circular ≠ ∅)); [| pres].
  apply preserves_bind; [apply _ | pres | intros _].
  apply preserves_bind; [apply _ | | intros _].
  { apply populate_tables_failed_within. intros t [_ Ht]%list_elem_of_filter. auto. }
  unfold check_failed_tables. pres. apply handle_failed_tables_failed_within.
Qed.

(** X4. Whatever its outcome, a run of [populate_database] can only mark
    tables of the insertion order as failed: the failed-table set at the
    end holds nothing but tables that were failed at the start or that
    the schema collaborator listed in [ordered_tables]. *)
Theorem populate_database_failed_bound (w : World) :
  failed_tables (populate_database w).2
  ⊆ failed_tables w ∪ list_to_set (get_table_insertion_order schema).1.
Proof.
  set (F := failed_tables w ∪ list_to_set (get_table_insertion_order schema).1).
  assert (HF : failed_tables w ⊆ F) by apply union_subseteq_l.
  assert (Hin : ∀ t, t ∈ (get_table_insertion_order schema).1 → t ∈ F).
  { intros t Ht. apply elem_of_union_r. by apply elem_of_list_to_set. }
  clearbody F. destruct (populate_database w) as [o w'] eqn:E. simpl.
  unfold populate_database in E.
  destruct (negb (analyze_schema schema)); [by injection E as <- <- |].
  destruct (get_table_insertion_order schema) as [ordered circular]. simpl in Hin.
  destruct (decide (ordered = [])); [by injection E as <- <- |].
  apply bind_run in E as [(e & [=] & _) | ([] & w1 & [= <-] & E)].
  apply bind_run in E as [(e & [=] & _) | ([] & w2 & [= <-] & E)].
  apply bind_run in E as [(e & Eo & ->) | (l' & w3 & Eo & E)];
    (eassert (Ho : failed_within F _ _)
      by (eapply preserved_run; [apply order_tables_preserves; eauto with pres | exact Eo])).
  - by apply Ho.
  - apply (preserved_run _ _ _ _ _ (passes_failed_within F l' circular
             (λ t Ht, Hin t (order_tables_elem _ _ _ _ _ Eo Ht))) E).
    by apply Ho.
Qed.

(** ** An identifier read that raises *)

#[local] Instance store_idle_preorder : PreOrder store_idle.
Proof.
  unfold store_idle. split; [by intros w | intros w1 w2 w3 H1 H2 Hw].
  destruct (H1 Hw) as [Hw2 E1]. destruct (H2 Hw2) as [Hw3 E2].
  split; [done | by rewrite E2].
Qed.

Lemma frame_store_idle w w' : frame w w' → store_idle w w'.
Proof.
  intros (Hh & Hi & _) Hw. destruct (same_rows_facts w w' Hh Hi) as (_ & Hwf & _). auto.
Qed.

Lemma failed_update_store_idle f : preserves store_idle (modify (upd_failed_tables f)).
Proof. intros w Hw. split; done. Qed.

Lemma backfill_raises columns l w :
  (∃ col, col ∈ columns ∧ extra col = "auto_increment") →
  (∀ s, ∃ msg s', execute_query last_id_statement s = (DbError msg, s')) →
  ∃ msg w', for_each columns (backfill_column l) w = (Raise (MySQLError msg), w').
Proof.
  intros (col & Hcol & Hex) Hdb. revert w.
  induction columns as [|c columns IH]; intros w; [by apply elem_of_nil in Hcol |].
  simpl. unfold mbind, M_bind, bind.
  destruct (decide (extra c = "auto_increment")) as [Hc|Hc].
  - unfold backfill_column. rewrite decide_True by done.
    unfold mbind, M_bind, bind, db_execute_query. fold last_id_statement.
    destruct (Hdb (db w)) as (msg & s' & ->). by eexists _, _.
  - unfold backfill_column at 1. rewrite decide_False by done. simpl.
    apply IH. apply elem_of_cons in Hcol as [-> | Hcol]; done.
Qed.

Lemma insert_row_store_idle table columns hc q :
  (∃ col, col ∈ columns ∧ extra col = "auto_increment") →
  (∀ s, ∃ msg s', execute_query last_id_statement s = (DbError msg, s')) →
  preserves store_idle (insert_row table columns hc q).
Proof.
  intros Hcol Hdb w Hw. destruct (insert_row table columns hc q w) as [o w'] eqn:E.
  destruct (insert_row_run _ _ _ _ _ _ _ Hw E)
    as (Hw' & _ & [[_ Hi] | (_ & l & w1 & r & s & w3 & _ & _ & _ & _ & Eb & _)]).
  - done.
  - destruct (backfill_raises columns l (upd_db s w1) Hcol Hdb) as (msg & w'' & Eb').
    rewrite Eb in Eb'. discriminate Eb'.
Qed.

Lemma insert_rows_store_idle table columns hc q n s :
  (∃ col, col ∈ columns ∧ extra col = "auto_increment") →
  (∀ s, ∃ msg s', execute_query last_id_statement s = (DbError msg, s')) →
  preserves store_idle (insert_rows table columns hc q n s).
Proof.
  intros Hcol Hdb. revert s. induction n as [|n IH]; intros s; simpl; [pres |].
  apply preserves_bind; [apply _ | | intros ok; apply IH].
  apply preserves_try; [apply _ | by apply insert_row_store_idle | intros e].
  pres; eauto using lift_frame, frame_store_idle with pres.
Qed.

(** X5. When the table has an auto-increment column and every read of
    [LAST_INSERT_ID()] raises a database error, [_populate_table] records
    no row at all, also for the inserts that the database accepted and
    committed: the store is left as it was, and with a positive target
    count the table is marked as failed and false is returned. *)
Theorem populate_table_unreadable_id (table : string) (hc : bool) columns (w : World) :
  table_columns schema !! table = Some columns →
  (∃ col, col ∈ columns ∧ extra col = "auto_increment") →
  (∀ s, ∃ msg s', execute_query last_id_statement s = (DbError msg, s')) →
  wf_store w →
  let run := _populate_table table hc w in
  inserted_data run.2 = inserted_data w ∧
  (0 < num_records → ∀ b, run.1 = Ret b →
     b = false ∧ failed_tables run.2 = failed_tables w ∪ {[table]}).
Proof.
  intros Hc Hcol Hdb Hw run.
  assert (Hidle : preserves store_idle (_populate_table table hc)).
  { unfold _populate_table. rewrite Hc. pres;
      eauto using lift_frame, frame_store_idle, failed_update_store_idle with pres.
    by apply insert_rows_store_idle. }
  destruct (Hidle w Hw) as [_ Hi]. fold run in Hi. split; [exact Hi |].
  intros Hpos b Hb.
  destruct (populate_table_run table hc columns w b run.2 Hc Hw) as (n & Hn & _ & Hfail & _).
  { rewrite <- Hb. apply surjective_pairing. }
  apply Hfail. unfold added in Hn. rewrite Hi in Hn. lia.
Qed.

(** ** A table without foreign keys on a database that accepts everything *)

Lemma bind_ret_run {A B} (m : M A) (k : A → M B) w a w1 :
  m w = (Ret a, w1) → (m ≫= k) w = k a w1.
Proof. intros E. unfold mbind, M_bind, bind. by rewrite E. Qed.

Lemma process_column_total table hc l col w :
  table ≠ "SyncSource_LogAlert" →
  find_foreign_key table (column_name col) = None →
  ∃ w', process_column table hc l col w = (Ret tt, w').
Proof.
  intros Ht Hfk. unfold process_column, process_plain_column, mbind, M_bind, bind. simpl.
  rewrite Hfk. unfold data_gen_generate_value.
  destruct (_sync_source_ids w) as [[|id0 ids]|];
    try (destruct (generate_value col (Some table) (gen w)); by eexists).
  rewrite decide_False by (by intros [? _]).
  destruct (generate_value col (Some table) (gen w)); by eexists.
Qed.

Lemma generate_row_data_total table columns hc w :
  table ≠ "SyncSource_LogAlert" → no_foreign_key table columns →
  ∃ l w', _generate_row_data table columns hc w = (Ret l, w').
Proof.
  intros Ht Hfk. rewrite generate_row_data_fill. unfold fill_row, refresh_sync_source_ids.
  rewrite decide_False by done. generalize (length (heap w)) as l.
  generalize ((new_dict w).2) as w1. intros w1 l.
  assert (Hloop : ∀ w0, ∃ w', for_each columns (process_column table hc l) w0 = (Ret tt, w')).
  { induction columns as [|col columns IH]; intros w0; simpl; [by eexists |].
    destruct (process_column_total table hc l col w0 Ht) as (w2 & E2).
    { apply Hfk. by left. }
    destruct (IH (λ c Hc, Hfk c (list_elem_of_further _ _ _ Hc)) w2) as (w3 & E3).
    exists w3. unfold mbind, M_bind, bind. by rewrite E2. }
  destruct (Hloop w1) as (w' & E). exists l, w'.
  unfold mbind, M_bind, bind. simpl. by rewrite E.
Qed.

Lemma backfill_total columns l w :
  id_reads_well_formed →
  ∃ w', for_each columns (backfill_column l) w = (Ret tt, w').
Proof.
  intros Hid. revert w. induction columns as [|col columns IH]; intros w; simpl.
  - by eexists.
  - assert (∃ w1, backfill_column l col w = (Ret tt, w1)) as (w1 & E1).
    { unfold backfill_column. destruct (decide (extra col = "auto_increment")); [| by eexists].
      unfold mbind, M_bind, bind, db_execute_query. fold last_id_statement.
      destruct (Hid (db w)) as (result & s' & -> & Hrow).
      destruct result as [[|row0 rows]|]; try by eexists.
      destruct Hrow as (v & Hv). unfold row_getitem. rewrite Hv. simpl.
      destruct (truthy v); by eexists. }
    destruct (IH w1) as (w2 & E2). exists w2.
    unfold mbind, M_bind, bind. by rewrite E1.
Qed.

Lemma insert_row_total table columns hc q w :
  table ≠ "SyncSource_LogAlert" → no_foreign_key table columns →
  accepts_inserts → id_reads_well_formed →
  ∃ w', insert_row table columns hc q w = (Ret true, w').
Proof.
  intros Ht Hfk Hacc Hid. unfold insert_row.
  destruct (generate_row_data_total table columns hc w Ht Hfk) as (l & w1 & Eg).
  unfold mbind, M_bind, bind. rewrite Eg. simpl.
  unfold db_execute_query.
  destruct (Hacc {| sql := q; params := Some (dict_values (default [] (heap w1 !! l)));
                    commit := true |} (db w1) eq_refl) as (row0 & rows & s' & ->).
  simpl. destruct (backfill_total columns l (upd_db s' w1) Hid) as (w2 & ->).
  by eexists.
Qed.

Lemma insert_rows_total table columns hc q n s w :
  table ≠ "SyncSource_LogAlert" → no_foreign_key table columns →
  accepts_inserts → id_reads_well_formed → wf_store w →
  ∃ w', insert_rows table columns hc q n s w = (Ret (s + Z.of_nat n), w') ∧
        length (inserted_data w' !!! table)
        = (length (inserted_data w !!! table) + n)%nat.
Proof.
  intros Ht Hfk Hacc Hid. revert s w.
  induction n as [|n IH]; intros s w Hw; simpl.
  - exists w. split; [by rewrite Z.add_0_r | lia].
  - destruct (insert_row_total table columns hc q w Ht Hfk Hacc Hid) as (w1 & E1).
    assert (Et : try_except_Error (insert_row table columns hc q)
                   (λ e, logging ERROR (MsgInsertError table e);; mret false) w
                 = (Ret true, w1))
      by (unfold try_except_Error; by rewrite E1).
    destruct (try_insert_run _ _ _ _ _ _ _ Hw Et) as (Hw1 & [[_ Hi] | [Hne _]]); [| done].
    destruct (IH (s + 1) w1 Hw1) as (w' & E' & Hlen).
    exists w'. rewrite (bind_ret_run _ _ _ _ _ Et). split.
    + rewrite E'. do 2 f_equal. lia.
    + rewrite Hlen, Hi, length_app. simpl. lia.
Qed.

(** X6. For a table known to the schema, without foreign-key column and
    other than [SyncSource_LogAlert], on a database that accepts every
    insert and answers every identifier read, [_populate_table] returns
    true, stores exactly [num_records] rows for the table (none for a
    target count below zero) and leaves the failed-table set as it was. *)
Theorem populate_table_complete (table : string) (hc : bool) columns (w : World) :
  table_columns schema !! table = Some columns →
  table ≠ "SyncSource_LogAlert" → no_foreign_key table columns →
  accepts_inserts → id_reads_well_formed → wf_store w →
  ∃ w', _populate_table table hc w = (Ret true, w') ∧
        added table w w' = Z.to_nat num_records ∧
        failed_tables w' = failed_tables w.
Proof.
  intros Hc Ht Hfk Hacc Hid Hw.
  destruct (populate_table_prologue table columns w) as (q & w0 & E0 & Hh0 & Hi0 & Hf0).
  destruct (same_rows_facts w w0 Hh0 Hi0) as (_ & Hwf & _).
  destruct (insert_rows_total table columns hc q (Z.to_nat num_records) 0 w0
              Ht Hfk Hacc Hid (Hwf Hw)) as (w1 & E1 & Hlen).
  pose proof (preserved_run _ _ _ _ _ (insert_rows_failed_same _ _ _ _ _ _) E1) as Hf1.
  exists w1. split; [| split].
  - unfold _populate_table. rewrite Hc.
    unfold mbind, M_bind, bind in E0 |- *.
    destruct (logging INFO (MsgPopulating table) w) as [[[]|e] wl]; [| done].
    rewrite E0, E1.
    replace (0 + Z.of_nat (Z.to_nat num_records) <? num_records) with false; [done |].
    symmetry. apply Z.ltb_ge. lia.
  - unfold added. rewrite Hlen, Hi0. lia.
  - unfold failed_same in Hf1. by rewrite Hf1.
Qed.

(** ** The columns of a generated row *)

Lemma same_core_heap {A} (m : M A) w o w' :
  preserves same_core m → m w = (o, w') → heap w' = heap w.
Proof. intros Hm E. by destruct (preserved_run _ _ _ _ _ Hm E) as (Hh & _). Qed.

Lemma fill_placeholder_sets table l col rtable rcolumn w w' :
  fill_placeholder table l col rtable rcolumn w = (Ret tt, w') →
  ∃ v, heap w' = alter (λ d, dict_set d (column_name col) v) l (heap w).
Proof.
  unfold fill_placeholder. intros E.
  apply bind_run in E as [(e & _ & [=]) | (v & w1 & Ep & E)].
  apply (same_core_heap _ _ _ _ (generate_placeholder_value_same_core _)) in Ep.
  apply bind_run in E as [(e & [=] & _) | ([] & w2 & [= <-] & [= <-])].
  exists v. simpl. by rewrite Ep.
Qed.

Lemma resolve_without_rows_sets table hc l col rtable rcolumn nullable w w' :
  resolve_without_rows table hc l col rtable rcolumn nullable w = (Ret tt, w') →
  ∃ v, heap w' = alter (λ d, dict_set d (column_name col) v) l (heap w).
Proof.
  unfold resolve_without_rows. intros E. destruct nullable.
  { apply bind_run in E as [(e & [=] & _) | ([] & w1 & [= <-] & [= <-])]. by exists VNone. }
  destruct hc.
  2:{ apply bind_run in E as [(e & [=] & _) | ([] & w1 & [= <-] & E)].
      by apply fill_placeholder_sets in E. }
  apply bind_run in E as [(e & [=] & _) | ([] & w1 & [= <-] & E)].
  apply bind_run in E as [(e & _ & [=]) | (result & w2 & Eq & E)].
  apply (same_core_heap _ _ _ _ (db_execute_query_same_core _ _ _)) in Eq. simpl in Eq.
  destruct result as [[|row0 rows]|];
    try (apply fill_placeholder_sets in E as (v & Hv); exists v; by rewrite Hv, Eq).
  apply bind_run in E as [(e & _ & [=]) | (v & w3 & Eg & E)].
  apply row_getitem_run in Eg as [_ ->].
  destruct (decide (v ≠ VNone)).
  - apply bind_run in E as [(e & [=] & _) | ([] & w4 & [= <-] & [= <-])].
    exists v. simpl. by rewrite Eq.
  - apply fill_placeholder_sets in E as (v' & Hv). exists v'. by rewrite Hv, Eq.
Qed.

Lemma process_plain_column_sets table hc l col w w' :
  process_plain_column table hc l col w = (Ret tt, w') →
  ∃ v, heap w' = alter (λ d, dict_set d (column_name col) v) l (heap w).
Proof.
  unfold process_plain_column. intros E.
  destruct (find_foreign_key table (column_name col)) as [fk|].
  - unfold resolve_foreign_key in E.
    apply bind_run in E as [(e & [=] & _) | (stored_rows & w1 & [= <- <-] & E)].
    destruct (inserted_data w !! referenced_table fk) as [[|r rs]|];
      try by apply resolve_without_rows_sets in E.
    apply bind_run in E as [(e & _ & [=]) | (r' & w1 & Ec & E)].
    apply (same_core_heap _ _ _ _ (choice_same_core _)) in Ec.
    apply bind_run in E as [(e & _ & [=]) | (v & w2 & Eg & E)].
    apply dict_getitem_run in Eg as [_ ->]. injection E as <-.
    exists v. simpl. by rewrite Ec.
  - apply bind_run in E as [(e & _ & [=]) | (v & w1 & Eg & [= <-])].
    apply (same_core_heap _ _ _ _ (data_gen_same_core _ _)) in Eg.
    exists v. simpl. by rewrite Eg.
Qed.

Lemma process_column_sets table hc l col w w' :
  process_column table hc l col w = (Ret tt, w') →
  ∃ v, heap w' = alter (λ d, dict_set d (column_name col) v) l (heap w).
Proof.
  unfold process_column. intros E.
  apply bind_run in E as [(e & [=] & _) | (ids & w1 & [= <- <-] & E)].
  destruct (_sync_source_ids w) as [[|id0 ids]|];
    try by apply process_plain_column_sets in E.
  destruct (decide (table = "SyncSource_LogAlert" ∧ column_name col = "SyncSource_ID"));
    [| by apply process_plain_column_sets in E].
  apply bind_run in E as [(e & _ & [=]) | (v & w1 & Ec & E)].
  apply (same_core_heap _ _ _ _ (choice_same_core _)) in Ec.
  apply bind_run in E as [(e & [=] & _) | ([] & w2 & [= <-] & [= <-])].
  exists v. simpl. by rewrite Ec.
Qed.

Lemma dict_set_fresh (d : Row) k v :
  k ∉ map fst d → dict_set d k v = d ++ [(k, v)].
Proof.
  induction d as [|[k0 v0] d IH]; simpl; [done |]. intros Hk.
  destruct (String.eqb_spec k0 k) as [->|Hne].
  - exfalso. apply Hk. by left.
  - f_equal. apply IH. intros Hin. apply Hk. by right.
Qed.

(** The loop over the columns extends the row at [l] by one entry per
    column, in order. *)
Lemma columns_loop_row table hc l columns w w' d :
  heap w !! l = Some d →
  NoDup (map fst d ++ map column_name columns) →
  for_each columns (process_column table hc l) w = (Ret tt, w') →
  ∃ d', heap w' !! l = Some (d ++ d') ∧ map fst d' = map column_name columns.
Proof.
  revert w d. induction columns as [|col columns IH]; intros w d Hl Hnd E; simpl in E.
  - injection E as <-. exists []. by rewrite app_nil_r.
  - apply bind_run in E as [(e & _ & [=]) | ([] & w1 & Ep & E)].
    apply process_column_sets in Ep as (v & Hv).
    simpl in Hnd. apply NoDup_app in Hnd as (Hd & Hx & Hc).
    apply NoDup_cons in Hc as [Hcol Hc].
    assert (Hfresh : column_name col ∉ map fst d).
    { intros Hin. apply (Hx _ Hin). by left. }
    assert (Hl1 : heap w1 !! l = Some (d ++ [(column_name col, v)])).
    { rewrite Hv, list_lookup_alter_eq, Hl. simpl. by rewrite dict_set_fresh. }
    destruct (IH w1 _ Hl1) as (d' & Hd' & Hk); [| done |].
    + rewrite map_app. simpl. rewrite <- app_assoc. simpl.
      apply NoDup_app. split; [done |]. split.
      * intros x Hin Hin'. apply elem_of_cons in Hin' as [-> | Hin']; [done |].
        apply (Hx _ Hin). by right.
      * by apply NoDup_cons.
    + exists ((column_name col, v) :: d'). split.
      * rewrite Hd', <- app_assoc. done.
      * simpl. by rewrite Hk.
Qed.

(** X7. When the column names of a table are pairwise distinct, a row
    returned by [_generate_row_data] has exactly one entry per column,
    under the column's name and in the order of the column list; so the
    parameter tuple of the insert has as many values as the statement has
    columns and placeholders. *)
Theorem generate_row_data_columns (table : string) columns (hc : bool) (w : World) l w' :
  NoDup (map column_name columns) →
  _generate_row_data table columns hc w = (Ret l, w') →
  ∃ d, heap w' !! l = Some d ∧
       map fst d = map column_name columns ∧
       length (dict_values d) = length columns.
Proof.
  intros Hnd E. rewrite generate_row_data_fill in E.
  pose proof (fill_row_value _ _ _ _ _ _ _ E) as ->.
  unfold fill_row in E.
  apply bind_run in E as [(e & _ & [=]) | ([] & w2 & Er & E)].
  pose proof (preserved_run _ _ _ _ _ (frame_refresh_sync_source_ids _) Er) as (Hh & _).
  apply bind_run in E as [(e & _ & [=]) | ([] & w3 & Ec & [= <-])].
  assert (Hl : heap w2 !! length (heap w) = Some []).
  { rewrite Hh. simpl. rewrite lookup_app_r by done. by rewrite Nat.sub_diag. }
  destruct (columns_loop_row _ _ _ _ _ _ _ Hl Hnd Ec) as (d & Hd & Hk).
  exists d. split; [done |]. split; [done |].
  unfold dict_values. rewrite length_map, <- (length_map fst), Hk. apply length_map.
Qed.

(** ** A referenced row without the referenced column *)

Lemma bind_raise_run {A B} (m : M A) (k : A → M B) w e w1 :
  m w = (Raise e, w1) → (m ≫= k) w = (Raise e, w1).
Proof. intros E. unfold mbind, M_bind, bind. by rewrite E. Qed.

Lemma choice_total {A} (x : A) xs w :
  ∃ v w', choice (x :: xs) w = (Ret v, w') ∧ v ∈ x :: xs ∧
          heap w' = heap w ∧ inserted_data w' = inserted_data w.
Proof.
  destruct (randbelow_run (length (x :: xs)) w) as (i & w1 & Ei).
  assert (E : choice (x :: xs) w = (Ret (default x ((x :: xs) !! i)), w1))
    by (unfold choice; by rewrite (bind_ret_run _ _ _ _ _ Ei)).
  exists (default x ((x :: xs) !! i)), w1. split; [done |].
  split; [by eapply choice_run |].
  by destruct (preserved_run _ _ _ _ _ (choice_same_core _) E) as (? & ? & _).
Qed.

Lemma process_column_key_error table hc l col fk r rs w :
  table ≠ "SyncSource_LogAlert" →
  find_foreign_key table (column_name col) = Some fk →
  inserted_data w !! referenced_table fk = Some (r :: rs) →
  (∀ r', r' ∈ r :: rs →
         dict_get (default [] (heap w !! r')) (referenced_column fk) = None) →
  ∃ w', process_column table hc l col w = (Raise (KeyError (referenced_column fk)), w') ∧
        inserted_data w' = inserted_data w.
Proof.
  intros Ht Hfk Hs Hmiss.
  assert (Hplain : ∃ w', process_plain_column table hc l col w
                         = (Raise (KeyError (referenced_column fk)), w') ∧
                         inserted_data w' = inserted_data w).
  { unfold process_plain_column. rewrite Hfk. unfold resolve_foreign_key.
    unfold mbind at 1, M_bind at 1, bind at 1. simpl. rewrite Hs.
    destruct (choice_total r rs w) as (r' & w1 & Ec & Hr' & Hh & Hi).
    rewrite (bind_ret_run _ _ _ _ _ Ec).
    exists w1. split; [| done]. apply bind_raise_run.
    unfold dict_getitem, mbind, M_bind, bind, gets, row_getitem. simpl.
    rewrite Hh. by rewrite (Hmiss r' Hr'). }
  unfold process_column. unfold mbind at 1, M_bind at 1, bind at 1. simpl.
  destruct (_sync_source_ids w) as [[|id0 ids]|]; try done.
  rewrite decide_False by (by intros [? _]). done.
Qed.

Lemma populate_table_raise_run table hc columns q w0 w e w' :
  table_columns schema !! table = Some columns →
  (logging INFO (MsgPopulating table);;
   prepare_insert_query table (map column_name columns)) w = (Ret q, w0) →
  insert_rows table columns hc q (Z.to_nat num_records) 0 w0 = (Raise e, w') →
  _populate_table table hc w = (Raise e, w').
Proof.
  intros Hc E0 E1. unfold _populate_table. rewrite Hc.
  unfold mbind, M_bind, bind in E0 |- *.
  destruct (logging INFO (MsgPopulating table) w) as [[[]|e0] wl]; [| done].
  by rewrite E0, E1.
Qed.

(** X8. [except Error] does not contain a [KeyError].  For a table other
    than [SyncSource_LogAlert] that is known to the schema and whose first
    column is a foreign key: when the referenced table has stored rows and
    none of them has the referenced column, [_populate_table] (with a
    positive target count) raises [KeyError] on its first row: it does
    not return, and neither the failed-table set nor the store is
    changed. *)
Theorem populate_table_key_error (table : string) (hc : bool) col rest fk r rs (w : World) :
  table_columns schema !! table = Some (col :: rest) →
  table ≠ "SyncSource_LogAlert" →
  find_foreign_key table (column_name col) = Some fk →
  inserted_data w !! referenced_table fk = Some (r :: rs) →
  (∀ r', r' ∈ r :: rs →
         dict_get (default [] (heap w !! r')) (referenced_column fk) = None) →
  wf_store w → 0 < num_records →
  ∃ w', _populate_table table hc w = (Raise (KeyError (referenced_column fk)), w') ∧
        failed_tables w' = failed_tables w ∧
        inserted_data w' = inserted_data w.
Proof.
  intros Hc Ht Hfk Hs Hmiss Hw Hpos.
  destruct (populate_table_prologue table (col :: rest) w) as (q & w0 & E0 & Hh0 & Hi0 & Hf0).
  (* row generation raises *)
  assert (Hgen : ∃ w1, _generate_row_data table (col :: rest) hc w0
                       = (Raise (KeyError (referenced_column fk)), w1) ∧
                       inserted_data w1 = inserted_data w).
  { rewrite generate_row_data_fill. unfold fill_row, refresh_sync_source_ids.
    rewrite decide_False by done. unfold mbind at 1, M_bind at 1, bind at 1. simpl.
    destruct (process_column_key_error table hc (length (heap w0)) col fk r rs
                (new_dict w0).2 Ht Hfk) as (w1 & E1 & Hi1).
    - simpl. by rewrite Hi0.
    - intros r' Hr'. simpl. rewrite Hh0, lookup_app_l; [by apply Hmiss |].
      apply Hw. exists (referenced_table fk). by rewrite lookup_total_alt, Hs.
    - exists w1. split; [| by rewrite Hi1; simpl; rewrite Hi0].
      apply bind_raise_run. by apply bind_raise_run. }
  destruct Hgen as (w1 & Eg & Hi1).
  assert (Erow : ∀ q, insert_row table (col :: rest) hc q w0
                      = (Raise (KeyError (referenced_column fk)), w1))
    by (intros q'; unfold insert_row; by apply bind_raise_run).
  destruct (Z.to_nat num_records) as [|n] eqn:En; [lia |].
  assert (Erows : insert_rows table (col :: rest) hc q (S n) 0 w0
                  = (Raise (KeyError (referenced_column fk)), w1)).
  { simpl. apply bind_raise_run. unfold try_except_Error. by rewrite Erow. }
  exists w1. split; [| split; [| done]].
  - eapply populate_table_raise_run; [done | exact E0 | by rewrite En].
  - pose proof (preserved_run _ _ _ _ _ (insert_rows_failed_same _ _ _ _ _ _) Erows) as Hf.
    unfold failed_same in Hf. by rewrite Hf.
Qed.

(** ** A repair engine without budget *)

Lemma repair_loop_idle rc rem w :
  max_retries ≤ rc ∨ rem = ∅ → repair_loop rc rem w = (Ret rem, w).
Proof.
  intros Hidle. funelim (repair_loop rc rem).
  - exfalso. destruct a as [Hne Hlt]. destruct Hidle as [Hle | He]; [lia | done].
  - done.
Qed.

(** X9. With a retry budget of zero or less (or with nothing failed)
    [_handle_failed_tables] does not run its loop at all: it returns at
    once, having written its opening log entry and nothing else; no
    statement is sent to the database and failed-table set, store and rows
    are as before. *)
Theorem handle_failed_tables_idle (w : World) :
  max_retries ≤ 0 ∨ failed_tables w = ∅ →
  ∃ w', _handle_failed_tables w = (Ret tt, w') ∧
        log w' = log w ++ [repair_entry] ∧
        failed_tables w' = failed_tables w ∧
        inserted_data w' = inserted_data w ∧ heap w' = heap w ∧
        db w' = db w ∧ rng w' = rng w.
Proof.
  intros Hidle. unfold _handle_failed_tables, mbind, M_bind, bind. simpl.
  rewrite repair_loop_idle by done. simpl. by eexists.
Qed.

(** ** The tables attempted by the two passes *)

Lemma draw_no_attempt : preserves (log_ext no_attempt) draw.
Proof. intros w. apply same_log_ext. unfold draw. by destruct (rng w). Qed.

Lemma db_execute_query_no_attempt q ps c :
  preserves (log_ext no_attempt) (db_execute_query q ps c).
Proof.
  intros w. apply same_log_ext. unfold db_execute_query.
  by destruct (execute_query _ _) as [[e|r] s].
Qed.

Lemma data_gen_no_attempt col t :
  preserves (log_ext no_attempt) (data_gen_generate_value col t).
Proof.
  intros w. apply same_log_ext. unfold data_gen_generate_value.
  by destruct (generate_value _ _ _).
Qed.

Lemma row_getitem_no_attempt d k : preserves (log_ext no_attempt) (row_getitem d k).
Proof. intros w. apply same_log_ext. unfold row_getitem. by destruct (dict_get d k). Qed.

Lemma set_sync_no_attempt ids :
  preserves (log_ext no_attempt) (modify (upd_sync_source_ids ids)).
Proof. intros w. by apply same_log_ext. Qed.

#[local] Hint Resolve draw_no_attempt db_execute_query_no_attempt data_gen_no_attempt
  row_getitem_no_attempt set_sync_no_attempt new_dict_log_ext dict_setitem_log_ext
  store_append_log_ext failed_update_log_ext : pres.
#[local] Hint Extern 1 (preserves (log_ext no_attempt) (logging _ _)) =>
  apply logging_log_ext; exact I : pres.

Lemma insert_row_no_attempt table columns hc q :
  preserves (log_ext no_attempt) (insert_row table columns hc q).
Proof.
  unfold insert_row, _generate_row_data, refresh_sync_source_ids, backfill_column,
    process_column, process_plain_column, resolve_foreign_key, resolve_without_rows,
    fill_placeholder, _generate_placeholder_value, dict_getitem, choice, randint,
    randbelow.
  pres.
Qed.

Lemma insert_rows_no_attempt table columns hc q n s :
  preserves (log_ext no_attempt) (insert_rows table columns hc q n s).
Proof.
  revert s. induction n as [|n IH]; intros s; simpl; [pres |].
  apply preserves_bind; [apply _ | | intros ok; apply IH].
  apply preserves_try; [apply _ | apply insert_row_no_attempt | intros e; pres].
Qed.

Lemma attempts_app l1 l2 : attempts (l1 ++ l2) = attempts l1 ++ attempts l2.
Proof. apply omap_app. Qed.

Lemma attempts_none ex :
  Forall (λ e : Level * LogMsg, no_attempt e.2) ex → attempts ex = [].
Proof.
  induction 1 as [|[lvl msg] ex He _ IH]; [done |].
  unfold attempts in *. simpl. unfold attempt_of at 1. simpl in *.
  by destruct msg.
Qed.

(** Whatever its outcome, one call of [_populate_table] writes exactly one
    attempt entry, for its own table. *)
Lemma populate_table_attempt table hc w :
  ∃ ex, log (_populate_table table hc w).2 = log w ++ ex ∧ attempts ex = [table].
Proof.
  unfold _populate_table. destruct (table_columns schema !! table) as [columns|].
  - set (rest := insert_query ← prepare_insert_query table (map column_name columns);
                 successful_inserts ← insert_rows table columns hc insert_query
                                        (Z.to_nat num_records) 0;
                 if successful_inserts <? num_records then
                   logging WARNING (MsgOnlyInserted successful_inserts num_records table);;
                   if successful_inserts =? 0 then
                     modify (upd_failed_tables (λ s, s ∪ {[table]}));; mret false
                   else mret true
                 else mret true).
    assert (Hrest : preserves (log_ext no_attempt) rest).
    { unfold rest, prepare_insert_query. pres. apply insert_rows_no_attempt. }
    destruct (Hrest (logging INFO (MsgPopulating table) w).2) as (ex & E & F).
    exists ((INFO, MsgPopulating table) :: ex). split.
    + change ((logging INFO (MsgPopulating table) ≫= λ _, rest) w)
        with (rest (logging INFO (MsgPopulating table) w).2).
      rewrite E. simpl. by rewrite <- app_assoc.
    + change ((INFO, MsgPopulating table) :: ex) with ([(INFO, MsgPopulating table)] ++ ex).
      rewrite attempts_app, (attempts_none ex F). done.
  - exists [(ERROR, MsgTableNotFound table)]. done.
Qed.

Lemma populate_tables_attempts tables hc w w' :
  for_each tables (λ table, _populate_table table hc;; mret tt) w = (Ret tt, w') →
  ∃ ex, log w' = log w ++ ex ∧ attempts ex = tables.
Proof.
  revert w. induction tables as [|t ts IH]; intros w E; simpl in E.
  - injection E as <-. exists []. by rewrite app_nil_r.
  - apply bind_run in E as [(e & _ & [=]) | ([] & w1 & Et & E)].
    apply bind_run in Et as [(e & _ & [=]) | (b & w1' & Et & [= <-])].
    destruct (populate_table_attempt t hc w) as (ex1 & E1 & A1).
    rewrite Et in E1. simpl in E1.
    destruct (IH _ E) as (ex2 & E2 & A2).
    exists (ex1 ++ ex2). split; [by rewrite E2, E1, app_assoc |].
    by rewrite attempts_app, A1, A2.
Qed.

Lemma passes_attempts ordered circular w w2 :
  populate_passes ordered circular w = (Ret tt, w2) →
  ∃ l' ex,
    (∀ w0, (order_tables ordered w0).1 = Ret l') ∧
    log w2 = log w ++ ex ∧
    attempts ex = filter (λ t, t ∉ circular) l' ++ filter (λ t, t ∈ circular) l' ∧
    attempts ex ≡ₚ l'.
Proof.
  intros E. unfold populate_passes in E.
  apply bind_run in E as [(e & [=] & _) | ([] & w1 & [= <-] & E)].
  apply bind_run in E as [(e & [=] & _) | ([] & w1' & [= <-] & E)].
  apply bind_run in E as [(e & _ & [=]) | (l' & w3 & Eo & E)].
  assert (Hl' : ∀ w0, (order_tables ordered w0).1 = Ret l').
  { intros w0. unfold order_tables in Eo |- *.
    destruct (decide (sentinels_present ordered)); by injection Eo as <- _. }
  assert (Ho : ∃ ex0, log w3 = log w ++ ex0 ∧ attempts ex0 = []).
  { unfold order_tables in Eo. destruct (decide (sentinels_present ordered)).
    - injection Eo as _ <-.
      exists [(INFO, MsgOrder ordered); (INFO, MsgCircular circular);
              (INFO, MsgSentinelOrder)].
      split; [simpl; by rewrite <- !app_assoc | done].
    - injection Eo as _ <-.
      exists [(INFO, MsgOrder ordered); (INFO, MsgCircular circular)].
      split; [simpl; by rewrite <- !app_assoc | done]. }
  destruct Ho as (ex0 & E0 & A0).
  apply bind_run in E as [(e & _ & [=]) | ([] & w4 & E1 & E)].
  apply populate_tables_attempts in E1 as (ex1 & E1 & A1).
  assert (H2 : ∃ ex2, log w2 = log w4 ++ ex2 ∧ attempts ex2 = filter (λ t, t ∈ circular) l').
  { destruct (decide (circular ≠ ∅)) as [Hc|Hc].
    - apply bind_run in E as [(e & [=] & _) | ([] & w5 & [= <-] & E)].
      apply populate_tables_attempts in E as (ex2 & E2 & A2).
      exists ((INFO, MsgSecondPass) :: ex2). split; [simpl in E2; by rewrite E2, <- app_assoc |].
      change ((INFO, MsgSecondPass) :: ex2) with ([(INFO, MsgSecondPass)] ++ ex2).
      by rewrite attempts_app, A2.
    - injection E as <-. exists []. rewrite app_nil_r. split; [done |].
      apply dec_stable in Hc. subst circular. simpl.
      clear. induction l' as [|t l' IH]; [done |].
      by rewrite filter_cons_False by set_solver. }
  destruct H2 as (ex2 & E2 & A2).
  exists l', (ex0 ++ ex1 ++ ex2). split; [done |]. split; [| split].
  - by rewrite E2, E1, E0, !app_assoc.
  - by rewrite !attempts_app, A0, A1, A2.
  - rewrite !attempts_app, A0, A1, A2. simpl.
    rewrite (Permutation_app_comm (filter _ l')).
    apply (filter_app_complement (λ t, t ∈ circular)).
Qed.

(** X10. In a run of the two passes that ends normally, [_populate_table]
    is entered exactly once for every table of the order in use: first for
    the tables outside [circular_tables], in order, then for those inside,
    in order.  (The entries are read off the log; the order in use is
    [ordered_tables] after the sentinel rule.) *)
Theorem populate_passes_attempts ordered circular (w : World) w2 :
  populate_passes ordered circular w = (Ret tt, w2) →
  ∃ l' ex,
    (∀ w0, (order_tables ordered w0).1 = Ret l') ∧
    log w2 = log w ++ ex ∧
    attempts ex = filter (λ t, t ∉ circular) l' ++ filter (λ t, t ∈ circular) l' ∧
    attempts ex ≡ₚ l'.
Proof. apply passes_attempts. Qed.

(** C7. The order that [populate_database] uses for both passes is the
    collaborator's order after the sentinel rule (the state in which the
    passes start differs from the initial one by log lines only).  When
    both sentinel tables are in [ordered_tables], that order starts with
    [SyncSource], ends with [SyncSource_LogAlert], and the other tables
    keep their relative order; when a sentinel is missing, it is
    [ordered_tables] itself.  In a run that returns, the tables are
    attempted in that order: the log shows one entry of [_populate_table]
    per table, first for the tables outside [circular_tables], then for
    those inside. *)
Theorem populate_database_sentinel_order (w : World) ordered circular :
  analyze_schema schema = true →
  get_table_insertion_order schema = (ordered, circular) → ordered ≠ [] →
  ∃ l' w0,
    only_logs w w0 ∧
    populate_database w
    = (first_pass l' circular ≫= λ _, second_pass l' circular ≫= λ _, final_check) w0 ∧
    (sentinels_present ordered →
       head l' = Some "SyncSource" ∧
       last l' = Some "SyncSource_LogAlert" ∧
       filter (λ t, ¬ is_sentinel t) l' = filter (λ t, ¬ is_sentinel t) ordered ∧
       l' = "SyncSource" :: filter (λ t, ¬ is_sentinel t) ordered
              ++ ["SyncSource_LogAlert"]) ∧
    (¬ sentinels_present ordered → l' = ordered) ∧
    (∀ b w', populate_database w = (Ret b, w') →
       ∃ ex1 ex2,
         log w' = log w ++ ex1 ++ ex2 ∧
         attempts ex1
         = filter (λ t, t ∉ circular) l' ++ filter (λ t, t ∈ circular) l').
Proof.
  intros Ha Ho Hne.
  set (w1 := (logging INFO (MsgOrder ordered) w).2).
  set (w2 := (logging INFO (MsgCircular circular) w1).2).
  destruct (order_tables_sentinels ordered w2) as (l' & w0 & Eo & Hboth & Hnone).
  exists l', w0. split; [| split; [| split; [| split]]].
  - unfold order_tables in Eo.
    destruct (decide (sentinels_present ordered)); by injection Eo as _ <-.
  - unfold populate_database. rewrite Ha, Ho. simpl. rewrite decide_False by done.
    rewrite (bind_ret_run (logging INFO (MsgOrder ordered)) _ w tt w1 eq_refl).
    rewrite (bind_ret_run (logging INFO (MsgCircular circular)) _ w1 tt w2 eq_refl).
    by rewrite (bind_ret_run _ _ _ _ _ Eo).
  - exact Hboth.
  - intros Hs. by destruct (Hnone Hs).
  - intros b w' E. rewrite (populate_database_split w ordered circular) in E by done.
    apply bind_run in E as [(e & _ & [=]) | ([] & wp & Ep & Ee)].
    destruct (passes_attempts _ _ _ _ Ep) as (l'' & ex1 & Hl'' & Hlog & Hatt & _).
    specialize (Hl'' w2). rewrite Eo in Hl''. injection Hl'' as <-.
    destruct (populate_epilogue_log circular wp) as (ex2 & E2 & _).
    rewrite Ee in E2. simpl in E2.
    exists ex1, ex2. split; [by rewrite E2, Hlog, app_assoc | done].
Qed.

(** ** The cached pool of SyncSource identifiers *)

#[local] Instance pool_same_preorder : PreOrder pool_same.
Proof.
  split; [done |]. intros w1 w2 w3 E1 E2. unfold pool_same in *. by rewrite E2.
Qed.

Lemma logging_pool_same lvl msg : preserves pool_same (logging lvl msg).
Proof. by intros w. Qed.

Lemma draw_pool_same : preserves pool_same draw.
Proof. intros w. unfold draw. by destruct (rng w). Qed.

Lemma db_execute_query_pool_same q ps c : preserves pool_same (db_execute_query q ps c).
Proof.
  intros w. unfold db_execute_query. by destruct (execute_query _ _) as [[e|r] s].
Qed.

Lemma data_gen_pool_same col t : preserves pool_same (data_gen_generate_value col t).
Proof. intros w. unfold data_gen_generate_value. by destruct (generate_value _ _ _). Qed.

Lemma row_getitem_pool_same d k : preserves pool_same (row_getitem d k).
Proof. intros w. unfold row_getitem. by destruct (dict_get d k). Qed.

Lemma dict_setitem_pool_same l k v : preserves pool_same (dict_setitem l k v).
Proof. by intros w. Qed.

#[local] Hint Resolve logging_pool_same draw_pool_same db_execute_query_pool_same
  data_gen_pool_same row_getitem_pool_same dict_setitem_pool_same : pres.

(** Processing a column never touches the cached pool. *)
Lemma process_column_pool_same table hc l col :
  preserves pool_same (process_column table hc l col).
Proof.
  unfold process_column, process_plain_column, resolve_foreign_key, resolve_without_rows,
    fill_placeholder, _generate_placeholder_value, dict_getitem, choice, randint,
    randbelow.
  pres.
Qed.

Lemma columns_loop_pool hc l columns pool w w' :
  _sync_source_ids w = Some pool → pool ≠ [] → (l < length (heap w))%nat →
  (∀ v, dict_get (default [] (heap w !! l)) "SyncSource_ID" = Some v → v ∈ pool) →
  for_each columns (process_column "SyncSource_LogAlert" hc l) w = (Ret tt, w') →
  _sync_source_ids w' = Some pool ∧
  (∀ v, dict_get (default [] (heap w' !! l)) "SyncSource_ID" = Some v → v ∈ pool) ∧
  (is_Some (dict_get (default [] (heap w !! l)) "SyncSource_ID") ∨
   (∃ col, col ∈ columns ∧ column_name col = "SyncSource_ID") →
   is_Some (dict_get (default [] (heap w' !! l)) "SyncSource_ID")).
Proof.
  intros Hp Hne. revert w Hp.
  induction columns as [|col columns IH]; intros w Hp Hl Hin E; simpl in E.
  - injection E as <-. split; [done |]. split; [done |].
    intros [H | (col & Hc & _)]; [done | by apply elem_of_nil in Hc].
  - apply bind_run in E as [(e & _ & [=]) | ([] & w1 & Ep & E)].
    pose proof (preserved_run _ _ _ _ _ (process_column_pool_same _ _ _ _) Ep) as Hp1.
    unfold pool_same in Hp1. rewrite Hp in Hp1.
    destruct (heap w !! l) as [d|] eqn:Hd;
      [| apply lookup_ge_None in Hd; lia].
    simpl in Hin.
    assert (Hstep : ∃ v, heap w1 = alter (λ d, dict_set d (column_name col) v) l (heap w) ∧
                         (column_name col = "SyncSource_ID" → v ∈ pool)).
    { destruct (decide (column_name col = "SyncSource_ID")) as [Hn|Hn].
      - unfold process_column in Ep.
        apply bind_run in Ep as [(e & [=] & _) | (ids & w0 & [= <- <-] & Ep)].
        rewrite Hp in Ep. destruct pool as [|id0 ids]; [done |].
        rewrite decide_True in Ep by done.
        apply bind_run in Ep as [(e & _ & [=]) | (v & w0 & Ec & Ep)].
        pose proof (choice_run _ _ _ _ Ec) as Hv.
        apply (same_core_heap _ _ _ _ (choice_same_core _)) in Ec.
        apply bind_run in Ep as [(e & [=] & _) | ([] & w2 & [= <-] & [= <-])].
        exists v. simpl. by rewrite Ec.
      - apply process_column_sets in Ep as (v & Hv). by exists v. }
    destruct Hstep as (v & Hh & Hv).
    assert (Hd1 : heap w1 !! l = Some (dict_set d (column_name col) v))
      by (by rewrite Hh, list_lookup_alter_eq, Hd).
    destruct (IH w1 Hp1) as (Hp' & Hin' & Hsome'); [| | done |].
    + by rewrite Hh, length_alter.
    + rewrite Hd1. simpl. intros v'. rewrite dict_get_set.
      destruct (String.eqb_spec (column_name col) "SyncSource_ID") as [Hn|Hn].
      * intros [= <-]. by apply Hv.
      * apply Hin.
    + split; [done |]. split; [done |]. intros Hor. apply Hsome'.
      rewrite Hd1. simpl. rewrite dict_get_set.
      destruct (String.eqb_spec (column_name col) "SyncSource_ID") as [Hn|Hn];
        [by left |].
      destruct Hor as [H | (c & Hc & Hcn)]; [by left |].
      apply elem_of_cons in Hc as [-> | Hc]; [done |]. right. by exists c.
Qed.

(** X11. The cached pool of SyncSource identifiers is never cleared.  When
    a non-empty pool is cached and the probe for SyncSource records now
    comes back empty, [_generate_row_data] for [SyncSource_LogAlert] keeps
    the pool as it is, and a column named [SyncSource_ID] gets a value of
    that pool, whatever the foreign keys and the store say. *)
Theorem generate_row_data_stale_pool columns (hc : bool) pool (w : World) l w' :
  _sync_source_ids w = Some pool → pool ≠ [] →
  (∃ result s', execute_query sync_source_probe (db w) = (DbResult result, s') ∧
                result_truthy result = false) →
  _generate_row_data "SyncSource_LogAlert" columns hc w = (Ret l, w') →
  _sync_source_ids w' = Some pool ∧
  (∀ v, dict_get (default [] (heap w' !! l)) "SyncSource_ID" = Some v → v ∈ pool) ∧
  ((∃ col, col ∈ columns ∧ column_name col = "SyncSource_ID") →
   is_Some (dict_get (default [] (heap w' !! l)) "SyncSource_ID")).
Proof.
  intros Hp Hne (result & s' & Hq & Hfalsy) E. rewrite generate_row_data_fill in E.
  pose proof (fill_row_value _ _ _ _ _ _ _ E) as ->.
  unfold fill_row in E.
  apply bind_run in E as [(e & _ & [=]) | ([] & w2 & Er & E)].
  assert (Hw2 : w2 = upd_db s' (new_dict w).2).
  { unfold refresh_sync_source_ids in Er. rewrite decide_True in Er by done.
    unfold mbind, M_bind, bind, db_execute_query in Er. simpl in Er.
    unfold sync_source_probe in Hq. rewrite Hq, Hfalsy in Er. by injection Er as <-. }
  apply bind_run in E as [(e & _ & [=]) | ([] & w3 & Ec & [= <-])].
  subst w2.
  assert (Hlen : (length (heap w) < length (heap (upd_db s' (new_dict w).2)))%nat)
    by (simpl; rewrite length_app; simpl; lia).
  assert (Hnew : ∀ v, dict_get (default [] (heap (upd_db s' (new_dict w).2)
                                          !! length (heap w))) "SyncSource_ID" = Some v →
                      v ∈ pool).
  { simpl. rewrite lookup_app_r by done. rewrite Nat.sub_diag. simpl. done. }
  destruct (columns_loop_pool _ _ _ pool (upd_db s' (new_dict w).2) _ Hp Hne Hlen Hnew Ec)
    as (H1 & H2 & H3).
  split; [done |]. split; [done |]. intros Hc. apply H3. by right.
Qed.

(** ** Database errors do not escape the insertion engine *)

Lemma backfill_caught columns l w :
  id_reads_keyed → caught (for_each columns (backfill_column l) w).1.
Proof.
  intros Hid. revert w. induction columns as [|col columns IH]; intros w; simpl; [done |].
  assert (H1 : (∃ w1, backfill_column l col w = (Ret tt, w1)) ∨
               (∃ msg w1, backfill_column l col w = (Raise (MySQLError msg), w1))).
  { unfold backfill_column. destruct (decide (extra col = "auto_increment"));
      [| left; by eexists].
    unfold mbind, M_bind, bind, db_execute_query. fold last_id_statement.
    destruct (execute_query last_id_statement (db w)) as [[msg|result] s'] eqn:Eq;
      [right; by eexists _, _ |].
    pose proof (Hid _ _ _ Eq) as Hrow. left.
    destruct result as [[|row0 rows]|]; try by eexists.
    destruct Hrow as (v & Hv). unfold row_getitem. rewrite Hv. simpl.
    destruct (truthy v); by eexists. }
  destruct H1 as [(w1 & E1) | (msg & w1 & E1)].
  - rewrite (bind_ret_run _ _ _ _ _ E1). apply IH.
  - by rewrite (bind_raise_run _ _ _ _ _ E1).
Qed.

Lemma insert_row_caught table columns hc q w :
  table ≠ "SyncSource_LogAlert" → no_foreign_key table columns → id_reads_keyed →
  caught (insert_row table columns hc q w).1.
Proof.
  intros Ht Hfk Hid. unfold insert_row.
  destruct (generate_row_data_total table columns hc w Ht Hfk) as (l & w1 & Eg).
  rewrite (bind_ret_run _ _ _ _ _ Eg).
  unfold mbind at 1, M_bind at 1, bind at 1. simpl.
  unfold mbind at 1, M_bind at 1, bind at 1, db_execute_query.
  destruct (execute_query _ (db w1)) as [[msg|inserted] s']; [done |].
  destruct (result_truthy inserted); [| done].
  pose proof (backfill_caught columns l (upd_db s' w1) Hid) as Hb.
  unfold mbind, M_bind, bind.
  destruct (for_each columns (backfill_column l) (upd_db s' w1)) as [[[]|e] w2]; done.
Qed.

Lemma insert_rows_returns table columns hc q n s w :
  table ≠ "SyncSource_LogAlert" → no_foreign_key table columns → id_reads_keyed →
  ∃ s' w', insert_rows table columns hc q n s w = (Ret s', w').
Proof.
  intros Ht Hfk Hid. revert s w. induction n as [|n IH]; intros s w; simpl.
  - by eexists _, _.
  - assert (Ht' : ∃ ok w1,
              try_except_Error (insert_row table columns hc q)
                (λ e, logging ERROR (MsgInsertError table e);; mret false) w
              = (Ret ok, w1)).
    { pose proof (insert_row_caught table columns hc q w Ht Hfk Hid) as Hc.
      unfold try_except_Error.
      destruct (insert_row table columns hc q w) as [[ok|[msg| |]] w1];
        try done; by eexists _, _. }
    destruct Ht' as (ok & w1 & Et). rewrite (bind_ret_run _ _ _ _ _ Et). apply IH.
Qed.

Lemma populate_table_plain_returns table hc w :
  (∀ columns, table_columns schema !! table = Some columns →
              table ≠ "SyncSource_LogAlert" ∧ no_foreign_key table columns) →
  id_reads_keyed →
  ∃ b w', _populate_table table hc w = (Ret b, w').
Proof.
  intros Hcols Hid. unfold _populate_table.
  destruct (table_columns schema !! table) as [columns|]; [| by eexists _, _].
  destruct (Hcols columns eq_refl) as [Ht Hfk].
  destruct (populate_table_prologue table columns w) as (q & w0 & E0 & _).
  destruct (insert_rows_returns table columns hc q (Z.to_nat num_records) 0 w0 Ht Hfk Hid)
    as (s' & w1 & E1).
  unfold mbind, M_bind, bind in E0 |- *.
  destruct (logging INFO (MsgPopulating table) w) as [[[]|e] wl]; [| done].
  rewrite E0, E1.
  destruct (s' <? num_records); [| by eexists _, _]. simpl.
  destruct (s' =? 0); by eexists _, _.
Qed.

(** X12. Database errors do not escape [_populate_table].  For a table
    without foreign-key column and other than [SyncSource_LogAlert], and
    whatever the database answers to the inserts and reads (errors
    included), as long as a row it returns to an identifier read has an
    ['id'], [_populate_table] returns a status: it raises nothing. *)
Theorem populate_table_returns (table : string) (hc : bool) (w : World) :
  (∀ columns, table_columns schema !! table = Some columns →
              table ≠ "SyncSource_LogAlert" ∧ no_foreign_key table columns) →
  id_reads_keyed →
  ∃ b w', _populate_table table hc w = (Ret b, w').
Proof. apply populate_table_plain_returns. Qed.

(** ** A whole run over plain tables *)

Lemma plain_table_plain table :
  plain_table table →
  ∀ columns, table_columns schema !! table = Some columns →
             table ≠ "SyncSource_LogAlert" ∧ no_foreign_key table columns.
Proof.
  intros (columns & Hc & Ht & Hfk) columns' Hc'. rewrite Hc in Hc'.
  injection Hc' as <-. done.
Qed.

Lemma populate_tables_return (tables : list string) hc w :
  (∀ t, t ∈ tables → plain_table t) → id_reads_keyed →
  ∃ w', for_each tables (λ table, _populate_table table hc;; mret tt) w = (Ret tt, w').
Proof.
  intros Hp Hid. revert w. induction tables as [|t ts IH]; intros w; simpl.
  - by eexists.
  - destruct (populate_table_plain_returns t hc w) as (b & w1 & E1);
      [apply plain_table_plain, Hp; by left | done |].
    assert (Eb : (_populate_table t hc;; mret tt) w = (Ret tt, w1))
      by (by rewrite (bind_ret_run _ _ _ _ _ E1)).
    rewrite (bind_ret_run _ _ _ _ _ Eb). apply IH.
    intros t' Ht'. apply Hp. by right.
Qed.

Lemma retry_tables_return (tables : list string) acc w :
  (∀ t, t ∈ tables → plain_table t) → id_reads_keyed →
  ∃ r w', retry_tables tables acc w = (Ret r, w').
Proof.
  intros Hp Hid. revert acc w. induction tables as [|t ts IH]; intros acc w; simpl.
  - by eexists _, _.
  - destruct (populate_table_plain_returns t true w) as (b & w1 & E1);
      [apply plain_table_plain, Hp; by left | done |].
    rewrite (bind_ret_run _ _ _ _ _ E1). apply IH.
    intros t' Ht'. apply Hp. by right.
Qed.

Lemma partial_attempts_return table columns q n a w :
  table ≠ "SyncSource_LogAlert" → no_foreign_key table columns → id_reads_keyed →
  ∃ b w', partial_attempts table columns q n a w = (Ret b, w').
Proof.
  intros Ht Hfk Hid. revert a w. induction n as [|n IH]; intros a w; simpl.
  - by eexists _, _.
  - assert (Et : ∃ stored w1,
              try_except_Error
                (ok ← insert_row table columns true q;
                 if ok : bool then logging INFO (MsgPartialSuccess table);; mret true
                 else mret false)
                (λ e, logging DEBUG (MsgAttemptFailed (a + 1) table e);; mret false) w
              = (Ret stored, w1)).
    { pose proof (insert_row_caught table columns true q w Ht Hfk Hid) as Hc.
      unfold try_except_Error, mbind, M_bind, bind.
      destruct (insert_row table columns true q w) as [[ok|[msg| |]] w1];
        try done; [destruct ok |]; by eexists _, _. }
    destruct Et as (stored & w1 & Et). rewrite (bind_ret_run _ _ _ _ _ Et).
    destruct stored; [by eexists _, _ | apply IH].
Qed.

Lemma try_partial_population_return table w :
  plain_table table → id_reads_keyed →
  ∃ b w', _try_partial_population table w = (Ret b, w').
Proof.
  intros (columns & Hc & Ht & Hfk) Hid. unfold _try_partial_population. rewrite Hc.
  rewrite (bind_ret_run _ _ w tt (logging INFO (MsgPartialStart table) w).2 eq_refl).
  assert (Eq : ∃ q w0, prepare_insert_query table (map column_name columns)
                         (logging INFO (MsgPartialStart table) w).2 = (Ret q, w0)).
  { unfold prepare_insert_query. destruct (decide (table = "SyncSource")); by eexists _, _. }
  destruct Eq as (q & w0 & Eq). rewrite (bind_ret_run _ _ _ _ _ Eq).
  by apply partial_attempts_return.
Qed.

Lemma partial_pass_return (tables : list string) rem w :
  (∀ t, t ∈ tables → plain_table t) → id_reads_keyed →
  ∃ r w', partial_pass tables rem w = (Ret r, w').
Proof.
  intros Hp Hid. revert rem w. induction tables as [|t ts IH]; intros rem w; simpl.
  - by eexists _, _.
  - destruct (try_partial_population_return t w) as (b & w1 & E1);
      [apply Hp; by left | done |].
    rewrite (bind_ret_run _ _ _ _ _ E1). apply IH.
    intros t' Ht'. apply Hp. by right.
Qed.

Lemma repair_iteration_return rc rem w :
  (∀ t, t ∈ rem → plain_table t) → id_reads_keyed →
  ∃ r w', repair_iteration rc rem w = (Ret r, w').
Proof.
  intros Hp Hid. unfold repair_iteration.
  rewrite (bind_ret_run _ _ w tt (logging INFO (MsgRetry rc max_retries) w).2 eq_refl).
  destruct (shuffle_perm (elements rem) (logging INFO (MsgRetry rc max_retries) w).2)
    as (x' & w1 & Es & Hperm).
  rewrite (bind_ret_run _ _ _ _ _ Es).
  destruct (retry_tables_return x' ∅ w1) as (success & w2 & Er); [| done |].
  { intros t Ht. apply Hp. rewrite Hperm in Ht. by apply elem_of_elements in Ht. }
  rewrite (bind_ret_run _ _ _ _ _ Er). simpl.
  destruct (decide (success = ∅ ∧ rem ∖ success ≠ ∅)); [| by eexists _, _].
  rewrite (bind_ret_run _ _ w2 tt (logging INFO MsgNoProgress w2).2 eq_refl).
  apply partial_pass_return; [| done].
  intros t Ht. apply Hp. apply elem_of_elements in Ht. set_solver.
Qed.

Lemma repair_loop_return rc rem :
  ∀ w, (∀ t, t ∈ rem → plain_table t) → id_reads_keyed →
       ∃ r w', repair_loop rc rem w = (Ret r, w').
Proof.
  funelim (repair_loop rc rem); intros w Hp Hid.
  - destruct (repair_iteration_return (retry_count + 1) remaining_tables w Hp Hid)
      as (rem' & w1 & Ei).
    rewrite (bind_ret_run _ _ _ _ _ Ei).
    destruct (repair_iteration_failed remaining_tables _ _ _ _ _ (reflexivity _) Ei)
      as [_ Hsub].
    specialize (Hsub _ eq_refl).
    match goal with
    | IH : ∀ _ : gset string, World → ∀ _ : World, _ |- _ => apply (IH rem' w w1); [| done]
    end.
    intros t Ht. apply Hp. by apply Hsub.
  - by eexists _, _.
Qed.

Lemma handle_failed_tables_return w :
  (∀ t, t ∈ failed_tables w → plain_table t) → id_reads_keyed →
  ∃ w', _handle_failed_tables w = (Ret tt, w').
Proof.
  intros Hp Hid. unfold _handle_failed_tables.
  rewrite (bind_ret_run _ _ w tt (logging INFO MsgRepairStart w).2 eq_refl).
  rewrite (bind_ret_run (gets failed_tables) _ (logging INFO MsgRepairStart w).2
             (failed_tables w) _ eq_refl).
  destruct (repair_loop_return 0 (failed_tables w) (logging INFO MsgRepairStart w).2 Hp Hid)
    as (r & w1 & El).
  rewrite (bind_ret_run _ _ _ _ _ El). by eexists.
Qed.

(** X13. A whole run over plain tables ends normally.  When every table
    of the insertion order is known to the schema, has no foreign-key
    column and is not [SyncSource_LogAlert], and a row returned by an
    identifier read has an ['id'], [populate_database] returns a status
    whatever else the database does (errors included): no exception
    escapes, from the two passes or from the repair engine. *)
Theorem populate_database_returns (w : World) :
  (∀ t, t ∈ (get_table_insertion_order schema).1 ∨ t ∈ failed_tables w → plain_table t) →
  id_reads_keyed →
  ∃ b w', populate_database w = (Ret b, w').
Proof.
  intros Hp Hid. unfold populate_database.
  destruct (analyze_schema schema); [| by eexists _, _]. simpl.
  destruct (get_table_insertion_order schema) as [ordered circular] eqn:Eo.
  simpl in Hp.
  destruct (decide (ordered = [])); [by eexists _, _ |].
  set (F := failed_tables w ∪ list_to_set ordered).
  assert (HF : ∀ t, t ∈ F → plain_table t).
  { intros t [Ht | Ht%elem_of_list_to_set]%elem_of_union; apply Hp; auto. }
  rewrite (bind_ret_run _ _ w tt (logging INFO (MsgOrder ordered) w).2 eq_refl).
  set (w1 := (logging INFO (MsgOrder ordered) w).2).
  rewrite (bind_ret_run _ _ w1 tt (logging INFO (MsgCircular circular) w1).2 eq_refl).
  set (w2 := (logging INFO (MsgCircular circular) w1).2).
  assert (Eord : ∃ l' w3, order_tables ordered w2 = (Ret l', w3) ∧
                          failed_tables w3 = failed_tables w).
  { unfold order_tables. destruct (decide (sentinels_present ordered)); by eexists _, _. }
  destruct Eord as (l' & w3 & Eord & Hf3).
  rewrite (bind_ret_run _ _ _ _ _ Eord).
  assert (Hl' : ∀ t, t ∈ l' → t ∈ F).
  { intros t Ht. apply elem_of_union_r, elem_of_list_to_set.
    by eapply order_tables_elem. }
  assert (Hw3 : failed_tables w3 ⊆ F) by (rewrite Hf3; apply union_subseteq_l).
  destruct (populate_tables_return (filter (λ t, t ∉ circular) l') false w3)
    as (w4 & E4); [| done |].
  { intros t [_ Ht]%list_elem_of_filter. auto. }
  assert (Hw4 : failed_tables w4 ⊆ F).
  { eapply (preserved_run (failed_within F)); [| exact E4 | exact Hw3].
    apply populate_tables_failed_within. intros t [_ Ht]%list_elem_of_filter. auto. }
  unfold first_pass. rewrite (bind_ret_run _ _ _ _ _ E4).
  assert (E5 : ∃ w5, second_pass l' circular w4 = (Ret tt, w5)).
  { unfold second_pass. destruct (decide (circular ≠ ∅)); [| by eexists].
    rewrite (bind_ret_run _ _ w4 tt (logging INFO MsgSecondPass w4).2 eq_refl).
    destruct (populate_tables_return (filter (λ t, t ∈ circular) l') true
                (logging INFO MsgSecondPass w4).2) as (w5 & E5); [| done |].
    { intros t [_ Ht]%list_elem_of_filter. auto. }
    assert (Hw5 : failed_tables w5 ⊆ F).
    { eapply (preserved_run (failed_within F)); [| exact E5 | exact Hw4].
      apply populate_tables_failed_within. intros t [_ Ht]%list_elem_of_filter. auto. }
    unfold circular_pass. rewrite (bind_ret_run _ _ _ _ _ E5).
    unfold check_failed_tables.
    rewrite (bind_ret_run (gets failed_tables) _ w5 (failed_tables w5) w5 eq_refl).
    destruct (decide (failed_tables w5 ≠ ∅)); [| by eexists].
    rewrite (bind_ret_run _ _ w5 tt
               (logging WARNING (MsgSomeFailed (failed_tables w5)) w5).2 eq_refl).
    apply handle_failed_tables_return; [| done].
    intros t Ht. apply HF, Hw5, Ht. }
  destruct E5 as (w5 & E5). rewrite (bind_ret_run _ _ _ _ _ E5).
  unfold final_check, mbind, M_bind, bind. simpl.
  destruct (bool_decide (size (failed_tables w5) = 0%nat)); by eexists _, _.
Qed.

(** ** What the repair engine takes for a repaired table *)

Lemma added_trans t w1 w2 w3 :
  grows w1 w2 → grows w2 w3 →
  added t w1 w3 = (added t w1 w2 + added t w2 w3)%nat.
Proof.
  intros [H12 _] [H23 _]. unfold added.
  pose proof (prefix_length _ _ (H12 t)). pose proof (prefix_length _ _ (H23 t)). lia.
Qed.

Lemma populate_table_true_added table hc w w' :
  wf_store w → 0 < num_records →
  _populate_table table hc w = (Ret true, w') → (1 ≤ added table w w')%nat.
Proof.
  intros Hw Hpos E.
  destruct (table_columns schema !! table) as [columns|] eqn:Hc.
  - destruct (populate_table_run table hc columns w true w' Hc Hw E)
      as (n & Hn & _ & Hfail & _).
    destruct (decide (n = 0)) as [Hz | Hz]; [| lia].
    destruct Hfail as [[=] _]. lia.
  - unfold _populate_table in E. rewrite Hc in E. discriminate E.
Qed.

Lemma retry_tables_evidence tables acc w r w' :
  wf_store w → 0 < num_records →
  retry_tables tables acc w = (Ret r, w') →
  wf_store w' ∧ grows w w' ∧ ∀ t, t ∈ r → t ∈ acc ∨ (1 ≤ added t w w')%nat.
Proof.
  intros Hw Hpos. revert acc w Hw.
  induction tables as [|t0 ts IH]; intros acc w Hw E; simpl in E.
  - injection E as <- <-. split; [done |]. split; [apply grows_refl | auto].
  - apply bind_run in E as [(e & _ & [=]) | (ok & w1 & Et & E)].
    destruct (preserved_run _ _ _ _ _ (populate_table_rows_ok _ _) Et Hw) as [Hw1 G1].
    destruct (IH _ _ Hw1 E) as (Hw' & G2 & Hr).
    split; [done |]. split; [by eapply grows_trans |].
    intros t Ht. rewrite (added_trans t w w1 w' G1 G2).
    destruct (Hr t Ht) as [Hacc | Hadd]; [| right; lia].
    destruct ok; [| by left].
    apply elem_of_union in Hacc as [Hacc | ->%elem_of_singleton]; [by left |].
    right. pose proof (populate_table_true_added _ _ _ _ Hw Hpos Et). lia.
Qed.

Lemma partial_pass_evidence tables rem w r w' :
  wf_store w → partial_pass tables rem w = (Ret r, w') →
  wf_store w' ∧ grows w w' ∧ ∀ t, t ∈ rem → t ∉ r → (1 ≤ added t w w')%nat.
Proof.
  revert rem w. induction tables as [|t0 ts IH]; intros rem w Hw E; simpl in E.
  - injection E as <- <-. split; [done |]. split; [apply grows_refl | done].
  - apply bind_run in E as [(e & _ & [=]) | (ok & w1 & Et & E)].
    destruct (preserved_run _ _ _ _ _ (try_partial_population_rows_ok _) Et Hw)
      as [Hw1 G1].
    destruct (IH _ _ Hw1 E) as (Hw' & G2 & Hr).
    split; [done |]. split; [by eapply grows_trans |].
    intros t Ht Hnr. rewrite (added_trans t w w1 w' G1 G2).
    destruct ok.
    + destruct (decide (t = t0)) as [-> | Hne].
      * destruct (try_partial_population_run _ _ _ _ Hw Et) as (_ & _ & Hyes & _).
        destruct (Hyes eq_refl) as [Hone _]. lia.
      * assert (1 ≤ added t w1 w')%nat; [| lia]. apply Hr; [set_solver | done].
    + assert (1 ≤ added t w1 w')%nat; [| lia]. by apply Hr.
Qed.

Lemma repair_iteration_evidence rc rem w r w' :
  wf_store w → 0 < num_records →
  repair_iteration rc rem w = (Ret r, w') →
  wf_store w' ∧ grows w w' ∧ ∀ t, t ∈ rem → t ∉ r → (1 ≤ added t w w')%nat.
Proof.
  intros Hw Hpos E. unfold repair_iteration in E.
  apply bind_run in E as [(e & [=] & _) | ([] & w1 & [= <-] & E)].
  apply bind_run in E as [(e & _ & [=]) | (tables & w2 & Es & E)].
  pose proof (preserved_run _ _ _ _ _ (frame_shuffle _) Es) as Hf2.
  destruct (frame_rows_ok _ _ Hf2) as [Hw2 G2].
  { by apply (logging_rows_ok INFO (MsgRetry rc max_retries) w). }
  pose proof (proj2 (logging_rows_ok INFO (MsgRetry rc max_retries) w Hw)) as G1.
  pose proof (grows_trans _ _ _ G1 G2) as G12.
  apply bind_run in E as [(e & _ & [=]) | (success & w3 & Er & E)].
  destruct (retry_tables_evidence _ _ _ _ _ Hw2 Hpos Er) as (Hw3 & G3 & Hs).
  pose proof (grows_trans _ _ _ G12 G3) as G13.
  assert (Hsucc : ∀ t, t ∈ success → (1 ≤ added t w w3)%nat).
  { intros t Ht. rewrite (added_trans t w w2 w3 G12 G3).
    destruct (Hs t Ht) as [Hin | Hadd]; [by apply not_elem_of_empty in Hin | lia]. }
  destruct (decide (success = ∅ ∧ rem ∖ success ≠ ∅)).
  - apply bind_run in E as [(e & [=] & _) | ([] & w4 & [= <-] & E)].
    destruct (partial_pass_evidence _ _ _ _ _
                (proj1 (logging_rows_ok INFO MsgNoProgress w3 Hw3)) E) as (Hw' & G4 & Hp).
    pose proof (proj2 (logging_rows_ok INFO MsgNoProgress w3 Hw3)) as G3'.
    pose proof (grows_trans _ _ _ G3' G4) as G34.
    split; [done |]. split; [by eapply grows_trans |].
    intros t Ht Hnr. rewrite (added_trans t w w3 w' G13 G34).
    destruct (decide (t ∈ success)) as [Hin | Hnin].
    + pose proof (Hsucc t Hin). lia.
    + assert (1 ≤ added t (logging INFO MsgNoProgress w3).2 w')%nat
        by (apply Hp; [set_solver | done]).
      unfold added in *. simpl in *. lia.
  - injection E as <- <-. split; [done |]. split; [done |].
    intros t Ht Hnr. apply Hsucc. set_solver.
Qed.

Lemma repair_loop_evidence rc rem :
  ∀ w r w', wf_store w → 0 < num_records →
            repair_loop rc rem w = (Ret r, w') →
            wf_store w' ∧ grows w w' ∧ ∀ t, t ∈ rem → t ∉ r → (1 ≤ added t w w')%nat.
Proof.
  funelim (repair_loop rc rem); intros w r w' Hw Hpos E.
  - apply bind_run in E as [(e & _ & [=]) | (rem' & w1 & Ei & E)].
    destruct (repair_iteration_evidence _ _ _ _ _ Hw Hpos Ei) as (Hw1 & G1 & H1).
    match goal with
    | IH : ∀ _ : gset string, World → ∀ _ : World, _ |- _ =>
        destruct (IH rem' w w1 r w' Hw1 Hpos E) as (Hw' & G2 & H2)
    end.
    split; [done |]. split; [by eapply grows_trans |].
    intros t Ht Hnr. rewrite (added_trans t w w1 w' G1 G2).
    destruct (decide (t ∈ rem')) as [Hin | Hnin].
    + pose proof (H2 t Hin Hnr). lia.
    + pose proof (H1 t Ht Hnin). lia.
  - injection E as <- <-. split; [done |]. split; [apply grows_refl | done].
Qed.

(** X14. The repair engine drops a table from the failed-table set only
    when it has stored a row for it.  With a positive target count, every
    table that was failed on entry to [_handle_failed_tables] and is no
    longer failed when it returns has at least one more stored row than
    on entry. *)
Theorem handle_failed_tables_evidence (w : World) w' :
  wf_store w → 0 < num_records →
  _handle_failed_tables w = (Ret tt, w') →
  ∀ t, t ∈ failed_tables w → t ∉ failed_tables w' → (1 ≤ added t w w')%nat.
Proof.
  intros Hw Hpos E t Ht Hnt. unfold _handle_failed_tables in E.
  apply bind_run in E as [(e & [=] & _) | ([] & w1 & [= <-] & E)].
  apply bind_run in E as [(e & [=] & _) | (rem & w1' & [= <- <-] & E)].
  apply bind_run in E as [(e & _ & [=]) | (r & w2 & El & [= <-])].
  destruct (repair_loop_evidence _ _ _ _ _
              (proj1 (logging_rows_ok INFO MsgRepairStart w Hw)) Hpos El) as (_ & _ & H).
  simpl in Hnt, H. specialize (H t Ht Hnt). unfold added in *. simpl in *. done.
Qed.

(** ** A target count of zero or less *)

#[local] Instance only_logs_preorder : PreOrder only_logs.
Proof.
  split; [done |].
  intros w1 w2 w3 (A1 & A2 & A3 & A4 & A5 & A6 & A7) (B1 & B2 & B3 & B4 & B5 & B6 & B7).
  unfold only_logs. by rewrite B1, B2, B3, B4, B5, B6, B7.
Qed.

Lemma populate_table_zero table hc w :
  is_Some (table_columns schema !! table) → num_records ≤ 0 →
  ∃ w', _populate_table table hc w = (Ret true, w') ∧ only_logs w w'.
Proof.
  intros [columns Hc] Hn. unfold _populate_table. rewrite Hc, Z2Nat.nonpos by done.
  assert (Hlt : (0 <? num_records) = false) by (apply Z.ltb_ge; lia).
  unfold prepare_insert_query, mbind, M_bind, bind. simpl.
  destruct (decide (table = "SyncSource")); simpl; rewrite Hlt; by eexists.
Qed.

Lemma populate_tables_zero (tables : list string) hc w :
  (∀ t, t ∈ tables → is_Some (table_columns schema !! t)) → num_records ≤ 0 →
  ∃ w', for_each tables (λ table, _populate_table table hc;; mret tt) w = (Ret tt, w') ∧
        only_logs w w'.
Proof.
  intros Hk Hn. revert w. induction tables as [|t ts IH]; intros w; simpl.
  - by eexists.
  - destruct (populate_table_zero t hc w) as (w1 & E1 & O1); [apply Hk; by left | done |].
    assert (Eb : (_populate_table t hc;; mret tt) w = (Ret tt, w1))
      by (by rewrite (bind_ret_run _ _ _ _ _ E1)).
    rewrite (bind_ret_run _ _ _ _ _ Eb).
    destruct (IH (λ t' Ht', Hk t' (list_elem_of_further _ _ _ Ht')) w1) as (w2 & E2 & O2).
    exists w2. split; [done | by etransitivity].
Qed.

(** X15. With a target count of zero or less, a run of [populate_database]
    over tables that are all known to the schema, started with nothing
    failed, returns true and touches nothing but the log: no row is
    generated or stored, the database and the synthesizer are not called,
    and no table is marked as failed. *)
Theorem populate_database_zero_target (w : World) :
  num_records ≤ 0 → analyze_schema schema = true →
  (get_table_insertion_order schema).1 ≠ [] →
  (∀ t, t ∈ (get_table_insertion_order schema).1 → is_Some (table_columns schema !! t)) →
  failed_tables w = ∅ →
  ∃ w', populate_database w = (Ret true, w') ∧ only_logs w w'.
Proof.
  intros Hn Ha Hne Hk Hf. unfold populate_database. rewrite Ha. simpl.
  destruct (get_table_insertion_order schema) as [ordered circular] eqn:Eo.
  simpl in Hne, Hk. rewrite decide_False by done.
  rewrite (bind_ret_run _ _ w tt (logging INFO (MsgOrder ordered) w).2 eq_refl).
  set (w1 := (logging INFO (MsgOrder ordered) w).2).
  rewrite (bind_ret_run _ _ w1 tt (logging INFO (MsgCircular circular) w1).2 eq_refl).
  set (w2 := (logging INFO (MsgCircular circular) w1).2).
  assert (O2 : only_logs w w2) by done.
  assert (Eord : ∃ l' w3, order_tables ordered w2 = (Ret l', w3) ∧ only_logs w2 w3).
  { unfold order_tables. destruct (decide (sentinels_present ordered)); by eexists _, _. }
  destruct Eord as (l' & w3 & Eord & O3).
  rewrite (bind_ret_run _ _ _ _ _ Eord).
  assert (Hl' : ∀ t, t ∈ l' → is_Some (table_columns schema !! t)).
  { intros t Ht. apply Hk. by eapply order_tables_elem. }
  destruct (populate_tables_zero (filter (λ t, t ∉ circular) l') false w3)
    as (w4 & E4 & O4); [| done |].
  { intros t [_ Ht]%list_elem_of_filter. auto. }
  unfold first_pass. rewrite (bind_ret_run _ _ _ _ _ E4).
  assert (O14 : only_logs w w4) by (do 2 (etransitivity; [| eassumption]); done).
  assert (E5 : ∃ w5, second_pass l' circular w4 = (Ret tt, w5) ∧ only_logs w4 w5).
  { unfold second_pass. destruct (decide (circular ≠ ∅)); [| by eexists].
    rewrite (bind_ret_run _ _ w4 tt (logging INFO MsgSecondPass w4).2 eq_refl).
    destruct (populate_tables_zero (filter (λ t, t ∈ circular) l') true
                (logging INFO MsgSecondPass w4).2) as (w5 & E5 & O5); [| done |].
    { intros t [_ Ht]%list_elem_of_filter. auto. }
    unfold circular_pass. rewrite (bind_ret_run _ _ _ _ _ E5).
    assert (O45 : only_logs w4 w5) by (etransitivity; [| exact O5]; done).
    unfold check_failed_tables.
    rewrite (bind_ret_run (gets failed_tables) _ w5 (failed_tables w5) w5 eq_refl).
    assert (Hf5 : failed_tables w5 = ∅).
    { destruct O45 as (_ & -> & _). destruct O14 as (_ & -> & _). done. }
    rewrite decide_False by (by intros H; apply H). by exists w5. }
  destruct E5 as (w5 & E5 & O5). rewrite (bind_ret_run _ _ _ _ _ E5).
  assert (O15 : only_logs w w5) by (by etransitivity).
  unfold final_check.
  rewrite (bind_ret_run (gets failed_tables) _ w5 (failed_tables w5) w5 eq_refl).
  destruct O15 as (H1 & H2 & H3 & H4 & H5 & H6 & H7).
  rewrite H2, Hf. cbv zeta.
  assert (Hs : bool_decide (size (∅ : gset string) = 0%nat) = true)
    by (apply bool_decide_eq_true_2, size_empty).
  rewrite Hs. eexists. split; [reflexivity |]. by repeat split.
Qed.

(** ** The identifier that the database assigned *)

Lemma backfill_column_id l col w w' :
  id_reads_truthy → backfill_column l col w = (Ret tt, w') →
  (extra col ≠ "auto_increment" ∧ heap w' = heap w) ∨
  (extra col = "auto_increment" ∧
   ∃ v, id_read v ∧ heap w' = alter (λ d, dict_set d (column_name col) v) l (heap w)).
Proof.
  intros Hid E. unfold backfill_column in E.
  destruct (decide (extra col = "auto_increment")) as [He|He];
    [| injection E as <-; by left].
  right. split; [done |].
  destruct (Hid (db w)) as (row0 & rows & s' & v & Eq & Hv & Ht).
  unfold mbind, M_bind, bind, db_execute_query in E. fold last_id_statement in E.
  rewrite Eq in E. unfold row_getitem in E. rewrite Hv in E. simpl in E.
  rewrite Ht in E. injection E as <-.
  exists v. split; [by exists (db w), row0, rows, s' | done].
Qed.

Lemma backfill_loop_ids columns l w w' (K : string → Prop) :
  id_reads_truthy → (l < length (heap w))%nat →
  (∀ k, K k → ∃ v, dict_get (default [] (heap w !! l)) k = Some v ∧ id_read v) →
  for_each columns (backfill_column l) w = (Ret tt, w') →
  ∀ k, K k ∨ (∃ col, col ∈ columns ∧ extra col = "auto_increment" ∧ column_name col = k) →
       ∃ v, dict_get (default [] (heap w' !! l)) k = Some v ∧ id_read v.
Proof.
  intros Hid. revert w K. induction columns as [|col columns IH]; intros w K Hl HK E; simpl in E.
  - injection E as <-. intros k [Hk | (col & Hc & _)]; [by apply HK |].
    by apply elem_of_nil in Hc.
  - apply bind_run in E as [(e & _ & [=]) | ([] & w1 & Eb & E)].
    destruct (backfill_column_id l col w w1 Hid Eb) as [[He Hh] | (He & v & Hv & Hh)].
    + intros k Hk.
      apply (IH w1 K); [by rewrite Hh | by rewrite Hh | done |].
      destruct Hk as [Hk | (c & Hc & Hce & Hcn)]; [by left |].
      apply elem_of_cons in Hc as [-> | Hc]; [done |]. right. by exists c.
    + destruct (heap w !! l) as [d|] eqn:Hd; [| apply lookup_ge_None in Hd; lia].
      assert (Hd1 : heap w1 !! l = Some (dict_set d (column_name col) v))
        by (by rewrite Hh, list_lookup_alter_eq, Hd).
      intros k Hk.
      apply (IH w1 (λ k, K k ∨ k = column_name col)); [| | done |].
      * by rewrite Hh, length_alter.
      * intros k' Hk'. rewrite Hd1. simpl. rewrite dict_get_set.
        destruct (String.eqb_spec (column_name col) k') as [Heq | Hne].
        { by exists v. }
        destruct Hk' as [Hk' | ->]; [by apply HK | done].
      * destruct Hk as [Hk | (c & Hc & Hce & Hcn)]; [by left; left |].
        apply elem_of_cons in Hc as [-> | Hc]; [by left; right |]. right. by exists c.
Qed.


End Populator.

(** * The populator on the example inputs *)

(** C1, counterexample.  With no circular table the schema's only table,
    [Ghost], is in the failed-table set at the end of the passes, and the
    run of [populate_database] ends without entering the repair engine. *)
Lemma repair_engine_skipped_without_cycles :
  let w := init (DbState := unit) (GenState := unit) tt tt [] in
  let after_passes := populate_passes silent_db constant_gen (ghost_schema ∅) 10
                        ["Ghost"] ∅ w in
  let run := populate_database silent_db constant_gen (ghost_schema ∅) 10 5 w in
  after_passes.1 = Ret tt ∧
  "Ghost" ∈ failed_tables after_passes.2 ∧
  run.1 = Ret false ∧
  repair_entry ∉ log run.2.
Proof.
  split; [vm_compute; reflexivity |]. split; [| split; [vm_compute; reflexivity |]].
  - compute_done.
  - compute_done.
Qed.

(** With [Item] circular and a database that refuses every insert, the
    table fails in the second pass and the repair engine is entered. *)
Lemma repair_engine_invocation_witness :
  ∃ ex, log (populate_database silent_db constant_gen (item_schema true {["Item"]}) 2 2
               (init tt tt [])).2 = [] ++ ex ∧
        repair_entry ∈ ex.
Proof.
  destruct (repair_engine_invocation silent_db constant_gen (item_schema true {["Item"]})
              2 2 (init tt tt []) ["Item"] {["Item"]} eq_refl eq_refl ltac:(done))
    as (ex & Hlog & _ & Hyes).
  exists ex. split; [exact Hlog |].
  eapply Hyes.
  - apply (nonempty_elem _ "Item"). compute_done.
  - vm_compute. reflexivity.
  - apply (nonempty_elem _ "Item"). compute_done.
Defined.







(** C6, the failing run.  With [Ghost] listed as a circular table and no
    metadata for it, [populate_database] does not return: the repair
    engine's partial-population attempt raises [KeyError]. *)
Lemma absent_table_raises_key_error :
  (populate_database silent_db constant_gen (ghost_schema {["Ghost"]}) 10 5
     (init tt tt [])).1
  = Raise (KeyError "Ghost").
Proof. vm_compute. reflexivity. Qed.

(** Both sentinels in the middle of the order: the run attempts
    [SyncSource] first and [SyncSource_LogAlert] last. *)
Lemma populate_database_sentinel_order_witness :
  let w := init (DbState := unit) (GenState := unit) tt tt [] in
  let run := populate_database sync_source_db constant_gen sentinel_schema 1 5 w in
  sentinels_present ["a"; "SyncSource_LogAlert"; "b"; "SyncSource"; "c"] ∧
  run.1 = Ret true ∧
  ∃ ex1 ex2, log run.2 = log w ++ ex1 ++ ex2 ∧
             attempts ex1 = ["SyncSource"; "a"; "b"; "c"; "SyncSource_LogAlert"].
Proof.
  intros w run.
  assert (Hs : sentinels_present ["a"; "SyncSource_LogAlert"; "b"; "SyncSource"; "c"])
    by (split; compute_done).
  assert (Ho : run.1 = Ret true) by (vm_compute; reflexivity).
  assert (E : run = (Ret true, run.2)) by (rewrite <- Ho; apply surjective_pairing).
  split; [exact Hs |]. split; [exact Ho |].
  destruct (populate_database_sentinel_order sync_source_db constant_gen sentinel_schema
              1 5 w ["a"; "SyncSource_LogAlert"; "b"; "SyncSource"; "c"] ∅
              eq_refl eq_refl ltac:(done))
    as (l' & w0 & _ & _ & Hboth & _ & Hrun).
  destruct (Hboth Hs) as (_ & _ & _ & ->).
  destruct (Hrun true run.2 E) as (ex1 & ex2 & Hlog & Hatt).
  exists ex1, ex2. split; [exact Hlog |]. rewrite Hatt. vm_compute. reflexivity.
Defined.

(** An integer primary key, with 7 as the next random draw: the value is
    1000007 and the tape is consumed. *)
Lemma generate_placeholder_value_spec_witness :
  let w := init (DbState := unit) (GenState := unit) tt tt [7%nat] in
  column_key id_column = "PRI" ∧ lower (data_type id_column) ∈ integer_family ∧
  _generate_placeholder_value constant_gen id_column w
  = (Ret (VInt 1000007), upd_rng [] w).
Proof.
  intros w.
  assert (Hk : column_key id_column = "PRI") by reflexivity.
  assert (Ht : lower (data_type id_column) ∈ integer_family) by compute_done.
  split; [exact Hk |]. split; [exact Ht |].
  destruct (generate_placeholder_value_spec constant_gen id_column w)
    as (k & w1 & _ & Htape & Hint & _).
  destruct (Htape 7%nat [] eq_refl) as [-> ->].
  exact (proj1 (Hint Hk Ht)).
Defined.


(** The database answers 0 to every identifier read: the stored row keeps
    the generated [id]. *)
Lemma backfill_skipped_on_falsy_id_witness :
  let w := init (DbState := nat) (GenState := unit) 3%nat tt [] in
  let w' := (insert_row flaky_db constant_gen (item_schema true ∅)
               "Item" item_columns false "INSERT" w).2 in
  extra id_column = "auto_increment" ∧
  falsy_id_read (flaky_db last_id_statement (db w)).1 ∧
  (∃ w1, backfill_column flaky_db 0%nat id_column w = (Ret tt, w1) ∧ heap w1 = heap w) ∧
  (∀ s, falsy_id_read (flaky_db last_id_statement s).1) ∧
  ∃ l w1,
    _generate_row_data flaky_db constant_gen (item_schema true ∅)
      "Item" item_columns false w = (Ret l, w1) ∧
    inserted_data w' !!! "Item" = inserted_data w !!! "Item" ++ [l] ∧
    heap w' !! l = heap w1 !! l.
Proof.
  intros w w'.
  assert (He : extra id_column = "auto_increment") by reflexivity.
  assert (Hall : ∀ s, falsy_id_read (flaky_db last_id_statement s).1)
    by (intros s; exists (VInt 0); split; reflexivity).
  destruct (backfill_skipped_on_falsy_id flaky_db constant_gen (item_schema true ∅))
    as (Hcol & Hrow).
  split; [exact He |]. split; [exact (Hall _) |].
  split; [exact (Hcol 0%nat id_column w He (Hall _)) |]. split; [exact Hall |].
  apply (Hrow Hall "Item" item_columns false "INSERT" w w' (wf_store_init _ _ _)).
  vm_compute. reflexivity.
Defined.

(** ** Further properties, on the example inputs *)

(** Both sentinels in the middle of a duplicate-free order. *)
Lemma order_tables_permutation_witness :
  let ordered_tables := ["a"; "SyncSource_LogAlert"; "b"; "SyncSource"; "c"] in
  NoDup ordered_tables ∧
  ∃ l' w', order_tables ordered_tables (init (DbState := unit) (GenState := unit) tt tt [])
           = (Ret l', w') ∧
           NoDup l' ∧ l' ≡ₚ ordered_tables.
Proof.
  intros ordered_tables.
  assert (Hnd : NoDup ordered_tables) by compute_done.
  split; [exact Hnd |].
  destruct (order_tables_permutation ordered_tables
              (init (DbState := unit) (GenState := unit) tt tt []))
    as (l' & w' & E & _ & Hperm).
  exists l', w'. split; [exact E |]. exact (Hperm Hnd).
Defined.

(** One partial-population attempt on [Item] against a database that
    accepts every insert. *)
Lemma try_partial_population_result_witness :
  let w := init (DbState := unit) (GenState := unit) tt tt [] in
  let run := _try_partial_population parent_db constant_gen (item_schema true ∅) "Item" w in
  wf_store w ∧ run.1 = Ret true ∧ added "Item" w run.2 = 1%nat ∧
  failed_tables run.2 = failed_tables w.
Proof.
  intros w run. split; [apply wf_store_init |].
  assert (Ho : run.1 = Ret true) by (vm_compute; reflexivity).
  split; [exact Ho |].
  destruct (try_partial_population_result parent_db constant_gen (item_schema true ∅)
              "Item" w run.1 run.2 (wf_store_init _ _ _) (surjective_pairing _))
    as (_ & Hf & Hyes & _).
  split; [exact (proj1 (Hyes Ho)) | exact Hf].
Defined.

(** Two inserts into [Item], whose [id] is auto-increment, against a
    database whose reads fail. *)
Lemma populate_table_unreadable_id_witness :
  let w := init (DbState := unit) (GenState := unit) tt tt [] in
  let run := _populate_table unreadable_db constant_gen (item_schema true ∅) 2
               "Item" false w in
  wf_store w ∧ run.1 = Ret false ∧
  inserted_data run.2 = inserted_data w ∧
  failed_tables run.2 = failed_tables w ∪ {["Item"]}.
Proof.
  intros w run. split; [apply wf_store_init |].
  assert (Ho : run.1 = Ret false) by (vm_compute; reflexivity).
  split; [exact Ho |].
  assert (Hc : ∃ col, col ∈ item_columns ∧ extra col = "auto_increment").
  { exists (make_column "id" "int" "NO" "PRI" "auto_increment"). split; [apply elem_of_cons; by left | reflexivity]. }
  assert (Hr : ∀ s : unit, ∃ msg s',
             unreadable_db last_id_statement s = (DbError msg, s')).
  { intros []. by exists "read failed", tt. }
  destruct (populate_table_unreadable_id unreadable_db constant_gen (item_schema true ∅) 2
              "Item" false item_columns w eq_refl
              Hc
              Hr
              (wf_store_init _ _ _)) as (Hd & Hf).
  split; [exact Hd |]. exact (proj2 (Hf ltac:(lia) false Ho)).
Defined.

(** Two inserts into [Item] against a database that accepts every insert
    and answers every identifier read with a row that has an [id]. *)
Lemma populate_table_complete_witness :
  let w := init (DbState := unit) (GenState := unit) tt tt [] in
  wf_store w ∧ accepts_inserts parent_db ∧ id_reads_well_formed parent_db ∧
  no_foreign_key (item_schema true ∅) "Item" item_columns ∧
  ∃ w', _populate_table parent_db constant_gen (item_schema true ∅) 2 "Item" false w
        = (Ret true, w') ∧
        added "Item" w w' = 2%nat ∧ failed_tables w' = failed_tables w.
Proof.
  intros w.
  assert (Ha : accepts_inserts parent_db).
  { intros q [] Hq. exists [], [], tt. unfold parent_db. by rewrite Hq. }
  assert (Hi : id_reads_well_formed parent_db).
  { intros []. exists (Some [[("id", VInt 42)]]), tt. split; [reflexivity |].
    by exists (VInt 42). }
  assert (Hn : no_foreign_key (item_schema true ∅) "Item" item_columns).
  { intros col _. reflexivity. }
  split; [apply wf_store_init |]. split; [exact Ha |]. split; [exact Hi |].
  split; [exact Hn |].
  exact (populate_table_complete parent_db constant_gen (item_schema true ∅) 2 "Item"
           false item_columns w eq_refl ltac:(done) Hn Ha Hi (wf_store_init _ _ _)).
Defined.

(** A generated row of [Item] has the keys [id] and [name], in that
    order. *)
Lemma generate_row_data_columns_witness :
  let w := init (DbState := unit) (GenState := unit) tt tt [] in
  NoDup (map column_name item_columns) ∧
  ∃ d, heap (_generate_row_data parent_db constant_gen (item_schema true ∅) "Item"
               item_columns false w).2 !! 0%nat = Some d ∧
       map fst d = ["id"; "name"] ∧ length (dict_values d) = 2%nat.
Proof.
  intros w.
  assert (Hnd : NoDup (map column_name item_columns))
    by compute_done.
  split; [exact Hnd |].
  exact (generate_row_data_columns parent_db constant_gen (item_schema true ∅) "Item"
           item_columns false w 0%nat _ Hnd ltac:(vm_compute; reflexivity)).
Defined.

(** The passes stay idle with a retry budget of zero. *)
Lemma handle_failed_tables_idle_witness :
  let w := init (DbState := unit) (GenState := unit) tt tt [] in
  ∃ w', _handle_failed_tables silent_db constant_gen (ghost_schema ∅) 10 0 w
        = (Ret tt, w') ∧
        log w' = log w ++ [repair_entry] ∧ failed_tables w' = failed_tables w.
Proof.
  intros w.
  destruct (handle_failed_tables_idle silent_db constant_gen (ghost_schema ∅) 10 0 w
              (or_introl (Z.le_refl 0))) as (w' & E & Hl & Hf & _).
  exists w'. split; [exact E |]. split; [exact Hl | exact Hf].
Defined.

(** The two passes over [Item], listed as circular. *)
Lemma populate_passes_attempts_witness :
  let w := init (DbState := unit) (GenState := unit) tt tt [] in
  let run := populate_passes parent_db constant_gen (item_schema true {["Item"]}) 2
               ["Item"] {["Item"]} w in
  run.1 = Ret tt ∧
  ∃ ex, log run.2 = log w ++ ex ∧ attempts ex ≡ₚ ["Item"].
Proof.
  intros w run.
  assert (Ho : run.1 = Ret tt) by (vm_compute; reflexivity).
  split; [exact Ho |].
  assert (E : run = (Ret tt, run.2)) by (rewrite <- Ho; apply surjective_pairing).
  destruct (populate_passes_attempts parent_db constant_gen (item_schema true {["Item"]}) 2
              ["Item"] {["Item"]} w run.2 E)
    as (l' & ex & Hl' & Hlog & _ & Hp).
  exists ex. split; [exact Hlog |].
  specialize (Hl' w). injection Hl' as <-. exact Hp.
Defined.

(** The store holds one [Parent] row, whose only key is [ID]; the foreign
    key of [Child] refers to the key [id]. *)
Lemma populate_table_key_error_witness :
  let w := Build_World (DbState := unit) (GenState := unit)
             {["Parent" := [0%nat]]} ∅ None [[("ID", VInt 1)]] tt tt [] [] in
  wf_store w ∧
  ∃ w', _populate_table parent_db constant_gen child_schema 2 "Child" false w
        = (Raise (KeyError "id"), w') ∧
        failed_tables w' = failed_tables w ∧ inserted_data w' = inserted_data w.
Proof.
  intros w.
  assert (Hwf : wf_store w).
  { intros l [t Hl]. simpl in *. destruct (decide (t = "Parent")) as [-> | Hne].
    - rewrite lookup_total_singleton in Hl. apply list_elem_of_singleton in Hl. lia.
    - rewrite lookup_total_singleton_ne in Hl by done. by apply elem_of_nil in Hl. }
  assert (Hrows : ∀ r', r' ∈ [0%nat] →
            dict_get (default [] (heap w !! r')) (referenced_column child_parent_fk) = None).
  { intros r' ->%list_elem_of_singleton. reflexivity. }
  split; [exact Hwf |].
  exact (populate_table_key_error parent_db constant_gen child_schema 2 "Child" false
           (make_column "parent_id" "int" "NO" "MUL" "") [] child_parent_fk 0%nat [] w
           eq_refl ltac:(done) eq_refl eq_refl Hrows Hwf ltac:(done)).
Defined.

(** A cached pool of one identifier and a database that answers nothing:
    the column [SyncSource_ID] gets the cached identifier. *)
Lemma generate_row_data_stale_pool_witness :
  let w := Build_World (DbState := unit) (GenState := unit)
             ∅ ∅ (Some [VInt 7]) [] tt tt [] [] in
  let columns := [make_column "SyncSource_ID" "int" "NO" "MUL" ""] in
  let run := _generate_row_data silent_db constant_gen (ghost_schema ∅)
               "SyncSource_LogAlert" columns false w in
  run.1 = Ret 0%nat ∧
  _sync_source_ids run.2 = Some [VInt 7] ∧
  ∃ v, dict_get (default [] (heap run.2 !! 0%nat)) "SyncSource_ID" = Some v ∧
       v ∈ [VInt 7].
Proof.
  intros w columns run.
  assert (Ho : run.1 = Ret 0%nat) by (vm_compute; reflexivity).
  assert (E : run = (Ret 0%nat, run.2)) by (rewrite <- Ho; apply surjective_pairing).
  assert (Hq : ∃ result s', silent_db sync_source_probe (db w) = (DbResult result, s') ∧
                            result_truthy result = false)
    by (by exists None, tt).
  assert (Hcol : ∃ col, col ∈ columns ∧ column_name col = "SyncSource_ID").
  { exists (make_column "SyncSource_ID" "int" "NO" "MUL" "").
    split; [apply elem_of_cons; by left | reflexivity]. }
  destruct (generate_row_data_stale_pool silent_db constant_gen (ghost_schema ∅)
              columns false [VInt 7] w 0%nat run.2 eq_refl ltac:(done) Hq E)
    as (Hpool & Hin & Hsome).
  split; [exact Ho |]. split; [exact Hpool |].
  destruct (Hsome Hcol) as (v & Hv). exists v. split; [exact Hv | exact (Hin v Hv)].
Defined.

Lemma flaky_db_id_reads_keyed : id_reads_keyed flaky_db.
Proof.
  intros s result s' E. unfold flaky_db in E. simpl in E. injection E as <- _.
  by exists (VInt 0).
Qed.

Lemma item_plain_table circular : plain_table (item_schema true circular) "Item".
Proof.
  exists item_columns. split; [reflexivity |]. split; [done |]. intros col _. reflexivity.
Qed.

(** Ten inserts into [Item] against the database that rejects the first
    three with an error. *)
Lemma populate_table_returns_witness :
  id_reads_keyed flaky_db ∧
  ∃ b w', _populate_table flaky_db constant_gen (item_schema true ∅) 10 "Item" false
            (init 0%nat tt []) = (Ret b, w').
Proof.
  split; [exact flaky_db_id_reads_keyed |].
  apply populate_table_returns; [| exact flaky_db_id_reads_keyed].
  intros columns Hc. injection Hc as <-. split; [done |]. intros col _. reflexivity.
Defined.

(** A whole run over [Item], listed as circular, against the database that
    rejects the first three inserts with an error. *)
Lemma populate_database_returns_witness :
  id_reads_keyed flaky_db ∧
  ∃ b w', populate_database flaky_db constant_gen (item_schema true {["Item"]}) 2 5
            (init 0%nat tt []) = (Ret b, w').
Proof.
  split; [exact flaky_db_id_reads_keyed |].
  apply populate_database_returns; [| exact flaky_db_id_reads_keyed].
  intros t [Ht | Ht].
  - simpl in Ht. apply list_elem_of_singleton in Ht as ->. apply item_plain_table.
  - simpl in Ht. by apply not_elem_of_empty in Ht.
Defined.

(** [Item] is failed on entry; the database rejects three inserts and
    accepts the fourth, made by the partial population. *)
Lemma handle_failed_tables_evidence_witness :
  let w := Build_World (DbState := nat) (GenState := unit)
             ∅ {["Item"]} None [] 0%nat tt [] [] in
  let run := _handle_failed_tables flaky_db constant_gen (item_schema true {["Item"]})
               2 5 w in
  wf_store w ∧ run.1 = Ret tt ∧
  "Item" ∈ failed_tables w ∧ ("Item" ∉ failed_tables run.2) ∧
  (1 ≤ added "Item" w run.2)%nat.
Proof.
  intros w run.
  assert (Hw : wf_store w).
  { intros l [t Ht]. simpl in Ht. rewrite lookup_total_empty in Ht.
    by apply elem_of_nil in Ht. }
  assert (Ho : run.1 = Ret tt) by (vm_compute; reflexivity).
  assert (E : run = (Ret tt, run.2)) by (rewrite <- Ho; apply surjective_pairing).
  assert (Hin : "Item" ∈ failed_tables w) by compute_done.
  assert (Hout : "Item" ∉ failed_tables run.2) by compute_done.
  split; [exact Hw |]. split; [exact Ho |]. split; [exact Hin |]. split; [exact Hout |].
  exact (handle_failed_tables_evidence flaky_db constant_gen (item_schema true {["Item"]})
           2 5 w run.2 Hw ltac:(done) E "Item" Hin Hout).
Defined.

(** A run with a target count of zero. *)
Lemma populate_database_zero_target_witness :
  let w := init (DbState := unit) (GenState := unit) tt tt [] in
  ∃ w', populate_database parent_db constant_gen (item_schema true ∅) 0 5 w
        = (Ret true, w') ∧
        only_logs w w'.
Proof.
  intros w.
  apply populate_database_zero_target; [done | reflexivity | done | | reflexivity].
  intros t Ht. simpl in Ht. apply list_elem_of_singleton in Ht as ->.
  by exists item_columns.
Defined.

